(** * Tempo: TraceQL expression core and vparquet trace lookup

    A shallow embedding of

      - [pkg/traceql/ast.go] and [pkg/traceql/ast_validate.go]
        (module [traceql]), and
      - [tempodb/encoding/vparquet/block_findtracebyid.go]
        (module [vparquet]),

    followed by the properties of the design document that concern
    them. *)

From Stdlib Require Import ZArith List Floats Lia Bool.
From Stdlib.Strings Require Import Byte.
From stdpp Require Import base list strings.

Set Warnings "-register-all".

Local Open Scope Z_scope.

(* ===================================================================== *)
(** * Package traceql                                                     *)
(* ===================================================================== *)

Module traceql.

#[local] Set Implicit Arguments.

(** ** Enumerations *)

(** Modelled from the spec: [StaticType] is declared in
    [enum_statics.go], which is not part of the sources at hand.  The
    constants are the ones [ast.go] and [ast_validate.go] name. *)
Inductive StaticType : Set :=
| TypeNil
| TypeSpanset
| TypeAttribute
| TypeInt
| TypeFloat
| TypeString
| TypeBoolean
| TypeDuration
| TypeStatus.

#[global] Instance StaticType_eq_dec : EqDecision StaticType.
Proof. solve_decision. Defined.

(** Modelled from the spec: "[isNumeric] is true for Int/Float/Duration". *)
Definition isNumeric (t : StaticType) : bool :=
  match t with
  | TypeInt | TypeFloat | TypeDuration => true
  | _ => false
  end.

(** Modelled from the spec: "[isMatchingOperand(a,b)] is true iff [a==b],
    or either is [Attribute], or the pair is [{Int,Status}]". *)
Definition isMatchingOperand (t otherT : StaticType) : bool :=
  bool_decide (t = otherT)
  || bool_decide (t = TypeAttribute) || bool_decide (otherT = TypeAttribute)
  || (bool_decide (t = TypeInt) && bool_decide (otherT = TypeStatus))
  || (bool_decide (t = TypeStatus) && bool_decide (otherT = TypeInt)).

(** Modelled from the spec: the aggregate operators [count], [sum],
    [avg], [min], [max] ([enum_aggregates.go] is not at hand; [ast.go]
    names [aggregateCount]). *)
Inductive AggregateOp : Set :=
| aggregateCount
| aggregateSum
| aggregateAvg
| aggregateMin
| aggregateMax.

#[global] Instance AggregateOp_eq_dec : EqDecision AggregateOp.
Proof. solve_decision. Defined.

(** The intrinsics [Attribute.impliedType] switches on. *)
Inductive Intrinsic : Set :=
| IntrinsicNone
| IntrinsicDuration
| IntrinsicChildCount
| IntrinsicName
| IntrinsicStatus
| IntrinsicParent.

Inductive AttributeScope : Set :=
| AttributeScopeNone
| AttributeScopeResource
| AttributeScopeSpan.

(** [type Status int]: [Static.Equals] converts an [int] to a [Status]
    with [Status(other.N)], which keeps the integer. *)
Definition Status : Set := Z.

Definition Status_of_int (n : Z) : Status := n.

(** ** Statics *)

(** [type Static struct { Type; N int; F float64; S string; B bool;
    D time.Duration; Status Status }].  [F] is an IEEE-754 binary64,
    compared by Go's [==] as [PrimFloat.eqb] compares it. *)
Record Static : Set := mkStatic {
  Static_Type : StaticType;
  Static_N : Z;
  Static_F : float;
  Static_S : string;
  Static_B : bool;
  Static_D : Z;
  Static_Status : Status
}.

(** The zero value of the payload slots. *)
Definition zeroStatic (t : StaticType) : Static :=
  mkStatic t 0 0%float "" false 0 0.

Definition NewStaticInt (n : Z) : Static :=
  mkStatic TypeInt n 0%float "" false 0 0.

Definition NewStaticFloat (f : float) : Static :=
  mkStatic TypeFloat 0 f "" false 0 0.

Definition NewStaticString (s : string) : Static :=
  mkStatic TypeString 0 0%float s false 0 0.

Definition NewStaticBool (b : bool) : Static :=
  mkStatic TypeBoolean 0 0%float "" b 0 0.

Definition NewStaticNil : Static := zeroStatic TypeNil.

Definition NewStaticDuration (d : Z) : Static :=
  mkStatic TypeDuration 0 0%float "" false d 0.

Definition NewStaticStatus (s : Status) : Static :=
  mkStatic TypeStatus 0 0%float "" false 0 s.

(** Go's [s == other] on the struct: every field compared with [==]. *)
Definition Static_struct_eq (s other : Static) : bool :=
  bool_decide (Static_Type s = Static_Type other)
  && (Static_N s =? Static_N other)
  && PrimFloat.eqb (Static_F s) (Static_F other)
  && String.eqb (Static_S s) (Static_S other)
  && Bool.eqb (Static_B s) (Static_B other)
  && (Static_D s =? Static_D other)
  && (Static_Status s =? Static_Status other).

Definition Static_Equals (s other : Static) : bool :=
  let eitherIsTypeStatus :=
    (bool_decide (Static_Type s = TypeStatus)
       && bool_decide (Static_Type other = TypeInt))
    || (bool_decide (Static_Type other = TypeStatus)
          && bool_decide (Static_Type s = TypeInt)) in
  if negb eitherIsTypeStatus then Static_struct_eq s other
  else if bool_decide (Static_Type s = TypeStatus)
       then Static_Status s =? Status_of_int (Static_N other)
       else Status_of_int (Static_N s) =? Static_Status other.

(** The type tags and all payload slots are equal, each by Go's [==]
    of its type. *)
Definition componentwiseEqual (s other : Static) : Prop :=
  Static_Type s = Static_Type other /\
  Static_N s = Static_N other /\
  PrimFloat.eqb (Static_F s) (Static_F other) = true /\
  Static_S s = Static_S other /\
  Static_B s = Static_B other /\
  Static_D s = Static_D other /\
  Static_Status s = Static_Status other.

(** One of the two is an [Int] and the other the [Status] of the same
    integer: the pair [Int(n)], [Status(n)] in either order. *)
Definition intStatusPair (s other : Static) : Prop :=
  (Static_Type s = TypeInt /\ Static_Type other = TypeStatus /\
   Status_of_int (Static_N s) = Static_Status other)
  \/ (Static_Type s = TypeStatus /\ Static_Type other = TypeInt /\
      Static_Status s = Status_of_int (Static_N other)).

Definition Static_referencesSpan (_ : Static) : bool := false.

Definition Static_impliedType (s : Static) : StaticType := Static_Type s.

(** ** Attributes *)

Record Attribute : Set := mkAttribute {
  Attribute_Scope : AttributeScope;
  Attribute_Parent : bool;
  Attribute_Name : string;
  Attribute_Intrinsic : Intrinsic
}.

Definition NewAttribute (att : string) : Attribute :=
  mkAttribute AttributeScopeNone false att IntrinsicNone.

Definition Attribute_impliedType (a : Attribute) : StaticType :=
  match Attribute_Intrinsic a with
  | IntrinsicDuration => TypeDuration
  | IntrinsicChildCount => TypeInt
  | IntrinsicName => TypeString
  | IntrinsicStatus => TypeStatus
  | IntrinsicParent => TypeNil
  | IntrinsicNone => TypeAttribute
  end.

Definition Attribute_referencesSpan (_ : Attribute) : bool := true.

(** [NewScopedAttribute]; [intrinsicFromString] is declared in
    [enum_attributes.go], which is not at hand: a parameter. *)
Definition NewScopedAttribute (intrinsicFromString : string -> Intrinsic)
    (scope : AttributeScope) (parent : bool) (att : string) : Attribute :=
  let intrinsic :=
    match scope with
    | AttributeScopeResource | AttributeScopeSpan => IntrinsicNone
    | AttributeScopeNone => intrinsicFromString att
    end in
  mkAttribute scope parent att intrinsic.

(** [NewIntrinsic]; the stringer of [Intrinsic] is a parameter. *)
Definition NewIntrinsic (Intrinsic_String : Intrinsic -> string)
    (n : Intrinsic) : Attribute :=
  mkAttribute AttributeScopeNone false (Intrinsic_String n) n.

(** ** The expression tree *)

(** A Go [error] is either nil or a value; [fmt.Errorf] and the
    executor produce the values.  Results that Go returns as
    [(value, error)] are returned as [result]. *)
Inductive result (E A : Type) : Type :=
| Ok (a : A)
| Err (e : E).
Arguments Ok {E A} a.
Arguments Err {E A} e.

Section AST.

(** [Operator] and its three predicates are declared in
    [enum_operators.go], which is not at hand: they are parameters. *)
Variable Operator : Type.
Variable isBoolean : Operator -> bool.
Variable binaryTypesValid : Operator -> StaticType -> StaticType -> bool.
Variable unaryTypesValid : Operator -> StaticType -> bool.

(** The implementors of the interface [FieldExpression]:
    [BinaryOperation], [UnaryOperation], [Static] and [Attribute]. *)
Inductive FieldExpression : Type :=
| BinaryOperation (Op : Operator) (LHS RHS : FieldExpression)
| UnaryOperation (Op : Operator) (Expression : FieldExpression)
| StaticExpr (s : Static)
| AttributeExpr (a : Attribute).

Record GroupOperation : Type := newGroupOperation {
  GroupOperation_Expression : FieldExpression
}.

(** [e] is an interface value and may be nil: [None]. *)
Record Aggregate : Type := newAggregate {
  Aggregate_agg : AggregateOp;
  Aggregate_e : option FieldExpression
}.

Record SpansetFilter : Type := newSpansetFilter {
  SpansetFilter_Expression : FieldExpression
}.

(** The implementors of [pipelineElement] ([Pipeline], [GroupOperation],
    [CoalesceOperation], [Aggregate], [SpansetOperation],
    [SpansetFilter], [ScalarFilter]) and of [ScalarExpression]
    ([ScalarOperation], [Aggregate], [Pipeline], [Static]).  The
    operands of a [SpansetOperation] are [SpansetExpression]s, which
    are pipeline elements. *)
Inductive pipelineElement : Type :=
| PipelineElem (Elements : list pipelineElement)
| GroupOperationElem (o : GroupOperation)
| CoalesceOperationElem
| AggregateElem (a : Aggregate)
| SpansetOperationElem (Op : Operator) (LHS RHS : pipelineElement)
| SpansetFilterElem (f : SpansetFilter)
| ScalarFilterElem (op : Operator) (lhs rhs : ScalarExpression)
with ScalarExpression : Type :=
| ScalarOperation (Op : Operator) (LHS RHS : ScalarExpression)
| AggregateScalar (a : Aggregate)
| PipelineScalar (Elements : list pipelineElement)
| StaticScalar (s : Static).

(** [type Pipeline struct { Elements []pipelineElement }] *)
Definition Pipeline : Type := list pipelineElement.

Definition newPipeline (i : list pipelineElement) : Pipeline := i.

Definition Pipeline_addItem (p : Pipeline) (i : pipelineElement) : Pipeline :=
  p ++ [i].

Record RootExpr : Type := mkRootExpr { RootExpr_Pipeline : Pipeline }.

Definition newRootExpr (e : pipelineElement) : RootExpr :=
  match e with
  | PipelineElem p => mkRootExpr p
  | _ => mkRootExpr (newPipeline [e])
  end.

(** What an error message is formatted with: the [String()] of the
    offending node.  The stringers live in [ast_stringer.go]; the
    error keeps the node itself. *)
Inductive Element : Type :=
| FieldElement (e : FieldExpression)
| ScalarElement (s : ScalarExpression)
| PipelineElement (p : pipelineElement).

Inductive error : Type :=
| Errorf (format : string) (arg : Element)
| ErrorNew (msg : string).

(** *** Implied types and span references *)

Fixpoint FieldExpression_impliedType (e : FieldExpression) : StaticType :=
  match e with
  | BinaryOperation Op LHS RHS =>
      if isBoolean Op then TypeBoolean
      else
        let t := FieldExpression_impliedType LHS in
        if negb (bool_decide (t = TypeAttribute)) then t
        else FieldExpression_impliedType RHS
  | UnaryOperation _ Expression => FieldExpression_impliedType Expression
  | StaticExpr s => Static_impliedType s
  | AttributeExpr a => Attribute_impliedType a
  end.

Fixpoint FieldExpression_referencesSpan (e : FieldExpression) : bool :=
  match e with
  | BinaryOperation _ LHS RHS =>
      FieldExpression_referencesSpan LHS || FieldExpression_referencesSpan RHS
  | UnaryOperation _ Expression => FieldExpression_referencesSpan Expression
  | StaticExpr s => Static_referencesSpan s
  | AttributeExpr a => Attribute_referencesSpan a
  end.

Definition Aggregate_impliedType (a : Aggregate) : StaticType :=
  if bool_decide (Aggregate_agg a = aggregateCount) then TypeInt
  else
    match Aggregate_e a with
    | None => TypeInt
    | Some e => FieldExpression_impliedType e
    end.

Definition Pipeline_impliedType (p : Pipeline) : StaticType :=
  match last p with
  | None => TypeSpanset
  | Some (AggregateElem aggregate) => Aggregate_impliedType aggregate
  | Some _ => TypeSpanset
  end.

Fixpoint ScalarExpression_impliedType (s : ScalarExpression) : StaticType :=
  match s with
  | ScalarOperation Op LHS RHS =>
      if isBoolean Op then TypeBoolean
      else
        let t := ScalarExpression_impliedType LHS in
        if negb (bool_decide (t = TypeAttribute)) then t
        else ScalarExpression_impliedType RHS
  | AggregateScalar a => Aggregate_impliedType a
  | PipelineScalar p => Pipeline_impliedType p
  | StaticScalar s => Static_impliedType s
  end.

(** [e'] is the node [e] or a node below it. *)
Inductive subexpression (e' : FieldExpression) : FieldExpression -> Prop :=
| subexpression_here : subexpression e' e'
| subexpression_LHS Op LHS RHS :
    subexpression e' LHS -> subexpression e' (BinaryOperation Op LHS RHS)
| subexpression_RHS Op LHS RHS :
    subexpression e' RHS -> subexpression e' (BinaryOperation Op LHS RHS)
| subexpression_operand Op Expression :
    subexpression e' Expression ->
    subexpression e' (UnaryOperation Op Expression).

(** The nodes of a field expression in the order in which [validate]
    comes to their own checks: a binary operation validates its left
    operand, then its right operand, then tests its own types; a unary
    operation validates its operand, then tests its own type. *)
Fixpoint validationOrder (e : FieldExpression) : list FieldExpression :=
  match e with
  | BinaryOperation _ LHS RHS =>
      validationOrder LHS ++ validationOrder RHS ++ [e]
  | UnaryOperation _ Expression => validationOrder Expression ++ [e]
  | StaticExpr _ | AttributeExpr _ => [e]
  end.

(** *** Validation ([ast_validate.go]) *)

(** [validate() error]: [None] is the nil error. *)

Definition Static_validate (_ : Static) : option error := None.

Definition Attribute_validate (_ : Attribute) : option error := None.

Fixpoint FieldExpression_validate (e : FieldExpression) : option error :=
  match e with
  | BinaryOperation Op LHS RHS =>
      match FieldExpression_validate LHS with
      | Some err => Some err
      | None =>
      match FieldExpression_validate RHS with
      | Some err => Some err
      | None =>
        let lhsT := FieldExpression_impliedType LHS in
        let rhsT := FieldExpression_impliedType RHS in
        if negb (isMatchingOperand lhsT rhsT) then
          Some (Errorf "binary operations must operate on the same type: %s"
                       (FieldElement e))
        else if negb (binaryTypesValid Op lhsT rhsT) then
          Some (Errorf "illegal operation for the given types: %s"
                       (FieldElement e))
        else None
      end end
  | UnaryOperation Op Expression =>
      match FieldExpression_validate Expression with
      | Some err => Some err
      | None =>
        let t := FieldExpression_impliedType Expression in
        if bool_decide (t = TypeAttribute) then None
        else if negb (unaryTypesValid Op t) then
          Some (Errorf "illegal operation for the given type: %s"
                       (FieldElement e))
        else None
      end
  | StaticExpr n => Static_validate n
  | AttributeExpr a => Attribute_validate a
  end.

Definition GroupOperation_validate (o : GroupOperation) : option error :=
  if negb (FieldExpression_referencesSpan (GroupOperation_Expression o)) then
    Some (Errorf "grouping field expressions must reference the span: %s"
                 (PipelineElement (GroupOperationElem o)))
  else FieldExpression_validate (GroupOperation_Expression o).

Definition CoalesceOperation_validate : option error := None.

Definition Aggregate_validate (a : Aggregate) : option error :=
  match Aggregate_e a with
  | None => None
  | Some e =>
    match FieldExpression_validate e with
    | Some err => Some err
    | None =>
      let t := FieldExpression_impliedType e in
      if negb (bool_decide (t = TypeAttribute)) && negb (isNumeric t) then
        Some (Errorf "aggregate field expressions must resolve to a number type: %s"
                     (PipelineElement (AggregateElem a)))
      else if negb (FieldExpression_referencesSpan e) then
        Some (Errorf "aggregate field expressions must reference the span: %s"
                     (PipelineElement (AggregateElem a)))
      else None
    end
  end.

Definition SpansetFilter_validate (f : SpansetFilter) : option error :=
  match FieldExpression_validate (SpansetFilter_Expression f) with
  | Some err => Some err
  | None =>
    let t := FieldExpression_impliedType (SpansetFilter_Expression f) in
    if negb (bool_decide (t = TypeAttribute))
       && negb (bool_decide (t = TypeBoolean)) then
      Some (Errorf "span filter field expressions must resolve to a boolean: %s"
                   (PipelineElement (SpansetFilterElem f)))
    else None
  end.

(** [Pipeline.validate]: the loop over [p.Elements], calling the
    element's [validate] through the interface. *)
Definition Pipeline_validate_with
    (validate : pipelineElement -> option error) : Pipeline -> option error :=
  fix loop (Elements : list pipelineElement) : option error :=
    match Elements with
    | [] => None
    | p :: rest =>
      match validate p with
      | Some err => Some err
      | None => loop rest
      end
    end.

Fixpoint pipelineElement_validate (e : pipelineElement) : option error :=
  match e with
  | PipelineElem Elements =>
      Pipeline_validate_with pipelineElement_validate Elements
  | GroupOperationElem o => GroupOperation_validate o
  | CoalesceOperationElem => CoalesceOperation_validate
  | AggregateElem a => Aggregate_validate a
  | SpansetOperationElem _ LHS RHS =>
      match pipelineElement_validate LHS with
      | Some err => Some err
      | None => pipelineElement_validate RHS
      end
  | SpansetFilterElem f => SpansetFilter_validate f
  | ScalarFilterElem op lhs rhs =>
      match ScalarExpression_validate lhs with
      | Some err => Some err
      | None =>
      match ScalarExpression_validate rhs with
      | Some err => Some err
      | None =>
        let lhsT := ScalarExpression_impliedType lhs in
        let rhsT := ScalarExpression_impliedType rhs in
        if negb (isMatchingOperand lhsT rhsT) then
          Some (Errorf "binary operations must operate on the same type: %s"
                       (PipelineElement e))
        else if negb (binaryTypesValid op lhsT rhsT) then
          Some (Errorf "illegal operation for the given types: %s"
                       (PipelineElement e))
        else None
      end end
  end
with ScalarExpression_validate (s : ScalarExpression) : option error :=
  match s with
  | ScalarOperation Op LHS RHS =>
      match ScalarExpression_validate LHS with
      | Some err => Some err
      | None =>
      match ScalarExpression_validate RHS with
      | Some err => Some err
      | None =>
        let lhsT := ScalarExpression_impliedType LHS in
        let rhsT := ScalarExpression_impliedType RHS in
        if negb (isMatchingOperand lhsT rhsT) then
          Some (Errorf "binary operations must operate on the same type: %s"
                       (ScalarElement s))
        else if negb (binaryTypesValid Op lhsT rhsT) then
          Some (Errorf "illegal operation for the given types: %s"
                       (ScalarElement s))
        else None
      end end
  | AggregateScalar a => Aggregate_validate a
  | PipelineScalar Elements =>
      Pipeline_validate_with pipelineElement_validate Elements
  | StaticScalar n => Static_validate n
  end.

Definition Pipeline_validate (p : Pipeline) : option error :=
  Pipeline_validate_with pipelineElement_validate p.

Definition RootExpr_validate (r : RootExpr) : option error :=
  Pipeline_validate (RootExpr_Pipeline r).

(** *** Evaluation ([ast.go]) *)

(** [Span] and [Spanset] are declared in [storage.go], which is not at
    hand.  Modelled from the spec: a span is an abstract record, a
    spanset is "an ordered collection of Spans sharing a trace id plus
    arbitrary metadata". *)
Variable Span : Type.
Variable SpansetMetadata : Type.

Record Spanset : Type := mkSpanset {
  Spanset_TraceID : list byte;
  Spanset_Metadata : SpansetMetadata;
  Spans : list Span
}.

(** [matchingSpanset := ss; matchingSpanset.Spans = matchingSpans]:
    a copy of the struct with one field replaced. *)
Definition Spanset_withSpans (ss : Spanset) (spans : list Span) : Spanset :=
  mkSpanset (Spanset_TraceID ss) (Spanset_Metadata ss) spans.

(** [FieldExpression.execute(span) (Static, error)] is implemented in
    [ast_execute.go], which is not at hand: a parameter. *)
Variable execute : FieldExpression -> Span -> result error Static.

(** The inner loop of [SpansetFilter.evaluate] over [ss.Spans]; the
    accumulator is [matchingSpans]. *)
Fixpoint SpansetFilter_matchSpans (f : SpansetFilter) (spans : list Span)
    (matchingSpans : list Span) : result error (list Span) :=
  match spans with
  | [] => Ok matchingSpans
  | s :: rest =>
    match execute (SpansetFilter_Expression f) s with
    | Err err => Err err
    | Ok res =>
      if negb (bool_decide (Static_Type res = TypeBoolean)) then
        SpansetFilter_matchSpans f rest matchingSpans
      else if negb (Static_B res) then
        SpansetFilter_matchSpans f rest matchingSpans
      else
        SpansetFilter_matchSpans f rest (matchingSpans ++ [s])
    end
  end.

(** The outer loop over [input]; the accumulator is [output]. *)
Fixpoint SpansetFilter_evaluate_loop (f : SpansetFilter) (input : list Spanset)
    (output : list Spanset) : result error (list Spanset) :=
  match input with
  | [] => Ok output
  | ss :: rest =>
    if (Z.of_nat (length (Spans ss)) =? 0) then
      SpansetFilter_evaluate_loop f rest output
    else
      match SpansetFilter_matchSpans f (Spans ss) [] with
      | Err err => Err err
      | Ok matchingSpans =>
        if (Z.of_nat (length matchingSpans) =? 0) then
          SpansetFilter_evaluate_loop f rest output
        else
          SpansetFilter_evaluate_loop f rest
            (output ++ [Spanset_withSpans ss matchingSpans])
      end
  end.

Definition SpansetFilter_evaluate (f : SpansetFilter) (input : list Spanset)
  : result error (list Spanset) :=
  SpansetFilter_evaluate_loop f input [].

Definition GroupOperation_evaluate (_ : GroupOperation) (ss : list Spanset)
  : result error (list Spanset) := Ok ss.

Definition CoalesceOperation_evaluate (ss : list Spanset)
  : result error (list Spanset) := Ok ss.

Definition Aggregate_evaluate (_ : Aggregate) (ss : list Spanset)
  : result error (list Spanset) := Ok ss.

Definition ScalarFilter_evaluate (_ : Operator) (_ _ : ScalarExpression)
    (ss : list Spanset) : result error (list Spanset) := Ok ss.

(** Modelled from the spec: [SpansetOperation.evaluate] is not in
    [ast.go] (where [SpansetOperation] is declared a [pipelineElement])
    nor in any other file at hand.  "Aggregate, GroupOperation,
    ScalarFilter, CoalesceOperation, SpansetOperation: this revision
    implements these as identity on input". *)
Definition SpansetOperation_evaluate (_ : Operator) (_ _ : pipelineElement)
    (ss : list Spanset) : result error (list Spanset) := Ok ss.

(** [Pipeline.evaluate]: the loop over [p.Elements], calling the
    element's [evaluate] through the interface [pipelineElement];
    [res] is the Go variable [result]. *)
Definition Pipeline_evaluate_with
    (evaluate : pipelineElement -> list Spanset -> result error (list Spanset))
  : Pipeline -> list Spanset -> result error (list Spanset) :=
  fix loop (Elements : list pipelineElement) (res : list Spanset) :=
    match Elements with
    | [] => Ok res
    | element :: rest =>
      match evaluate element res with
      | Err err => Err err
      | Ok res' =>
        if (Z.of_nat (length res') =? 0) then Ok []
        else loop rest res'
      end
    end.

Fixpoint pipelineElement_evaluate (e : pipelineElement) (input : list Spanset)
  : result error (list Spanset) :=
  match e with
  | PipelineElem Elements =>
      Pipeline_evaluate_with pipelineElement_evaluate Elements input
  | GroupOperationElem o => GroupOperation_evaluate o input
  | CoalesceOperationElem => CoalesceOperation_evaluate input
  | AggregateElem a => Aggregate_evaluate a input
  | SpansetOperationElem Op LHS RHS => SpansetOperation_evaluate Op LHS RHS input
  | SpansetFilterElem f => SpansetFilter_evaluate f input
  | ScalarFilterElem op lhs rhs => ScalarFilter_evaluate op lhs rhs input
  end.

Definition Pipeline_evaluate (p : Pipeline) (input : list Spanset)
  : result error (list Spanset) :=
  Pipeline_evaluate_with pipelineElement_evaluate p input.

(** The span filter in the words of the design document: a span is kept
    when the expression evaluates to a Boolean that is true; a spanset
    is emitted, restricted to the kept spans, when one is kept; the
    first failure of [execute], in the order of the spans, is the
    failure of the filter. *)
Definition keepsSpan (f : SpansetFilter) (sp : Span) : bool :=
  match execute (SpansetFilter_Expression f) sp with
  | Ok res => bool_decide (Static_Type res = TypeBoolean) && Static_B res
  | Err _ => false
  end.

Definition filterSpanset_spec (f : SpansetFilter) (ss : Spanset)
  : option Spanset :=
  match List.filter (keepsSpan f) (Spans ss) with
  | [] => None
  | kept => Some (Spanset_withSpans ss kept)
  end.

Fixpoint firstExecuteError (f : SpansetFilter) (spans : list Span)
  : option error :=
  match spans with
  | [] => None
  | sp :: rest =>
    match execute (SpansetFilter_Expression f) sp with
    | Err err => Some err
    | Ok _ => firstExecuteError f rest
    end
  end.


(** The state of a cancellation token of the caller.  No method
    [evaluate([]Spanset) ([]Spanset, error)] takes a context or a
    token: evaluating while the token is in some state is evaluating. *)
Inductive CancelToken : Set :=
| TokenLive
| TokenCancelled.

Definition Pipeline_evaluate_under (_ : CancelToken) (p : Pipeline)
    (input : list Spanset) : result error (list Spanset) :=
  Pipeline_evaluate p input.

End AST.

Arguments Spans {Span SpansetMetadata} s.

End traceql.

(* ===================================================================== *)
(** * Package vparquet                                                    *)
(* ===================================================================== *)

Module vparquet.

#[local] Set Implicit Arguments.

(** ** Identifiers and machine integers *)

(** [common.ID] is [[]byte]. *)
Abbreviation ID := (list byte).

#[global] Instance byte_eq_decision : EqDecision byte := byte_eq_dec.

Definition byte_compare (x y : byte) : comparison :=
  N.compare (Byte.to_N x) (Byte.to_N y).

Definition lex (a b : ID) : comparison := list_compare byte_compare a b.

(** [bytes.Compare] of the Go standard library: the lexicographic
    order of the two byte strings, as -1, 0 or +1. *)
Definition bytes_Compare (a b : ID) : Z :=
  match lex a b with
  | Lt => -1
  | Eq => 0
  | Gt => 1
  end.

(** Go's [int] and [int64] are 64 bits wide, [uint] too. *)
Definition int_wrap (z : Z) : Z := (z + 2 ^ 63) mod 2 ^ 64 - 2 ^ 63.

Definition uint_wrap (z : Z) : Z := z mod 2 ^ 64.

(** [l[i]] for an [int] index; [None] where Go panics. *)
Definition index {A : Type} (l : list A) (i : Z) : option A :=
  if i <? 0 then None else l !! Z.to_nat i.

Definition SearchPrevious : Z := -1.
Definition SearchNext : Z := -2.
Definition NotFound : Z := -3.
Definition TraceIDColumnName : string := "TraceID".

(** ** Outcomes, I/O events and the call-local state *)

Inductive error : Type :=
| ErrBackend (msg : string)
    (** an error of the backend reader or of the bloom library *)
| ErrRetrievingBloom (nameBloom : string) (err : error)
    (** "error retrieving bloom %s (%s, %s): %w" *)
| ErrParsingBloom (err : error)
    (** "error parsing bloom (%s, %s): %w" *)
| ErrOpeningParquet (err : error)
    (** "unexpected error opening parquet file: %w" *)
| ErrColumnIndex (column : string)
    (** "unable to get index for column: %s" *)
| ErrReadRowGroup (traceID : ID) (rgIdx : Z)
    (** "failed to read 1 value from row group: ..." *)
| ErrWrap (err : error) (msg : string).
    (** [errors.Wrap(err, msg)] *)

(** What a Go call does: return a value with a nil error, return an
    error, panic, or loop for ever ([Diverge] is what a loop gives when
    its fuel is used up). *)
Inductive outcome (A : Type) : Type :=
| Return (a : A)
| Error (e : error)
| Panic (msg : string)
| Diverge.
Arguments Return {A} a.
Arguments Error {A} e.
Arguments Panic {A} msg.
Arguments Diverge {A}.

(** The calls into the block store and the column store, in the order
    they are made. *)
Inductive Event : Type :=
| EvRead (name : string)
    (** [b.r.Read(ctx, name, blockID, tenantID, true)] *)
| EvOpenColumnar
    (** [b.openForSearch], which opens the columnar file *)
| EvIterOpen (rgIdx : Z) (predicate : option ID)
    (** [parquetquery.NewColumnIterator] over row group [rgIdx] *)
| EvIterClose (rgIdx : Z)
    (** [iter.Close()] *)
| EvSeekToRow (row : Z)
    (** [r.SeekToRow(row)] *)
| EvReadRow.
    (** [r.Read(tr)] *)

(** A computation reads and writes the cache [rowGroupMins] of the
    call and appends to the trace of events. *)
Definition M (A : Type) : Type :=
  list ID -> outcome A * list ID * list Event.

Definition ret {A : Type} (a : A) : M A :=
  fun mins => (Return a, mins, []).

Definition bind {A B : Type} (m : M A) (k : A -> M B) : M B :=
  fun mins =>
    match m mins with
    | (Return a, mins', evs) =>
        match k a mins' with
        | (o, mins'', evs') => (o, mins'', evs ++ evs')
        end
    | (Error e, mins', evs) => (Error e, mins', evs)
    | (Panic msg, mins', evs) => (Panic msg, mins', evs)
    | (Diverge, mins', evs) => (Diverge, mins', evs)
    end.

Notation "'let*' x ':=' m 'in' k" := (bind m (fun x => k))
  (at level 10, x name, m at level 100, k at level 200).
Notation "'do' m 'then' k" := (bind m (fun _ => k))
  (at level 10, m at level 100, k at level 200).

Definition fail {A : Type} (e : error) : M A :=
  fun mins => (Error e, mins, []).

Definition panic {A : Type} (msg : string) : M A :=
  fun mins => (Panic msg, mins, []).

Definition emit (ev : Event) : M unit :=
  fun mins => (Return tt, mins, [ev]).

Definition getMins : M (list ID) :=
  fun mins => (Return mins, mins, []).

Definition setMins (mins : list ID) : M unit :=
  fun _ => (Return tt, mins, []).

(** [if err != nil { return nil, wrap(err) }] around a call. *)
Definition mapError {A : Type} (wrap : error -> error) (m : M A) : M A :=
  fun mins =>
    match m mins with
    | (Error e, mins', evs) => (Error (wrap e), mins', evs)
    | r => r
    end.

(** [defer cleanup]: [cleanup] runs when the body returns or panics. *)
Definition defer {A : Type} (cleanup : Event) (body : M A) : M A :=
  fun mins =>
    match body mins with
    | (Diverge, mins', evs) => (Diverge, mins', evs)
    | (o, mins', evs) => (o, mins', evs ++ [cleanup])
    end.

(** [m], run on the cache [mins], returns [a] with a nil error and
    leaves the cache [mins']. *)
Definition returns {A : Type} (m : M A) (mins : list ID) (a : A)
    (mins' : list ID) : Prop :=
  exists evs, m mins = (Return a, mins', evs).

(** The column iterators that a trace of events leaves open: the
    calls of [NewColumnIterator] less the calls of [Close]. *)
Fixpoint openIterators (evs : list Event) : Z :=
  match evs with
  | [] => 0
  | EvIterOpen _ _ :: rest => openIterators rest + 1
  | EvIterClose _ :: rest => openIterators rest - 1
  | _ :: rest => openIterators rest
  end.

(** ** binarySearch *)

(** [h := int(uint(i+j) >> 1)] *)
Definition midpoint (i j : Z) : Z :=
  int_wrap (Z.shiftr (uint_wrap (int_wrap (i + j))) 1).

(** The loop [for i < j { ... }] of [binarySearch].  A comparator
    result other than 0, -1 and 1 matches no case of the [switch] and
    leaves [i] and [j] as they are. *)
Fixpoint binarySearch_loop (fuel : nat) (compare : Z -> M Z) (i j : Z) : M Z :=
  if i <? j then
    match fuel with
    | O => fun mins => (Diverge, mins, [])
    | S fuel' =>
      let h := midpoint i j in
      let* c := compare h in
      if c =? 0 then ret h
      else if c =? -1 then binarySearch_loop fuel' compare i h
      else if c =? 1 then binarySearch_loop fuel' compare (int_wrap (h + 1)) j
      else binarySearch_loop fuel' compare i j
    end
  else ret (-1).

(** An error of the comparator comes back as [(-1, err)]: the [Error]
    outcome. *)
Definition binarySearch (n : Z) (compare : Z -> M Z) : M Z :=
  binarySearch_loop (Z.to_nat n) compare 0 n.

(** ** Blocks *)

Section Block.

(** The row type [Trace] of the parquet schema ([schema.go]), the wire
    type [tempopb.Trace] and the conversion between them are not at
    hand: parameters.  [Trace_TraceID] is the value of the column
    "TraceID" of a row. *)
Variable Trace : Type.
Variable Trace_TraceID : Trace -> ID.
Variable tempopb_Trace : Type.
Variable parquetTraceToTempopbTrace : Trace -> tempopb_Trace.

(** The bloom filter of [github.com/willf/bloom] and the shard naming
    of package [common]: parameters. *)
Variable BloomFilter : Type.
Variable BloomFilter_ReadFrom : list byte -> option BloomFilter.
Variable BloomFilter_Test : BloomFilter -> ID -> bool.
Variable ShardKeyForTraceID : ID -> Z -> Z.
Variable BloomName : Z -> string.

Record BlockMeta : Type := mkBlockMeta {
  BlockID : string;
  TenantID : string;
  Size : Z;
  MinID : ID;
  MaxID : ID;
  BloomShardCount : Z
}.

(** The columnar file as [FindTraceByID] sees it: the index of a
    column by its path ([pq.GetColumnIndexByPath], -1 when there is
    none) and the row groups with their rows.  The pages are data in
    memory: reading them does not fail. *)
Record parquetFile : Type := mkParquetFile {
  GetColumnIndexByPath : string -> Z;
  RowGroups : list (list Trace)
}.

(** [backendBlock]: the metadata, the reader [r] of the sidecar
    objects ([None]: the read fails) and the columnar file that
    [openForSearch] opens ([None]: opening fails). *)
Record backendBlock : Type := mkBackendBlock {
  meta : BlockMeta;
  r : string -> option (list byte);
  pf : option parquetFile
}.

Definition NumRows (rg : list Trace) : Z := int_wrap (Z.of_nat (length rg)).

Definition Reader_Read (b : backendBlock) (name : string) : M (list byte) :=
  do emit (EvRead name) then
  match r b name with
  | Some bloomBytes => ret bloomBytes
  | None => fail (ErrBackend "read")
  end.

Definition checkBloom (b : backendBlock) (id : ID) : M bool :=
  let shardKey := ShardKeyForTraceID id (BloomShardCount (meta b)) in
  let nameBloom := BloomName shardKey in
  let* bloomBytes :=
    mapError (ErrRetrievingBloom nameBloom) (Reader_Read b nameBloom) in
  match BloomFilter_ReadFrom bloomBytes with
  | None => fail (ErrParsingBloom (ErrBackend "parse"))
  | Some filter => ret (BloomFilter_Test filter id)
  end.

(** Modelled from the spec: [openForSearch] is in [block.go], which is
    not at hand; "OpenColumnar(ctx, blockID, tenantID, opts) -> (File,
    readRecorder)". *)
Definition openForSearch (b : backendBlock) : M parquetFile :=
  do emit EvOpenColumnar then
  match pf b with
  | Some f => ret f
  | None => fail (ErrBackend "open")
  end.

(** The closure [getRowGroupMin] of [FindTraceByID].  The iterator
    over the one row group, without a predicate, yields the value of
    the first row, or nil when the row group has no row. *)
Definition getRowGroupMin (f : parquetFile) (traceID : ID) (rgIdx : Z) : M ID :=
  let* rowGroupMins := getMins in
  match index rowGroupMins rgIdx with
  | None => panic "index out of range"
  | Some min =>
    if 0 <? Z.of_nat (length min) then ret min
    else
      match index (RowGroups f) rgIdx with
      | None => panic "slice bounds out of range"
      | Some rg =>
        do emit (EvIterOpen rgIdx None) then
        defer (EvIterClose rgIdx)
          match rg with
          | [] => fail (ErrReadRowGroup traceID rgIdx)
          | row :: _ =>
            let min := Trace_TraceID row in
            do setMins (<[Z.to_nat rgIdx := min]> rowGroupMins) then
            ret min
          end
      end
  end.

(** The comparator that [FindTraceByID] passes to [binarySearch]. *)
Definition compareRowGroup (f : parquetFile) (traceID : ID)
    (numRowGroups : Z) (rgIdx : Z) : M Z :=
  let* min := getRowGroupMin f traceID rgIdx in
  let check := bytes_Compare traceID min in
  if check <=? 0 then ret check
  else
    let* max := getRowGroupMin f traceID (int_wrap (rgIdx + 1)) in
    let check := bytes_Compare traceID max in
    if (0 <? check) || ((check =? 0) && (rgIdx <? int_wrap (numRowGroups - 1)))
    then ret 1
    else ret 0.

(** Modelled from the spec: the column iterator of package
    [parquetquery] with the predicate
    [NewStringInPredicate([]string{string(traceID)})] "emits only rows
    whose value matches a supplied predicate, returning the matching
    rows' positional numbers within the scanned row group"; [Next]
    yields the first of them, or nil. *)
Fixpoint iterNext (traceID : ID) (rg : list Trace) (rowNumber : Z) : option Z :=
  match rg with
  | [] => None
  | row :: rest =>
    if bool_decide (Trace_TraceID row = traceID) then Some rowNumber
    else iterNext traceID rest (int_wrap (rowNumber + 1))
  end.

(** [for _, rg := range pf.RowGroups()[0:rowGroup] { rowMatch += rg.NumRows() }] *)
Definition sumNumRows (rgs : list (list Trace)) (rowMatch : Z) : Z :=
  fold_left (fun acc rg => int_wrap (acc + NumRows rg)) rgs rowMatch.

(** Modelled from the spec: [parquet.NewReader(pf)], [r.SeekToRow] and
    [r.Read]: "seek to the absolute row, decode a single record". *)
Definition readRow (f : parquetFile) (rowMatch : Z) : M Trace :=
  do emit (EvSeekToRow rowMatch) then
  if rowMatch <? 0 then fail (ErrWrap (ErrBackend "seek") "seek to row")
  else
    do emit EvReadRow then
    match index (concat (RowGroups f)) rowMatch with
    | None => fail (ErrWrap (ErrBackend "EOF") "error reading row from backend")
    | Some tr => ret tr
    end.

(** [rowGroupMins := make([]common.ID, numRowGroups+1)],
    [rowGroupMins[0] = b.meta.MinID] and
    [rowGroupMins[numRowGroups] = b.meta.MaxID]. *)
Definition makeRowGroupMins (m : BlockMeta) (numRowGroups : Z) : list ID :=
  <[Z.to_nat numRowGroups := MaxID m]>
    (<[0%nat := MinID m]>
       (replicate (Z.to_nat (int_wrap (numRowGroups + 1))) [])).

(** The end of [FindTraceByID], from [if rowGroup == -1] on: the scan
    of the row group that the search has found and the read of the
    matching row.  [None] is the nil trace. *)
Definition scanRowGroup (f : parquetFile) (traceID : ID) (rowGroup : Z)
  : M (option tempopb_Trace) :=
  if rowGroup =? -1 then ret None
  else
    match index (RowGroups f) rowGroup with
    | None => panic "slice bounds out of range"
    | Some rg =>
      do emit (EvIterOpen rowGroup (Some traceID)) then
      defer (EvIterClose rowGroup)
        match iterNext traceID rg 0 with
        | None => ret None
        | Some rowNumber =>
          let rowMatch :=
            int_wrap (sumNumRows (take (Z.to_nat rowGroup) (RowGroups f)) 0
                      + rowNumber) in
          let* tr := readRow f rowMatch in
          ret (Some (parquetTraceToTempopbTrace tr))
        end
    end.

(** [FindTraceByID], up to the search and into [scanRowGroup]. *)
Definition FindTraceByID (b : backendBlock) (traceID : ID)
  : M (option tempopb_Trace) :=
  let* found := checkBloom b traceID in
  if negb found then ret None
  else
    let* f := mapError ErrOpeningParquet (openForSearch b) in
    let colIndex := GetColumnIndexByPath f TraceIDColumnName in
    if colIndex =? -1 then fail (ErrColumnIndex TraceIDColumnName)
    else
      let numRowGroups := Z.of_nat (length (RowGroups f)) in
      do setMins (makeRowGroupMins (meta b) numRowGroups) then
      let* rowGroup :=
        mapError (fun err => ErrWrap err "error binary searching row groups")
          (binarySearch numRowGroups
             (compareRowGroup f traceID numRowGroups)) in
      scanRowGroup f traceID rowGroup.

(** ** The invariants of a block *)

(** [T] is stored in the file: some row of some row group has it as
    its trace id. *)
Definition stored (f : parquetFile) (T : ID) : Prop :=
  exists rg tr, In rg (RowGroups f) /\ In tr rg /\ Trace_TraceID tr = T.

Definition ID_le (a b : ID) : Prop := bytes_Compare a b <= 0.
Definition ID_lt (a b : ID) : Prop := bytes_Compare a b < 0.

(** The bound [mins[k]] of the design document: "mins[0] = meta.minID,
    mins[rowGroupCount] = meta.maxID, and interior values are [...] the
    first trace-id value of row group r". *)
Definition rowGroupMin (b : backendBlock) (f : parquetFile) (k : nat)
  : option ID :=
  if bool_decide (k = 0%nat) then Some (MinID (meta b))
  else if bool_decide (k = length (RowGroups f)) then Some (MaxID (meta b))
  else
    match RowGroups f !! k with
    | Some (row :: _) => Some (Trace_TraceID row)
    | _ => None
    end.

(** (I1) Trace ids are sorted ascending across row groups. *)
Definition I1 (f : parquetFile) : Prop :=
  forall k k' rg rg' tr tr',
    (k < k')%nat ->
    RowGroups f !! k = Some rg -> RowGroups f !! k' = Some rg' ->
    In tr rg -> In tr' rg' ->
    ID_le (Trace_TraceID tr) (Trace_TraceID tr').

(** (I2) with the bounds that the lookup loads: the ids of row group
    [k] lie in [[mins k, mins (k+1))], where [mins] is [rowGroupMin];
    for the final row group the upper bound [maxID] is inclusive.  The
    bound of an interior row group is the id of its first row, so this
    reading also asks the first row of an interior row group to carry
    the least id of the row group. *)
Definition I2 (b : backendBlock) (f : parquetFile) : Prop :=
  forall k rg, RowGroups f !! k = Some rg ->
    exists lo hi,
      rowGroupMin b f k = Some lo /\ rowGroupMin b f (S k) = Some hi /\
      forall tr, In tr rg ->
        ID_le lo (Trace_TraceID tr) /\
        if bool_decide (S k = length (RowGroups f))
        then ID_le (Trace_TraceID tr) hi
        else ID_lt (Trace_TraceID tr) hi.

(** [lo] is the least id of the rows [rg]. *)
Definition leastID (rg : list Trace) (lo : ID) : Prop :=
  (exists tr, In tr rg /\ Trace_TraceID tr = lo) /\
  forall tr, In tr rg -> ID_le lo (Trace_TraceID tr).

(** The bound [min(r)] of the design document read without an order of
    the rows ("within a row group their order is unspecified"):
    [minID] for row group 0, [maxID] above the final row group, and the
    least id of the row group in between. *)
Definition leastBound (b : backendBlock) (f : parquetFile) (k : nat)
    (lo : ID) : Prop :=
  if bool_decide (k = 0%nat) then lo = MinID (meta b)
  else if bool_decide (k = length (RowGroups f)) then lo = MaxID (meta b)
  else exists rg, RowGroups f !! k = Some rg /\ leastID rg lo.

(** (I2) as the design document words it, over the bounds [leastBound]:
    it says nothing of the place of the least id in its row group. *)
Definition I2_least (b : backendBlock) (f : parquetFile) : Prop :=
  forall k rg, RowGroups f !! k = Some rg ->
    exists lo hi,
      leastBound b f k lo /\ leastBound b f (S k) hi /\
      forall tr, In tr rg ->
        ID_le lo (Trace_TraceID tr) /\
        if bool_decide (S k = length (RowGroups f))
        then ID_le (Trace_TraceID tr) hi
        else ID_lt (Trace_TraceID tr) hi.

(** The first row of every row group but the first carries the least
    id of its row group. *)
Definition firstRowLeast (f : parquetFile) : Prop :=
  forall k row rest,
    (0 < k)%nat -> RowGroups f !! k = Some (row :: rest) ->
    forall tr, In tr rest -> ID_le (Trace_TraceID row) (Trace_TraceID tr).

(** A sealed block that can be read: the columnar file opens and has
    the column "TraceID", no row group is empty, the lower bound of
    the metadata is present, and the row count is below the largest
    [int64]. *)
Record readable (b : backendBlock) (f : parquetFile) : Prop := mkReadable {
  readable_opens : pf b = Some f;
  readable_column : GetColumnIndexByPath f TraceIDColumnName <> -1;
  readable_nonempty : forall rg, In rg (RowGroups f) -> rg <> [];
  readable_minID : MinID (meta b) <> [];
  readable_rows : Z.of_nat (length (concat (RowGroups f))) < 2 ^ 63 - 1
}.

(** The bloom sidecar of the shard of every id can be read and parsed,
    and it has no false negative. *)
Definition bloomSound (b : backendBlock) (f : parquetFile) : Prop :=
  forall T : ID,
    exists bloomBytes filter,
      r b (BloomName (ShardKeyForTraceID T (BloomShardCount (meta b))))
        = Some bloomBytes /\
      BloomFilter_ReadFrom bloomBytes = Some filter /\
      (stored f T -> BloomFilter_Test filter T = true).

(** The bounds are strictly ascending:
    [minID < mins 1 < ... < mins (n-1) < maxID]. *)
Definition minsAscending (b : backendBlock) (f : parquetFile) : Prop :=
  forall k, (k < length (RowGroups f))%nat ->
    exists lo hi,
      rowGroupMin b f k = Some lo /\ rowGroupMin b f (S k) = Some hi /\
      ID_lt lo hi.

(** [T] is in the bracket of row group [k]. *)
Definition inBracket (b : backendBlock) (f : parquetFile) (T : ID) (k : nat)
  : Prop :=
  exists lo hi,
    rowGroupMin b f k = Some lo /\ rowGroupMin b f (S k) = Some hi /\
    ID_le lo T /\
    if bool_decide (S k = length (RowGroups f))
    then ID_le T hi
    else ID_lt T hi.

(** The bounds are ascending, the last step ([mins (n-1)] to [maxID])
    possibly by equality. *)
Definition boundsOrdered (b : backendBlock) (f : parquetFile) : Prop :=
  forall k, (k < length (RowGroups f))%nat ->
    exists lo hi,
      rowGroupMin b f k = Some lo /\ rowGroupMin b f (S k) = Some hi /\
      if bool_decide (S k = length (RowGroups f))
      then ID_le lo hi
      else ID_lt lo hi.

(** The bound of index [k], [[]] where there is none. *)
Definition boundAt (b : backendBlock) (f : parquetFile) (k : nat) : ID :=
  default [] (rowGroupMin b f k).

(** The value of the comparator at row group [k], from the bounds. *)
Definition comparatorAt (b : backendBlock) (f : parquetFile) (T : ID)
    (k : nat) : Z :=
  let check := bytes_Compare T (boundAt b f k) in
  if check <=? 0 then check
  else
    let check := bytes_Compare T (boundAt b f (S k)) in
    if (0 <? check)
       || ((check =? 0)
           && (Z.of_nat k <? Z.of_nat (length (RowGroups f)) - 1))
    then 1
    else 0.

(** A cache [rowGroupMins] of the call: at each index either nothing
    yet (an interior index only) or the bound of the index. *)
Definition cacheOK (b : backendBlock) (f : parquetFile) (mins : list ID)
  : Prop :=
  length mins = S (length (RowGroups f)) /\
  forall k, (k <= length (RowGroups f))%nat ->
    exists c, mins !! k = Some c /\
      (c <> [] -> rowGroupMin b f k = Some c) /\
      (c = [] -> (0 < k < length (RowGroups f))%nat).

End Block.

End vparquet.

(* ===================================================================== *)
(** * Instances used in the examples                                      *)
(* ===================================================================== *)

Module examples.

Import traceql.

(** A small operator table: an arithmetic, a comparison and a logical
    operator. *)
Inductive Operator : Set :=
| OpAdd
| OpEqual
| OpNot.

Definition isBoolean (op : Operator) : bool :=
  match op with
  | OpAdd => false
  | OpEqual | OpNot => true
  end.

Definition binaryTypesValid (op : Operator) (l r : StaticType) : bool :=
  match op with
  | OpAdd => (isNumeric l || bool_decide (l = TypeAttribute))
             && (isNumeric r || bool_decide (r = TypeAttribute))
  | OpEqual => true
  | OpNot => false
  end.

Definition unaryTypesValid (op : Operator) (t : StaticType) : bool :=
  match op with
  | OpNot => bool_decide (t = TypeBoolean)
  | _ => false
  end.

(** Spans are numbered; an attribute is a true Boolean on the spans
    with an even number and missing on the others. *)
Definition Span : Set := nat.

Fixpoint execute (e : FieldExpression Operator) (sp : Span)
  : result (error Operator) Static :=
  match e with
  | StaticExpr _ s => Ok s
  | AttributeExpr _ _ =>
      if Nat.even sp then Ok (NewStaticBool true) else Ok NewStaticNil
  | UnaryOperation OpNot e' =>
      match execute e' sp with
      | Ok s =>
          if bool_decide (Static_Type s = TypeBoolean)
          then Ok (NewStaticBool (negb (Static_B s)))
          else Ok NewStaticNil
      | Err err => Err err
      end
  | _ => Err (ErrorNew _ "unsupported")
  end.

Definition spanset (spans : list Span) : Spanset Span unit :=
  mkSpanset [] tt spans.

Definition filterFalse : SpansetFilter Operator :=
  newSpansetFilter (StaticExpr _ (NewStaticBool false)).

Definition filterTrue : SpansetFilter Operator :=
  newSpansetFilter (StaticExpr _ (NewStaticBool true)).

Definition filterAttribute : SpansetFilter Operator :=
  newSpansetFilter (AttributeExpr _ (NewAttribute "x")).

Definition countAll : Aggregate Operator := newAggregate aggregateCount None.

(** An evaluator that does what the elements do, except that
    evaluating an aggregate fails. *)
Definition failingAggregate (e : pipelineElement Operator)
    (input : list (Spanset Span unit))
  : result (error Operator) (list (Spanset Span unit)) :=
  match e with
  | AggregateElem _ => Err (ErrorNew _ "aggregate evaluated")
  | _ => pipelineElement_evaluate execute e input
  end.

Definition someSpansets : list (Spanset Span unit) :=
  [spanset [1; 2; 3; 4]; spanset []; spanset [1; 3]]%nat.

(** [1 + "a"]: the operands do not match, and no span is referenced. *)
Definition mismatched : FieldExpression Operator :=
  BinaryOperation OpAdd (StaticExpr _ (NewStaticInt 1))
                        (StaticExpr _ (NewStaticString "a")).

(** [.x + "a"]: invalid too, but it references the span. *)
Definition mismatchedOnSpan : FieldExpression Operator :=
  BinaryOperation OpAdd
    (BinaryOperation OpAdd (StaticExpr _ (NewStaticInt 1))
                           (StaticExpr _ (NewStaticString "a")))
    (AttributeExpr _ (NewAttribute "x")).

(** ["b" + 2]: the operands do not match either. *)
Definition mismatchedRight : FieldExpression Operator :=
  BinaryOperation OpAdd (StaticExpr _ (NewStaticString "b"))
                        (StaticExpr _ (NewStaticInt 2)).

(** [(1 + "a") + ("b" + 2)]: both operands are invalid. *)
Definition mismatchedTwice : FieldExpression Operator :=
  BinaryOperation OpAdd mismatched mismatchedRight.

End examples.

Module example_blocks.

Import vparquet.

(** A row is a trace id and a number that stands for the spans; the
    wire form of a trace is the number. *)
Definition Trace : Set := (list byte * nat)%type.

Definition Trace_TraceID (tr : Trace) : ID := fst tr.

Definition parquetTraceToTempopbTrace (tr : Trace) : nat := snd tr.

(** A filter with false positives: it keeps the high half of the first
    byte of the ids that were added.  A sidecar without bytes does not
    parse. *)
Definition hash (id : ID) : N :=
  match id with
  | [] => 0%N
  | x :: _ => (Byte.to_N x / 16)%N
  end.

Definition BloomFilter_ReadFrom (bloomBytes : list byte) : option (list N) :=
  match bloomBytes with
  | [] => None
  | _ => Some (map Byte.to_N bloomBytes)
  end.

Definition BloomFilter_Test (filter : list N) (id : ID) : bool :=
  existsb (N.eqb (hash id)) filter.

Definition ShardKeyForTraceID (id : ID) (shardCount : Z) : Z :=
  Z.of_N (hash id) mod shardCount.

Definition BloomName (shard : Z) : string :=
  if shard =? 0 then "bloom-0" else "bloom-1".

(** The block of the scenario "boundary id at a row-group seam": three
    row groups whose first ids are 0x00, 0x10 and 0x20, and
    [maxID = 0x2F]; two bloom shards. *)
Definition seamFile : parquetFile Trace :=
  mkParquetFile
    (fun path => if String.eqb path "TraceID" then 0 else -1)
    [ [([x00], 0%nat); ([x05], 1%nat)];
      [([x10], 2%nat); ([x1a], 3%nat)];
      [([x20], 4%nat); ([x2f], 5%nat)] ].

Definition seamBlock : backendBlock Trace :=
  mkBackendBlock
    (mkBlockMeta "block" "tenant" 6 [x00] [x2f] 2)
    (fun name =>
       if String.eqb name "bloom-0" then Some [x00; x02]
       else if String.eqb name "bloom-1" then Some [x01]
       else None)
    (Some seamFile).

Definition find (T : ID) : M (option nat) :=
  FindTraceByID Trace_TraceID parquetTraceToTempopbTrace
    BloomFilter_ReadFrom BloomFilter_Test ShardKeyForTraceID BloomName
    seamBlock T.

(** Blocks with the same bloom shards and other bounds, sidecars or
    files. *)
Definition sidecars (name : string) : option (list byte) :=
  if String.eqb name "bloom-0" then Some [x00; x02]
  else if String.eqb name "bloom-1" then Some [x01]
  else None.

Definition blockOf (minID maxID : ID) (sidecar : string -> option (list byte))
    (file : option (parquetFile Trace)) : backendBlock Trace :=
  mkBackendBlock (mkBlockMeta "block" "tenant" 6 minID maxID 2) sidecar file.

Definition fileOf (rowGroups : list (list Trace)) : parquetFile Trace :=
  mkParquetFile
    (fun path => if String.eqb path "TraceID" then 0 else -1) rowGroups.

Definition findIn (b : backendBlock Trace) (T : ID) : M (option nat) :=
  FindTraceByID Trace_TraceID parquetTraceToTempopbTrace
    BloomFilter_ReadFrom BloomFilter_Test ShardKeyForTraceID BloomName b T.

(** A file whose row group in the middle has no row. *)
Definition hollowFile : parquetFile Trace :=
  fileOf [ [([x00], 0%nat)]; []; [([x20], 4%nat)] ].

(** A block whose second row group does not begin with its least id:
    the ids are ascending across the row groups, 0x10 is the least id
    of row group 1 and 0x15 the id of its first row. *)
Definition unsortedFile : parquetFile Trace :=
  fileOf [ [([x00], 0%nat); ([x05], 1%nat)];
           [([x15], 2%nat); ([x10], 3%nat)] ].

Definition unsortedBlock : backendBlock Trace :=
  blockOf [x00] [x15] sidecars (Some unsortedFile).

(** A block whose least id, and so its [minID], is the id without
    bytes; the row with it is not the first one. *)
Definition noMinFile : parquetFile Trace :=
  fileOf [ [([x05], 0%nat); ([], 1%nat); ([x03], 2%nat)] ].

Definition noMinBlock : backendBlock Trace :=
  blockOf [] [x05] sidecars (Some noMinFile).

(** A block with strictly ascending bounds [[] < 0x10 < 0x20] whose
    [minID] has no bytes. *)
Definition emptyMinFile : parquetFile Trace :=
  fileOf [ [([x05], 0%nat)]; [([x10], 1%nat)] ].

Definition emptyMinBlock : backendBlock Trace :=
  blockOf [] [x20] sidecars (Some emptyMinFile).

End example_blocks.

(* ===================================================================== *)
(** * Properties of package traceql                                       *)
(* ===================================================================== *)

Module traceql_spec.

Import traceql.

(** ** Static.Equals *)

Lemma Static_struct_eq_spec (s other : Static) :
  Static_struct_eq s other = true <-> componentwiseEqual s other.
Proof.
  unfold Static_struct_eq, componentwiseEqual.
  rewrite !andb_true_iff, bool_decide_eq_true, !Z.eqb_eq,
    String.eqb_eq, Bool.eqb_true_iff.
  tauto.
Qed.

(** C7.  [Static.Equals] holds of [Int(n)] and [Status(n)] in both
    orders, for every integer [n]; of an [Int] and a [Status] it
    compares the two integers; of every other pair of Statics it holds
    exactly when the type tags and all payload slots are equal
    componentwise (the float slot by Go's [==]). *)
Theorem C7_Static_Equals :
  (forall n : Z,
      Static_Equals (NewStaticInt n) (NewStaticStatus (Status_of_int n)) = true /\
      Static_Equals (NewStaticStatus (Status_of_int n)) (NewStaticInt n) = true) /\
  (forall s other : Static,
      intStatusPair s other -> Static_Equals s other = true) /\
  (forall s other : Static,
      ~ intStatusPair s other ->
      (Static_Equals s other = true <-> componentwiseEqual s other)).
Proof.
  split; [|split].
  - intros n. unfold Static_Equals, Status_of_int. cbn. rewrite Z.eqb_refl. auto.
  - intros s other [(Hs & Ho & Heq)|(Hs & Ho & Heq)];
      unfold Static_Equals; rewrite Hs, Ho; cbn; apply Z.eqb_eq; exact Heq.
  - intros s other Hpair. unfold Static_Equals.
    destruct (bool_decide (Static_Type s = TypeStatus)) eqn:Hss;
      destruct (bool_decide (Static_Type other = TypeInt)) eqn:Hoi;
      destruct (bool_decide (Static_Type other = TypeStatus)) eqn:Hos;
      destruct (bool_decide (Static_Type s = TypeInt)) eqn:Hsi;
      cbn [andb orb negb];
      try apply Static_struct_eq_spec;
      repeat match goal with
        | H : bool_decide _ = true |- _ => apply bool_decide_eq_true in H
        | H : bool_decide _ = false |- _ => apply bool_decide_eq_false in H
        end;
      try congruence.
    + rewrite Z.eqb_eq. split.
      * intros Heq. exfalso. apply Hpair. right. auto.
      * intros (Ht & _). congruence.
    + rewrite Z.eqb_eq. split.
      * intros Heq. exfalso. apply Hpair. left. auto.
      * intros (Ht & _). congruence.
Qed.

Lemma C7_Static_Equals_witness :
  Static_Equals (mkStatic TypeInt 1 0%float "" false 0 5)
                (mkStatic TypeStatus 7 0%float "x" true 0 1) = true /\
  (Static_Equals (NewStaticFloat nan) (NewStaticFloat nan) = true <->
   componentwiseEqual (NewStaticFloat nan) (NewStaticFloat nan)).
Proof.
  split.
  - apply (proj1 (proj2 C7_Static_Equals)). left. cbn. auto.
  - apply (proj2 (proj2 C7_Static_Equals)).
    intros [(H & _)|(H & _)]; discriminate H.
Defined.

Section Evaluator.

Context {Operator Span SpansetMetadata : Type}.
Context (isBoolean : Operator -> bool).
Context (binaryTypesValid : Operator -> StaticType -> StaticType -> bool).
Context (unaryTypesValid : Operator -> StaticType -> bool).
Context (execute : FieldExpression Operator -> Span
                   -> result (error Operator) Static).

Local Abbreviation spanset := (Spanset Span SpansetMetadata).
Local Abbreviation evaluator :=
  (pipelineElement Operator -> list spanset
   -> result (error Operator) (list spanset)).

(** ** SpansetFilter.evaluate *)


Lemma firstExecuteError_app (f : SpansetFilter Operator) (l1 l2 : list Span) :
  firstExecuteError execute f (l1 ++ l2) =
  match firstExecuteError execute f l1 with
  | Some err => Some err
  | None => firstExecuteError execute f l2
  end.
Proof.
  induction l1 as [|sp l1 IH]; cbn; [reflexivity|].
  destruct (execute _ sp); [exact IH|reflexivity].
Qed.

Lemma SpansetFilter_matchSpans_spec (f : SpansetFilter Operator)
    (spans matchingSpans : list Span) :
  SpansetFilter_matchSpans execute f spans matchingSpans =
  match firstExecuteError execute f spans with
  | Some err => Err err
  | None => Ok (matchingSpans ++ List.filter (keepsSpan execute f) spans)
  end.
Proof.
  revert matchingSpans.
  induction spans as [|sp spans IH]; intros acc; cbn.
  - now rewrite app_nil_r.
  - unfold keepsSpan at 1.
    destruct (execute (SpansetFilter_Expression f) sp) as [res|err];
      [|reflexivity].
    destruct (bool_decide (Static_Type res = TypeBoolean)); cbn.
    + destruct (Static_B res); cbn.
      * rewrite IH. destruct (firstExecuteError execute f spans);
          [reflexivity|]. now rewrite <- app_assoc.
      * apply IH.
    + apply IH.
Qed.

Lemma SpansetFilter_evaluate_loop_spec (f : SpansetFilter Operator)
    (input output : list spanset) :
  SpansetFilter_evaluate_loop execute f input output =
  match firstExecuteError execute f (concat (map Spans input)) with
  | Some err => Err err
  | None => Ok (output ++ omap (filterSpanset_spec execute f) input)
  end.
Proof.
  revert output.
  induction input as [|ss input IH]; intros output; cbn.
  - now rewrite app_nil_r.
  - rewrite firstExecuteError_app. unfold filterSpanset_spec at 1.
    destruct (Spans ss) as [|sp spans] eqn:Hspans.
    + cbn. apply IH.
    + cbn [length]. replace (Z.of_nat (S (length spans)) =? 0) with false
        by (symmetry; apply Z.eqb_neq; lia).
      rewrite SpansetFilter_matchSpans_spec.
      destruct (firstExecuteError execute f (sp :: spans)); [reflexivity|].
      cbn [app].
      destruct (List.filter (keepsSpan execute f) (sp :: spans))
        as [|k kept] eqn:Hkept.
      * cbn. apply IH.
      * cbn [length]. replace (Z.of_nat (S (length kept)) =? 0) with false
          by (symmetry; apply Z.eqb_neq; lia).
        rewrite IH.
        destruct (firstExecuteError execute f (concat (map Spans input)));
          [reflexivity|].
        now rewrite <- app_assoc.
Qed.




(** ** Pipeline.evaluate *)

Lemma Pipeline_evaluate_with_cons (evaluate : evaluator)
    (element : pipelineElement Operator) (rest : Pipeline Operator)
    (input : list spanset) :
  Pipeline_evaluate_with evaluate (element :: rest) input =
  match evaluate element input with
  | Err err => Err err
  | Ok [] => Ok []
  | Ok res => Pipeline_evaluate_with evaluate rest res
  end.
Proof.
  cbn. destruct (evaluate element input) as [[|ss res]|err]; reflexivity.
Qed.

Lemma Pipeline_evaluate_with_short (evaluate evaluate' : evaluator)
    (pre rest : Pipeline Operator) (input : list spanset) :
  pre <> [] ->
  (forall element ss, In element pre ->
     evaluate' element ss = evaluate element ss) ->
  Pipeline_evaluate_with evaluate pre input = Ok [] ->
  Pipeline_evaluate_with evaluate' (pre ++ rest) input = Ok [].
Proof.
  revert input. induction pre as [|element pre IH]; intros input Hne Hagree.
  - now destruct Hne.
  - rewrite <- app_comm_cons, !Pipeline_evaluate_with_cons.
    rewrite (Hagree element input) by now left.
    destruct (evaluate element input) as [[|ss res]|err];
      [reflexivity| |discriminate].
    destruct pre as [|element' pre'].
    + cbn. discriminate.
    + apply IH; [discriminate|].
      intros e l He. apply Hagree. now right.
Qed.

(** C5.  [Pipeline.evaluate] applies its elements from left to right,
    each to the output of the one before; a pipeline without elements
    returns its input; once the elements evaluated so far have given an
    empty list the result is the empty list, whatever the remaining
    elements are and whatever their [evaluate] would do (fail
    included): they are not evaluated. *)
Theorem C5_Pipeline_evaluate (evaluate : evaluator) :
  (forall input, Pipeline_evaluate_with evaluate [] input = Ok input) /\
  (forall element rest input,
      Pipeline_evaluate_with evaluate (element :: rest) input =
      match evaluate element input with
      | Err err => Err err
      | Ok [] => Ok []
      | Ok res => Pipeline_evaluate_with evaluate rest res
      end) /\
  (forall (evaluate' : evaluator) pre rest input,
      pre <> [] ->
      (forall element ss, In element pre ->
         evaluate' element ss = evaluate element ss) ->
      Pipeline_evaluate_with evaluate pre input = Ok [] ->
      Pipeline_evaluate_with evaluate' (pre ++ rest) input = Ok []).
Proof.
  split; [reflexivity|]. split.
  - apply Pipeline_evaluate_with_cons.
  - intros evaluate' pre rest input. apply Pipeline_evaluate_with_short.
Qed.

(** ** The elements without an implementation *)

(** C6.  The [evaluate] methods of [Aggregate], [GroupOperation],
    [ScalarFilter], [CoalesceOperation] and [SpansetOperation] return
    their input and a nil error, also when called through the
    interface [pipelineElement]. *)
Theorem C6_evaluate_identity (input : list spanset) :
  (forall a : Aggregate Operator, Aggregate_evaluate a input = Ok input) /\
  (forall o : GroupOperation Operator,
      GroupOperation_evaluate o input = Ok input) /\
  (forall (op : Operator) lhs rhs,
      ScalarFilter_evaluate op lhs rhs input = Ok input) /\
  CoalesceOperation_evaluate Operator input = Ok input /\
  (forall (op : Operator) lhs rhs,
      SpansetOperation_evaluate op lhs rhs input = Ok input) /\
  (forall a, pipelineElement_evaluate execute (AggregateElem a) input
             = Ok input) /\
  (forall o, pipelineElement_evaluate execute (GroupOperationElem o) input
             = Ok input) /\
  (forall op lhs rhs,
      pipelineElement_evaluate execute (ScalarFilterElem op lhs rhs) input
      = Ok input) /\
  pipelineElement_evaluate execute (CoalesceOperationElem _) input
    = Ok input /\
  (forall op lhs rhs,
      pipelineElement_evaluate execute (SpansetOperationElem op lhs rhs) input
      = Ok input).
Proof. repeat split. Qed.

(** ** Errors of the evaluator *)

Lemma firstExecuteError_In (f : SpansetFilter Operator) (spans : list Span)
    (err : error Operator) :
  firstExecuteError execute f spans = Some err ->
  exists sp, In sp spans /\ execute (SpansetFilter_Expression f) sp = Err err.
Proof.
  induction spans as [|sp spans IH]; cbn; [discriminate|].
  destruct (execute (SpansetFilter_Expression f) sp) as [res|e] eqn:Hexec.
  - intros H. destruct (IH H) as (sp' & Hin & Hsp'). eauto.
  - intros H. inversion H; subst. eauto.
Qed.

Lemma SpansetFilter_evaluate_Err (f : SpansetFilter Operator)
    (input : list spanset) (err : error Operator) :
  SpansetFilter_evaluate execute f input = Err err ->
  exists ss sp, In ss input /\ In sp (Spans ss) /\
                execute (SpansetFilter_Expression f) sp = Err err.
Proof.
  unfold SpansetFilter_evaluate. rewrite SpansetFilter_evaluate_loop_spec.
  destruct (firstExecuteError execute f (concat (map Spans input)))
    as [e|] eqn:Hfirst; [|discriminate].
  intros H. inversion H; subst e.
  destruct (firstExecuteError_In _ _ _ Hfirst) as (sp & Hin & Hsp).
  apply in_concat in Hin. destruct Hin as (spans & Hspans & Hin).
  apply in_map_iff in Hspans. destruct Hspans as (ss & <- & Hss).
  eauto.
Qed.

Lemma Pipeline_evaluate_with_Err (evaluate : evaluator)
    (p : Pipeline Operator) (input : list spanset) (err : error Operator) :
  Pipeline_evaluate_with evaluate p input = Err err ->
  exists element ss, In element p /\ evaluate element ss = Err err.
Proof.
  revert input. induction p as [|element p IH]; intros input.
  - discriminate.
  - rewrite Pipeline_evaluate_with_cons.
    destruct (evaluate element input) as [[|ss res]|e] eqn:Hev.
    + discriminate.
    + intros H. destruct (IH _ H) as (el & l & Hin & Hel).
      exists el, l. split; [now right|assumption].
    + intros H. inversion H; subst e. exists element, input.
      split; [now left|assumption].
Qed.

Lemma pipelineElement_evaluate_Err :
  forall (e : pipelineElement Operator) (input : list spanset)
         (err : error Operator),
    pipelineElement_evaluate execute e input = Err err ->
    exists fe sp, execute fe sp = Err err.
Proof.
  fix IH 1. intros e input err. destruct e as [els|o| |a|op l r|f|op l r];
    cbn [pipelineElement_evaluate]; try discriminate.
  - revert input. induction els as [|element els IHels]; intros input.
    + discriminate.
    + rewrite Pipeline_evaluate_with_cons.
      destruct (pipelineElement_evaluate execute element input)
        as [[|ss res]|e'] eqn:Hev.
      * discriminate.
      * apply IHels.
      * intros H. inversion H; subst e'. exact (IH element input err Hev).
  - intros H. destruct (SpansetFilter_evaluate_Err _ _ _ H) as (ss & sp & _ & _ & Hsp).
    eauto.
Qed.

(** C8 (as the code has it).  No [evaluate] method takes a
    cancellation token, so the state of a token of the caller does not
    change the result; the evaluator fails only with an error that a
    call of [execute] on a span of the input returned (the span filter)
    or that the [evaluate] of an element returned (the pipeline): no
    error of its own, cancellation included, is produced. *)
Theorem C8_evaluate_ignores_cancellation :
  (forall token token' p (input : list spanset),
      Pipeline_evaluate_under execute token p input
      = Pipeline_evaluate_under execute token' p input) /\
  (forall f (input : list spanset) err,
      SpansetFilter_evaluate execute f input = Err err ->
      exists ss sp, In ss input /\ In sp (Spans ss) /\
                    execute (SpansetFilter_Expression f) sp = Err err) /\
  (forall (evaluate : evaluator) p input err,
      Pipeline_evaluate_with evaluate p input = Err err ->
      exists element ss, In element p /\ evaluate element ss = Err err) /\
  (forall token p (input : list spanset) err,
      Pipeline_evaluate_under execute token p input = Err err ->
      exists fe sp, execute fe sp = Err err).
Proof.
  split; [reflexivity|]. split; [apply SpansetFilter_evaluate_Err|].
  split; [apply Pipeline_evaluate_with_Err|].
  intros token p input err H.
  apply (pipelineElement_evaluate_Err (PipelineElem p) input err H).
Qed.

(** ** Validation *)

(** C9 (as the code has it).  [GroupOperation.validate] first requires
    [referencesSpan()] of the field expression and only then validates
    the field expression: when the expression does not reference the
    span the error is "grouping field expressions must reference the
    span", whether the expression is valid or not; when it does, the
    result is the result of validating the field expression. *)
Theorem C9_GroupOperation_validate (o : GroupOperation Operator) :
  (FieldExpression_referencesSpan (GroupOperation_Expression o) = false ->
   GroupOperation_validate isBoolean binaryTypesValid unaryTypesValid o
   = Some (Errorf "grouping field expressions must reference the span: %s"
             (PipelineElement (GroupOperationElem o)))) /\
  (FieldExpression_referencesSpan (GroupOperation_Expression o) = true ->
   GroupOperation_validate isBoolean binaryTypesValid unaryTypesValid o
   = FieldExpression_validate isBoolean binaryTypesValid unaryTypesValid
       (GroupOperation_Expression o)).
Proof.
  unfold GroupOperation_validate.
  split; intros ->; reflexivity.
Qed.

(** C10.  An [Aggregate] without a field expression validates,
    whatever its operator, and its implied type is [Int], also for
    [sum], [avg], [min] and [max]. *)
Theorem C10_Aggregate_without_expression (agg : AggregateOp) :
  Aggregate_validate isBoolean binaryTypesValid unaryTypesValid
    (newAggregate agg None) = None /\
  Aggregate_impliedType isBoolean (newAggregate agg None) = TypeInt.
Proof.
  split; [reflexivity|].
  unfold Aggregate_impliedType. cbn.
  now destruct (bool_decide (agg = aggregateCount)).
Qed.

End Evaluator.

(** ** The properties at the instances of [examples] *)

Import examples.


Lemma C5_Pipeline_evaluate_witness :
  Pipeline_evaluate_with failingAggregate
    ([SpansetFilterElem filterFalse] ++ [AggregateElem countAll])
    someSpansets = Ok [].
Proof.
  apply (proj2 (proj2 (C5_Pipeline_evaluate
                         (pipelineElement_evaluate execute)))).
  - discriminate.
  - intros element ss [<-|[]]. reflexivity.
  - reflexivity.
Defined.

(** C8, as stated, fails: with the token of the caller cancelled, the
    pipeline of one filter over two spans returns its result and a nil
    error. *)
Lemma C8_counterexample :
  Pipeline_evaluate_under execute TokenCancelled
    [SpansetFilterElem filterTrue] [spanset [1; 2]%nat]
  = Ok [spanset [1; 2]%nat].
Proof. reflexivity. Qed.

Lemma C8_evaluate_ignores_cancellation_witness :
  exists fe sp, execute fe sp = Err (ErrorNew _ "unsupported").
Proof.
  apply (proj2 (proj2 (proj2 (C8_evaluate_ignores_cancellation execute)))
           TokenCancelled
           [SpansetFilterElem (newSpansetFilter mismatched)]
           [spanset [1]%nat]).
  reflexivity.
Defined.

(** C9, as stated, fails: the field expression [1 + "a"] is invalid
    ("binary operations must operate on the same type"), and
    validating the group operation over it returns the grouping error,
    not the error of the field expression. *)
Lemma C9_counterexample :
  FieldExpression_validate isBoolean binaryTypesValid unaryTypesValid
    mismatched
  = Some (Errorf "binary operations must operate on the same type: %s"
            (FieldElement mismatched)) /\
  GroupOperation_validate isBoolean binaryTypesValid unaryTypesValid
    (newGroupOperation mismatched)
  = Some (Errorf "grouping field expressions must reference the span: %s"
            (PipelineElement (GroupOperationElem
                                (newGroupOperation mismatched)))) /\
  GroupOperation_validate isBoolean binaryTypesValid unaryTypesValid
    (newGroupOperation mismatched)
  <> FieldExpression_validate isBoolean binaryTypesValid unaryTypesValid
       mismatched.
Proof. repeat split. discriminate. Qed.

Lemma C9_GroupOperation_validate_witness :
  GroupOperation_validate isBoolean binaryTypesValid unaryTypesValid
    (newGroupOperation mismatched)
  = Some (Errorf "grouping field expressions must reference the span: %s"
            (PipelineElement (GroupOperationElem
                                (newGroupOperation mismatched)))) /\
  GroupOperation_validate isBoolean binaryTypesValid unaryTypesValid
    (newGroupOperation mismatchedOnSpan)
  = FieldExpression_validate isBoolean binaryTypesValid unaryTypesValid
      mismatchedOnSpan.
Proof.
  split.
  - apply (proj1 (C9_GroupOperation_validate isBoolean binaryTypesValid
                    unaryTypesValid (newGroupOperation mismatched))).
    reflexivity.
  - apply (proj2 (C9_GroupOperation_validate isBoolean binaryTypesValid
                    unaryTypesValid (newGroupOperation mismatchedOnSpan))).
    reflexivity.
Defined.

End traceql_spec.

(* ===================================================================== *)
(** * Properties of package vparquet                                      *)
(* ===================================================================== *)

Module vparquet_spec.

Import vparquet.

(** ** The order of identifiers *)

Lemma byte_compare_eq (x y : byte) : byte_compare x y = Eq <-> x = y.
Proof.
  unfold byte_compare. rewrite N.compare_eq_iff. split; [|now intros ->].
  intros H. pose proof (Byte.of_to_N x) as Hx. rewrite H, Byte.of_to_N in Hx.
  now inversion Hx.
Qed.

Lemma byte_compare_antisym (x y : byte) :
  byte_compare y x = CompOpp (byte_compare x y).
Proof. unfold byte_compare. apply N.compare_antisym. Qed.

Lemma byte_compare_trans (x y z : byte) (c : comparison) :
  byte_compare x y = c -> byte_compare y z = c -> byte_compare x z = c.
Proof.
  unfold byte_compare. destruct c.
  - rewrite !N.compare_eq_iff. congruence.
  - rewrite !N.compare_lt_iff. lia.
  - rewrite !N.compare_gt_iff. lia.
Qed.

Lemma lex_eq (a b : ID) : lex a b = Eq <-> a = b.
Proof. apply list_compare_refl, byte_compare_eq. Qed.

Lemma lex_antisym (a b : ID) : lex b a = CompOpp (lex a b).
Proof.
  apply list_compare_antisym; [apply byte_compare_eq|].
  intros x y. apply byte_compare_antisym.
Qed.

Lemma lex_trans (a b c : ID) (r : comparison) :
  lex a b = r -> lex b c = r -> lex a c = r.
Proof.
  apply list_compare_trans.
  - apply byte_compare_eq.
  - intros x y z c0. apply byte_compare_trans.
  - intros x y. apply byte_compare_antisym.
Qed.

Lemma bytes_Compare_range (a b : ID) :
  bytes_Compare a b = -1 \/ bytes_Compare a b = 0 \/ bytes_Compare a b = 1.
Proof. unfold bytes_Compare. destruct (lex a b); auto. Qed.

Lemma bytes_Compare_eq (a b : ID) : bytes_Compare a b = 0 <-> a = b.
Proof.
  rewrite <- lex_eq. unfold bytes_Compare.
  destruct (lex a b); split; intros H; try reflexivity; discriminate.
Qed.

Lemma bytes_Compare_antisym (a b : ID) :
  bytes_Compare b a = - bytes_Compare a b.
Proof.
  unfold bytes_Compare. rewrite (lex_antisym a b).
  now destruct (lex a b).
Qed.

Lemma bytes_Compare_lt (a b : ID) : bytes_Compare a b < 0 <-> lex a b = Lt.
Proof.
  unfold bytes_Compare.
  destruct (lex a b); split; intros H; try reflexivity;
    try discriminate; lia.
Qed.

Lemma ID_lt_trans (a b c : ID) : ID_lt a b -> ID_lt b c -> ID_lt a c.
Proof. unfold ID_lt. rewrite !bytes_Compare_lt. apply lex_trans. Qed.

Lemma ID_le_lt_or_eq (a b : ID) : ID_le a b <-> ID_lt a b \/ a = b.
Proof.
  unfold ID_le, ID_lt. rewrite <- bytes_Compare_eq.
  destruct (bytes_Compare_range a b) as [H|[H|H]]; rewrite H; lia.
Qed.

Lemma ID_le_refl (a : ID) : ID_le a a.
Proof. apply ID_le_lt_or_eq. now right. Qed.

Lemma ID_lt_le (a b : ID) : ID_lt a b -> ID_le a b.
Proof. unfold ID_lt, ID_le. lia. Qed.

Lemma ID_le_lt_trans (a b c : ID) : ID_le a b -> ID_lt b c -> ID_lt a c.
Proof.
  rewrite ID_le_lt_or_eq. intros [H| ->]; [apply ID_lt_trans, H|auto].
Qed.

Lemma ID_lt_le_trans (a b c : ID) : ID_lt a b -> ID_le b c -> ID_lt a c.
Proof.
  rewrite ID_le_lt_or_eq. intros H [H'| <-]; [eapply ID_lt_trans; eauto|auto].
Qed.

Lemma ID_le_trans (a b c : ID) : ID_le a b -> ID_le b c -> ID_le a c.
Proof.
  rewrite (ID_le_lt_or_eq a b). intros [H| ->] H'; [|exact H'].
  apply ID_lt_le. eapply ID_lt_le_trans; eauto.
Qed.

Lemma ID_lt_gt (a b : ID) : ID_lt a b <-> bytes_Compare b a = 1.
Proof.
  unfold ID_lt. rewrite (bytes_Compare_antisym a b).
  destruct (bytes_Compare_range a b) as [H|[H|H]]; rewrite H; lia.
Qed.

Lemma ID_le_ge (a b : ID) : ID_le a b <-> 0 <= bytes_Compare b a.
Proof. unfold ID_le. rewrite (bytes_Compare_antisym a b). lia. Qed.

Lemma ID_lt_not_le (a b : ID) : ID_lt a b -> ~ ID_le b a.
Proof. unfold ID_lt, ID_le. rewrite (bytes_Compare_antisym a b). lia. Qed.

Lemma ID_total (a b : ID) : ID_lt a b \/ ID_le b a.
Proof. unfold ID_lt, ID_le. rewrite (bytes_Compare_antisym a b). lia. Qed.

Lemma ID_le_antisym (a c : ID) : ID_le a c -> ID_le c a -> a = c.
Proof.
  unfold ID_le. intros H1 H2. apply bytes_Compare_eq.
  rewrite (bytes_Compare_antisym a c) in H2. lia.
Qed.

Lemma ID_lt_nonempty (a b : ID) : ID_lt a b -> b <> [].
Proof.
  intros H ->. apply bytes_Compare_lt in H. unfold lex in H.
  destruct a; discriminate H.
Qed.

(** ** Machine integers *)

Ltac pow2 :=
  change (2 ^ 64) with 18446744073709551616 in *;
  change (2 ^ 63) with 9223372036854775808 in *.

Lemma int_wrap_small (z : Z) : - 2 ^ 63 <= z < 2 ^ 63 -> int_wrap z = z.
Proof.
  intros H. unfold int_wrap. pow2. rewrite Z.mod_small; lia.
Qed.

Lemma uint_wrap_int_wrap (z : Z) : uint_wrap (int_wrap z) = z mod 2 ^ 64.
Proof.
  unfold uint_wrap, int_wrap. rewrite Zminus_mod_idemp_l. f_equal. lia.
Qed.

Lemma midpoint_spec (i j : Z) :
  0 <= i -> i < j -> j < 2 ^ 63 ->
  midpoint i j = (i + j) / 2 /\ i <= midpoint i j < j.
Proof.
  intros Hi Hij Hj. unfold midpoint.
  rewrite uint_wrap_int_wrap, Z.mod_small by (pow2; lia).
  rewrite Z.shiftr_div_pow2 by lia. change (2 ^ 1) with 2.
  assert (H : i <= (i + j) / 2 < j).
  { split.
    - apply Z.div_le_lower_bound; lia.
    - apply Z.div_lt_upper_bound; lia. }
  rewrite int_wrap_small by (pow2; lia). auto.
Qed.

(** ** Computations that return *)

Lemma returns_ret {A : Type} (a : A) (mins : list ID) :
  returns (ret a) mins a mins.
Proof. now exists []. Qed.

Lemma returns_bind {A B : Type} (m : M A) (k : A -> M B)
    (mins mins' mins'' : list ID) (a : A) (c : B) :
  returns m mins a mins' -> returns (k a) mins' c mins'' ->
  returns (bind m k) mins c mins''.
Proof.
  intros [evs Hm] [evs' Hk]. exists (evs ++ evs').
  unfold bind. now rewrite Hm, Hk.
Qed.

Lemma returns_mapError {A : Type} (wrap : error -> error) (m : M A)
    (mins mins' : list ID) (a : A) :
  returns m mins a mins' -> returns (mapError wrap m) mins a mins'.
Proof. intros [evs Hm]. exists evs. unfold mapError. now rewrite Hm. Qed.

Lemma returns_defer {A : Type} (ev : Event) (m : M A)
    (mins mins' : list ID) (a : A) :
  returns m mins a mins' -> returns (defer ev m) mins a mins'.
Proof.
  intros [evs Hm]. exists (evs ++ [ev]). unfold defer. now rewrite Hm.
Qed.

Lemma returns_emit (ev : Event) (mins : list ID) :
  returns (emit ev) mins tt mins.
Proof. now exists [ev]. Qed.

Lemma returns_setMins (mins mins' : list ID) :
  returns (setMins mins') mins tt mins'.
Proof. now exists []. Qed.

Lemma bind_first_event {A B : Type} (m : M A) (k : A -> M B)
    (mins mins1 : list ID) (o : outcome A) (ev : Event) :
  m mins = (o, mins1, [ev]) ->
  exists o' mins' evs, bind m k mins = (o', mins', ev :: evs).
Proof.
  intros Hm. unfold bind. rewrite Hm. destruct o as [a| | |]; eauto.
  destruct (k a mins1) as [[o' m'] e']. eauto.
Qed.

Lemma returns_inj {A : Type} (m : M A) (mins mins1 mins2 : list ID)
    (a1 a2 : A) :
  returns m mins a1 mins1 -> returns m mins a2 mins2 ->
  a1 = a2 /\ mins1 = mins2.
Proof. intros [evs1 H1] [evs2 H2]. rewrite H1 in H2. now inversion H2. Qed.

Lemma index_of_nat {A : Type} (l : list A) (k : nat) :
  index l (Z.of_nat k) = l !! k.
Proof.
  unfold index. replace (Z.of_nat k <? 0) with false
    by (symmetry; apply Z.ltb_ge; lia).
  now rewrite Nat2Z.id.
Qed.

(** ** binarySearch over a comparator that returns *)

Section Search.

Variable compare : Z -> M Z.
Variable Inv : list ID -> Prop.
Variable cmp : Z -> Z.
Variable n : Z.

Hypothesis n_small : n < 2 ^ 63 - 1.
Hypothesis compare_returns :
  forall h mins, 0 <= h < n -> Inv mins ->
    exists mins', returns (compare h) mins (cmp h) mins' /\ Inv mins'.

Lemma binarySearch_loop_found (fuel : nat) :
  forall i j mins r,
    0 <= i -> j <= n -> i <= r < j -> j - i <= Z.of_nat fuel -> Inv mins ->
    (forall h, i <= h < r -> cmp h = 1) ->
    cmp r = 0 ->
    (forall h, r < h < j -> cmp h = -1) ->
    exists mins',
      returns (binarySearch_loop fuel compare i j) mins r mins' /\ Inv mins'.
Proof.
  induction fuel as [|fuel IH]; intros i j mins r Hi Hj Hr Hfuel HInv Hlo H0 Hhi.
  - lia.
  - cbn [binarySearch_loop].
    replace (i <? j) with true by (symmetry; apply Z.ltb_lt; lia).
    destruct (midpoint_spec i j) as [_ Hh]; [lia|lia|lia|].
    set (h := midpoint i j) in *.
    destruct (compare_returns h mins) as (mins1 & Hc & HInv1); [lia|exact HInv|].
    destruct (Z.lt_trichotomy h r) as [Hlt|[Heq|Hgt]].
    + destruct (IH (h + 1) j mins1 r) as (mins' & Hret & HInv');
        try assumption; try lia.
      { intros h' Hh'. apply Hlo. lia. }
      exists mins'. split; [|exact HInv'].
      eapply returns_bind; [exact Hc|].
      rewrite (Hlo h) by lia. cbn.
      rewrite int_wrap_small by (pow2; lia). exact Hret.
    + subst r. exists mins1. split; [|exact HInv1].
      eapply returns_bind; [exact Hc|]. rewrite H0. cbn. apply returns_ret.
    + destruct (IH i h mins1 r) as (mins' & Hret & HInv');
        try assumption; try lia.
      { intros h' Hh'. apply Hhi. lia. }
      exists mins'. split; [|exact HInv'].
      eapply returns_bind; [exact Hc|].
      rewrite (Hhi h) by lia. cbn. exact Hret.
Qed.

Lemma binarySearch_loop_notfound (fuel : nat) :
  forall i j mins k,
    0 <= i -> j <= n -> i <= k <= j -> j - i <= Z.of_nat fuel -> Inv mins ->
    (forall h, i <= h < k -> cmp h = 1) ->
    (forall h, k <= h < j -> cmp h = -1) ->
    exists mins',
      returns (binarySearch_loop fuel compare i j) mins (-1) mins' /\
      Inv mins'.
Proof.
  induction fuel as [|fuel IH]; intros i j mins k Hi Hj Hk Hfuel HInv Hlo Hhi.
  - assert (i = j) by lia. subst j. exists mins. split; [|exact HInv].
    cbn. rewrite Z.ltb_irrefl. apply returns_ret.
  - cbn [binarySearch_loop]. destruct (i <? j) eqn:Hij.
    2:{ exists mins. split; [apply returns_ret|exact HInv]. }
    apply Z.ltb_lt in Hij.
    destruct (midpoint_spec i j) as [_ Hh]; [lia|lia|lia|].
    set (h := midpoint i j) in *.
    destruct (compare_returns h mins) as (mins1 & Hc & HInv1); [lia|exact HInv|].
    destruct (Z_lt_le_dec h k) as [Hlt|Hge].
    + destruct (IH (h + 1) j mins1 k) as (mins' & Hret & HInv');
        try assumption; try lia.
      { intros h' Hh'. apply Hlo. lia. }
      exists mins'. split; [|exact HInv'].
      eapply returns_bind; [exact Hc|].
      rewrite (Hlo h) by lia. cbn.
      rewrite int_wrap_small by (pow2; lia). exact Hret.
    + destruct (IH i h mins1 k) as (mins' & Hret & HInv');
        try assumption; try lia.
      { intros h' Hh'. apply Hhi. lia. }
      exists mins'. split; [|exact HInv'].
      eapply returns_bind; [exact Hc|].
      rewrite (Hhi h) by lia. cbn. exact Hret.
Qed.

Hypothesis cmp_range : forall h, 0 <= h < n -> cmp h = -1 \/ cmp h = 0 \/ cmp h = 1.

Lemma binarySearch_loop_returns (fuel : nat) :
  forall i j mins,
    0 <= i -> j <= n -> j - i <= Z.of_nat fuel -> Inv mins ->
    exists res mins',
      returns (binarySearch_loop fuel compare i j) mins res mins' /\
      Inv mins' /\
      (res = -1 \/ (i <= res < j /\ cmp res = 0)).
Proof.
  induction fuel as [|fuel IH]; intros i j mins Hi Hj Hfuel HInv.
  - exists (-1), mins. split; [|auto].
    cbn. replace (i <? j) with false by (symmetry; apply Z.ltb_ge; lia).
    apply returns_ret.
  - cbn [binarySearch_loop]. destruct (i <? j) eqn:Hij.
    2:{ exists (-1), mins. split; [apply returns_ret|auto]. }
    apply Z.ltb_lt in Hij.
    destruct (midpoint_spec i j) as [_ Hh]; [lia|lia|lia|].
    set (h := midpoint i j) in *.
    destruct (compare_returns h mins) as (mins1 & Hc & HInv1); [lia|exact HInv|].
    destruct (cmp_range h) as [Hm|[Hz|Hp]]; [lia| | |].
    + destruct (IH i h mins1) as (res & mins' & Hret & HInv' & Hres);
        try assumption; try lia.
      exists res, mins'. split; [|split; [exact HInv'|]].
      * eapply returns_bind; [exact Hc|]. rewrite Hm. cbn. exact Hret.
      * destruct Hres as [->|[Hb Hz]]; [now left|right; split; [lia|exact Hz]].
    + exists h, mins1. split; [|split; [exact HInv1|right; split; [lia|exact Hz]]].
      eapply returns_bind; [exact Hc|]. rewrite Hz. cbn. apply returns_ret.
    + destruct (IH (h + 1) j mins1) as (res & mins' & Hret & HInv' & Hres);
        try assumption; try lia.
      exists res, mins'. split; [|split; [exact HInv'|]].
      * eapply returns_bind; [exact Hc|]. rewrite Hp. cbn.
        rewrite int_wrap_small by (pow2; lia). exact Hret.
      * destruct Hres as [->|[Hb Hz]]; [now left|right; split; [lia|exact Hz]].
Qed.

End Search.

(** ** The bounds and the cache of a call *)

Lemma ID_le_nil (a : ID) : ID_le a [] -> a = [].
Proof.
  rewrite ID_le_lt_or_eq. intros [H|H]; [|exact H].
  now apply ID_lt_nonempty in H.
Qed.

Section Lookup.

Context {Trace : Type} (Trace_TraceID : Trace -> ID).

Local Abbreviation minOf := (rowGroupMin Trace_TraceID).
Local Abbreviation bound := (boundAt Trace_TraceID).
Local Abbreviation ordered := (boundsOrdered Trace_TraceID).
Local Abbreviation cached := (cacheOK Trace_TraceID).
Local Abbreviation comparator := (comparatorAt Trace_TraceID).
Local Abbreviation bracket := (inBracket Trace_TraceID).

Implicit Types (b : backendBlock Trace) (f : parquetFile Trace) (T : ID).

Lemma rowGroupMin_defined b f (k : nat) :
  ordered b f -> (k <= length (RowGroups f))%nat ->
  minOf b f k = Some (bound b f k).
Proof.
  intros Hord Hk. unfold boundAt.
  destruct (decide (k = 0%nat)) as [->|Hk0].
  - unfold rowGroupMin. now rewrite bool_decide_eq_true_2.
  - destruct k as [|k]; [easy|].
    destruct (Hord k) as (lo & hi & _ & Hhi & _); [lia|].
    now rewrite Hhi.
Qed.

Lemma bound_0 b f : bound b f 0 = MinID (meta b).
Proof. reflexivity. Qed.

Lemma bound_last b f :
  (0 < length (RowGroups f))%nat ->
  bound b f (length (RowGroups f)) = MaxID (meta b).
Proof.
  intros Hn. unfold boundAt, rowGroupMin.
  rewrite bool_decide_eq_false_2 by lia.
  now rewrite bool_decide_eq_true_2.
Qed.

Lemma bound_step b f (k : nat) :
  ordered b f -> (k < length (RowGroups f))%nat ->
  if bool_decide (S k = length (RowGroups f))
  then ID_le (bound b f k) (bound b f (S k))
  else ID_lt (bound b f k) (bound b f (S k)).
Proof.
  intros Hord Hk. destruct (Hord k Hk) as (lo & hi & Hlo & Hhi & H).
  unfold boundAt. now rewrite Hlo, Hhi.
Qed.

Lemma bound_step_le b f (k : nat) :
  ordered b f -> (k < length (RowGroups f))%nat ->
  ID_le (bound b f k) (bound b f (S k)).
Proof.
  intros Hord Hk. pose proof (bound_step b f k Hord Hk) as H.
  destruct (bool_decide _); [exact H|now apply ID_lt_le].
Qed.

Lemma bound_mono_le b f (k k' : nat) :
  ordered b f -> (k <= k')%nat -> (k' <= length (RowGroups f))%nat ->
  ID_le (bound b f k) (bound b f k').
Proof.
  intros Hord Hkk'. induction Hkk' as [|k' Hkk' IH]; intros Hk'.
  - apply ID_le_refl.
  - eapply ID_le_trans; [apply IH; lia|]. apply bound_step_le; [exact Hord|lia].
Qed.

Lemma bound_mono_lt b f (k k' : nat) :
  ordered b f -> (k < k')%nat -> (k' < length (RowGroups f))%nat ->
  ID_lt (bound b f k) (bound b f k').
Proof.
  intros Hord Hkk' Hk'. destruct k' as [|k']; [lia|].
  eapply ID_le_lt_trans; [apply (bound_mono_le b f k k'); [exact Hord|lia|lia]|].
  pose proof (bound_step b f k' Hord ltac:(lia)) as H.
  rewrite bool_decide_eq_false_2 in H by lia. exact H.
Qed.

Lemma bracket_bounds b f T (k : nat) :
  ordered b f -> (k < length (RowGroups f))%nat ->
  bracket b f T k <->
  ID_le (bound b f k) T /\
  if bool_decide (S k = length (RowGroups f))
  then ID_le T (bound b f (S k))
  else ID_lt T (bound b f (S k)).
Proof.
  intros Hord Hk. unfold inBracket.
  rewrite (rowGroupMin_defined b f k), (rowGroupMin_defined b f (S k))
    by (auto; lia).
  split.
  - intros (lo & hi & Hlo & Hhi & H). inversion Hlo; inversion Hhi; now subst.
  - intros H. eauto.
Qed.

(** *** The comparator, from the bounds *)

Lemma comparatorAt_range b f T (k : nat) :
  comparator b f T k = -1 \/ comparator b f T k = 0
  \/ comparator b f T k = 1.
Proof.
  unfold comparatorAt.
  destruct (bytes_Compare_range T (bound b f k)) as [H|[H|H]]; rewrite H; cbn;
    auto.
  destruct (_ || _); auto.
Qed.

Lemma comparatorAt_zero b f T (k : nat) :
  ordered b f -> (k < length (RowGroups f))%nat ->
  comparator b f T k = 0 <-> bracket b f T k.
Proof.
  intros Hord Hk. rewrite bracket_bounds by assumption.
  pose proof (bound_step b f k Hord Hk) as Hstep.
  unfold comparatorAt.
  replace (Z.of_nat k <? Z.of_nat (length (RowGroups f)) - 1)
    with (negb (bool_decide (S k = length (RowGroups f)))).
  2:{ destruct (bool_decide (S k = length (RowGroups f))) eqn:E; cbn; symmetry.
      - apply bool_decide_eq_true in E. apply Z.ltb_ge. lia.
      - apply bool_decide_eq_false in E. apply Z.ltb_lt. lia. }
  rewrite (ID_le_ge (bound b f k) T).
  destruct (bytes_Compare_range T (bound b f k)) as [H|[H|H]]; rewrite H; cbn.
  - split; [discriminate|]. intros [? _]. lia.
  - apply bytes_Compare_eq in H. subst T. split; [intros _|reflexivity].
    split; [lia|]. exact Hstep.
  - destruct (bool_decide (S k = length (RowGroups f))); cbn;
      unfold ID_le, ID_lt;
      destruct (bytes_Compare_range T (bound b f (S k))) as [H'|[H'|H']];
      rewrite H'; cbn; split; try discriminate; try reflexivity;
      try (intros [_ ?]; lia); (intros _; split; lia).
Qed.

Lemma comparatorAt_left b f T (r h : nat) :
  ordered b f -> (r < length (RowGroups f))%nat ->
  ID_le (bound b f r) T -> (h < r)%nat ->
  comparator b f T h = 1.
Proof.
  intros Hord Hr HT Hh. unfold comparatorAt.
  assert (H1 : bytes_Compare T (bound b f h) = 1).
  { apply ID_lt_gt. eapply ID_lt_le_trans; [|exact HT].
    apply bound_mono_lt; [exact Hord|lia|lia]. }
  rewrite H1. cbn.
  assert (H2 : 0 <= bytes_Compare T (bound b f (S h))).
  { apply ID_le_ge. eapply ID_le_trans; [|exact HT].
    apply bound_mono_le; [exact Hord|lia|lia]. }
  replace (Z.of_nat h <? Z.of_nat (length (RowGroups f)) - 1) with true
    by (symmetry; apply Z.ltb_lt; lia).
  destruct (bytes_Compare_range T (bound b f (S h))) as [H|[H|H]];
    rewrite H in *; cbn; [lia|reflexivity|reflexivity].
Qed.

Lemma comparatorAt_right b f T (r h : nat) :
  ordered b f -> (h < length (RowGroups f))%nat ->
  ID_lt T (bound b f (S r)) -> (r < h)%nat ->
  comparator b f T h = -1.
Proof.
  intros Hord Hh HT Hr. unfold comparatorAt.
  assert (H1 : bytes_Compare T (bound b f h) < 0).
  { eapply ID_lt_le_trans; [exact HT|].
    apply bound_mono_le; [exact Hord|lia|lia]. }
  destruct (bytes_Compare_range T (bound b f h)) as [H|[H|H]];
    rewrite H in *; cbn; [reflexivity|lia|lia].
Qed.

Lemma bracket_unique b f T (k k' : nat) :
  ordered b f ->
  (k < length (RowGroups f))%nat -> (k' < length (RowGroups f))%nat ->
  bracket b f T k -> bracket b f T k' -> k = k'.
Proof.
  intros Hord Hk Hk' HB HB'.
  assert (Hgen : forall r h, (r < length (RowGroups f))%nat ->
            (h < length (RowGroups f))%nat ->
            bracket b f T r -> bracket b f T h -> ~ (r < h)%nat).
  { intros r h Hr Hh Br Bh Hlt.
    apply (bracket_bounds b f T r Hord Hr) in Br. destruct Br as [_ Br].
    rewrite bool_decide_eq_false_2 in Br by lia.
    pose proof (comparatorAt_right b f T r h Hord Hh Br Hlt) as Hc.
    apply (comparatorAt_zero b f T h Hord Hh) in Bh. lia. }
  destruct (Nat.lt_trichotomy k k') as [H|[H|H]]; [|exact H|].
  - now destruct (Hgen k k' Hk Hk' HB HB').
  - now destruct (Hgen k' k Hk' Hk HB' HB).
Qed.

Lemma bracket_exists b f T :
  ordered b f -> (0 < length (RowGroups f))%nat ->
  ID_le (MinID (meta b)) T -> ID_le T (MaxID (meta b)) ->
  exists k, (k < length (RowGroups f))%nat /\ bracket b f T k.
Proof.
  intros Hord Hn Hmin Hmax.
  assert (Hfind : forall m, (m < length (RowGroups f))%nat ->
            exists r, (r <= m)%nat /\ ID_le (bound b f r) T /\
                      ((r < m)%nat -> ID_lt T (bound b f (S r)))).
  { induction m as [|m IH]; intros Hm.
    - exists 0%nat. split; [lia|]. split; [exact Hmin|lia].
    - destruct IH as (r & Hr & Hlo & Hhi); [lia|].
      destruct (decide (r < m)%nat) as [Hlt|Hge].
      + exists r. split; [lia|]. split; [exact Hlo|auto].
      + assert (r = m) by lia. subst r.
        destruct (ID_total T (bound b f (S m))) as [Hlt|Hle].
        * exists m. split; [lia|]. split; [exact Hlo|auto].
        * exists (S m). split; [lia|]. split; [exact Hle|lia]. }
  destruct (Hfind (length (RowGroups f) - 1)%nat) as (r & Hr & Hlo & Hhi);
    [lia|].
  exists r. split; [lia|]. apply bracket_bounds; [exact Hord|lia|].
  split; [exact Hlo|].
  destruct (bool_decide (S r = length (RowGroups f))) eqn:E.
  - apply bool_decide_eq_true in E. rewrite E, bound_last by lia. exact Hmax.
  - apply bool_decide_eq_false in E. apply Hhi. lia.
Qed.

Lemma comparatorAt_below b f T (h : nat) :
  ordered b f -> (h < length (RowGroups f))%nat ->
  ID_lt T (MinID (meta b)) -> comparator b f T h = -1.
Proof.
  intros Hord Hh HT. unfold comparatorAt.
  assert (H1 : bytes_Compare T (bound b f h) < 0).
  { eapply ID_lt_le_trans; [exact HT|].
    apply (bound_mono_le b f 0 h); [exact Hord|lia|lia]. }
  destruct (bytes_Compare_range T (bound b f h)) as [H|[H|H]];
    rewrite H in *; cbn; [reflexivity|lia|lia].
Qed.

Lemma comparatorAt_above b f T (h : nat) :
  ordered b f -> (h < length (RowGroups f))%nat ->
  ID_lt (MaxID (meta b)) T -> comparator b f T h = 1.
Proof.
  intros Hord Hh HT. unfold comparatorAt.
  assert (Hup : forall k, (k <= length (RowGroups f))%nat ->
            bytes_Compare T (bound b f k) = 1).
  { intros k Hk. apply ID_lt_gt. eapply ID_le_lt_trans; [|exact HT].
    rewrite <- (bound_last b f) by lia.
    apply bound_mono_le; [exact Hord|lia|lia]. }
  rewrite (Hup h), (Hup (S h)) by lia. reflexivity.
Qed.

(** *** The cache *)

Lemma getRowGroupMin_returns b f T (k : nat) (mins : list ID) (v : ID) :
  cached b f mins -> (k <= length (RowGroups f))%nat ->
  minOf b f k = Some v ->
  exists mins',
    returns (getRowGroupMin Trace_TraceID f T (Z.of_nat k)) mins v mins' /\
    cached b f mins'.
Proof.
  intros [Hlen Hc] Hk Hv.
  destruct (Hc k Hk) as (c & Hlook & Hne & Hnil).
  unfold getRowGroupMin.
  destruct c as [|x c].
  - destruct (Hnil eq_refl) as [Hk0 Hkn].
    destruct (lookup_lt_is_Some_2 (RowGroups f) k Hkn) as [rg Hrg].
    unfold rowGroupMin in Hv.
    rewrite !bool_decide_eq_false_2, Hrg in Hv by lia.
    destruct rg as [|row rest]; [discriminate|]. inversion Hv; subst v.
    exists (<[k := Trace_TraceID row]> mins). split.
    + eapply returns_bind; [now exists []|]. cbn beta.
      rewrite index_of_nat, Hlook. cbn [length Z.of_nat Z.ltb Z.compare].
      rewrite index_of_nat, Hrg.
      eapply returns_bind; [apply returns_emit|]. apply returns_defer.
      eapply returns_bind; [apply returns_setMins|].
      rewrite Nat2Z.id. apply returns_ret.
    + split; [now rewrite length_insert|].
      intros k' Hk'. destruct (decide (k' = k)) as [->|Hneq].
      * exists (Trace_TraceID row).
        rewrite list_lookup_insert_eq by lia. split; [reflexivity|].
        split; [|auto].
        intros _. unfold rowGroupMin.
        now rewrite !bool_decide_eq_false_2, Hrg by lia.
      * rewrite list_lookup_insert_ne by auto. apply Hc, Hk'.
  - exists mins. split; [|now split].
    eapply returns_bind; [now exists []|]. cbn beta.
    rewrite index_of_nat, Hlook.
    replace (0 <? Z.of_nat (length (x :: c))) with true
      by (symmetry; apply Z.ltb_lt; cbn [length]; lia).
    rewrite Hne in Hv by discriminate. inversion Hv; subst v.
    apply returns_ret.
Qed.

Lemma compareRowGroup_returns b f T (k : nat) (mins : list ID) :
  ordered b f -> cached b f mins ->
  (k < length (RowGroups f))%nat ->
  Z.of_nat (length (RowGroups f)) < 2 ^ 63 - 1 ->
  exists mins',
    returns (compareRowGroup Trace_TraceID f T
               (Z.of_nat (length (RowGroups f))) (Z.of_nat k))
            mins (comparator b f T k) mins' /\
    cached b f mins'.
Proof.
  intros Hord Hc Hk Hn.
  destruct (getRowGroupMin_returns b f T k mins (bound b f k) Hc)
    as (mins1 & Hret1 & Hc1); [lia|apply rowGroupMin_defined; [auto|lia]|].
  unfold compareRowGroup, comparatorAt.
  destruct (bytes_Compare T (bound b f k) <=? 0) eqn:Hcheck.
  - exists mins1. split; [|exact Hc1].
    eapply returns_bind; [exact Hret1|]. cbn beta zeta. rewrite Hcheck.
    apply returns_ret.
  - destruct (getRowGroupMin_returns b f T (S k) mins1 (bound b f (S k)) Hc1)
      as (mins2 & Hret2 & Hc2); [lia|apply rowGroupMin_defined; [auto|lia]|].
    exists mins2. split; [|exact Hc2].
    eapply returns_bind; [exact Hret1|]. cbn beta zeta. rewrite Hcheck.
    rewrite (int_wrap_small (Z.of_nat k + 1)) by (pow2; lia).
    replace (Z.of_nat k + 1) with (Z.of_nat (S k)) by lia.
    eapply returns_bind; [exact Hret2|]. cbn beta zeta.
    rewrite (int_wrap_small (Z.of_nat (length (RowGroups f)) - 1))
      by (pow2; lia).
    destruct (_ || _); apply returns_ret.
Qed.

Lemma makeRowGroupMins_cached b f :
  (0 < length (RowGroups f))%nat ->
  Z.of_nat (length (RowGroups f)) < 2 ^ 63 - 1 ->
  MinID (meta b) <> [] -> MaxID (meta b) <> [] ->
  cached b f (makeRowGroupMins (meta b) (Z.of_nat (length (RowGroups f)))).
Proof.
  intros Hn Hsmall Hmin Hmax. unfold makeRowGroupMins.
  rewrite int_wrap_small by (pow2; lia).
  rewrite Nat2Z.id.
  replace (Z.to_nat (Z.of_nat (length (RowGroups f)) + 1))
    with (S (length (RowGroups f))) by lia.
  set (n := length (RowGroups f)) in *.
  split; [now rewrite !length_insert, length_replicate|].
  intros k Hk.
  destruct (decide (k = n)) as [->|Hkn].
  - exists (MaxID (meta b)).
    rewrite list_lookup_insert_eq
      by (rewrite length_insert, length_replicate; lia).
    split; [reflexivity|]. split; [|easy].
    intros _. unfold rowGroupMin. fold n.
    rewrite bool_decide_eq_false_2 by lia.
    now rewrite bool_decide_eq_true_2.
  - rewrite list_lookup_insert_ne by auto.
    destruct (decide (k = 0%nat)) as [->|Hk0].
    + exists (MinID (meta b)).
      rewrite list_lookup_insert_eq by (rewrite length_replicate; lia).
      split; [reflexivity|]. split; [|easy].
      intros _. unfold rowGroupMin. now rewrite bool_decide_eq_true_2.
    + exists []. rewrite list_lookup_insert_ne by auto.
      rewrite lookup_replicate_2 by lia.
      split; [reflexivity|]. split; [easy|]. intros _. lia.
Qed.

Lemma MaxID_nonempty b f :
  ordered b f -> (0 < length (RowGroups f))%nat ->
  MinID (meta b) <> [] -> MaxID (meta b) <> [].
Proof.
  intros Hord Hn Hmin Hmax.
  pose proof (bound_mono_le b f 0 (length (RowGroups f)) Hord
                ltac:(lia) ltac:(lia)) as H.
  rewrite bound_last, Hmax in H by lia.
  apply ID_le_nil in H. now apply Hmin.
Qed.

(** *** The search over the row groups of a block *)

Section BlockSearch.

Variables (b : backendBlock Trace) (f : parquetFile Trace) (T : ID).

Hypothesis Hord : ordered b f.
Hypothesis Hmin : MinID (meta b) <> [].
Hypothesis Hsmall : Z.of_nat (length (RowGroups f)) < 2 ^ 63 - 1.

Local Abbreviation n := (Z.of_nat (length (RowGroups f))).
Local Abbreviation search :=
  (binarySearch n (compareRowGroup Trace_TraceID f T n)).
Local Abbreviation fresh := (makeRowGroupMins (meta b) n).

Lemma compare_returns_Z (h : Z) (mins : list ID) :
  0 <= h < n -> cached b f mins ->
  exists mins',
    returns (compareRowGroup Trace_TraceID f T n h) mins
            (comparator b f T (Z.to_nat h)) mins' /\
    cached b f mins'.
Proof.
  intros Hh Hc.
  destruct (compareRowGroup_returns b f T (Z.to_nat h) mins Hord Hc)
    as (mins' & Hret & Hc'); [lia|exact Hsmall|].
  rewrite Z2Nat.id in Hret by lia. eauto.
Qed.

Lemma search_found (k : nat) :
  (k < length (RowGroups f))%nat -> bracket b f T k ->
  exists mins', returns search fresh (Z.of_nat k) mins'.
Proof.
  intros Hk HB.
  assert (Hc : cached b f fresh).
  { apply makeRowGroupMins_cached; [lia|exact Hsmall|exact Hmin|].
    apply (MaxID_nonempty b f Hord); [lia|exact Hmin]. }
  pose proof HB as HB'.
  apply (bracket_bounds b f T k Hord Hk) in HB'. destruct HB' as [Hlo Hhi].
  destruct (binarySearch_loop_found
              (compareRowGroup Trace_TraceID f T n) (cached b f)
              (fun h => comparator b f T (Z.to_nat h)) n Hsmall
              compare_returns_Z (Z.to_nat n) 0 n fresh (Z.of_nat k))
    as (mins' & Hret & _); try lia; try assumption.
  - intros h Hh. apply (comparatorAt_left b f T k); [auto|lia|auto|lia].
  - rewrite Nat2Z.id. now apply comparatorAt_zero.
  - intros h Hh. apply (comparatorAt_right b f T k); [auto|lia| |lia].
    rewrite bool_decide_eq_false_2 in Hhi by lia. exact Hhi.
  - exists mins'. exact Hret.
Qed.

Lemma search_outside :
  ID_lt T (MinID (meta b)) \/ ID_lt (MaxID (meta b)) T ->
  exists mins', returns search fresh (-1) mins'.
Proof.
  intros Hout.
  destruct (decide (length (RowGroups f) = 0%nat)) as [Hz|Hnz].
  { exists fresh. unfold binarySearch. rewrite Hz. cbn. apply returns_ret. }
  assert (Hc : cached b f fresh).
  { apply makeRowGroupMins_cached; [lia|exact Hsmall|exact Hmin|].
    apply (MaxID_nonempty b f Hord); [lia|exact Hmin]. }
  destruct Hout as [Hlt|Hgt].
  - destruct (binarySearch_loop_notfound
                (compareRowGroup Trace_TraceID f T n) (cached b f)
                (fun h => comparator b f T (Z.to_nat h)) n Hsmall
                compare_returns_Z (Z.to_nat n) 0 n fresh 0)
      as (mins' & Hret & _); try lia; try assumption.
    + intros h Hh. apply comparatorAt_below; [auto|lia|auto].
    + exists mins'. exact Hret.
  - destruct (binarySearch_loop_notfound
                (compareRowGroup Trace_TraceID f T n) (cached b f)
                (fun h => comparator b f T (Z.to_nat h)) n Hsmall
                compare_returns_Z (Z.to_nat n) 0 n fresh n)
      as (mins' & Hret & _); try lia; try assumption.
    + intros h Hh. apply comparatorAt_above; [auto|lia|auto].
    + exists mins'. exact Hret.
Qed.

Lemma search_returns :
  exists res mins',
    returns search fresh res mins' /\
    (res = -1 \/
     exists k, res = Z.of_nat k /\ (k < length (RowGroups f))%nat /\
               bracket b f T k).
Proof.
  destruct (decide (length (RowGroups f) = 0%nat)) as [Hz|Hnz].
  { exists (-1), fresh. split; [|now left].
    unfold binarySearch. rewrite Hz. cbn. apply returns_ret. }
  assert (Hc : cached b f fresh).
  { apply makeRowGroupMins_cached; [lia|exact Hsmall|exact Hmin|].
    apply (MaxID_nonempty b f Hord); [lia|exact Hmin]. }
  destruct (binarySearch_loop_returns
              (compareRowGroup Trace_TraceID f T n) (cached b f)
              (fun h => comparator b f T (Z.to_nat h)) n Hsmall
              compare_returns_Z
              (fun h _ => comparatorAt_range b f T (Z.to_nat h))
              (Z.to_nat n) 0 n fresh)
    as (res & mins' & Hret & _ & Hres); try lia; try assumption.
  exists res, mins'. split; [exact Hret|].
  destruct Hres as [->|[Hb Hz]]; [now left|right].
  exists (Z.to_nat res). split; [lia|]. split; [lia|].
  apply comparatorAt_zero; [auto|lia|exact Hz].
Qed.

End BlockSearch.

(** *** The scan of a row group and the read of the row *)

Lemma iterNext_spec T (rg : list Trace) (start : Z) :
  0 <= start -> start + Z.of_nat (length rg) < 2 ^ 63 ->
  match iterNext Trace_TraceID T rg start with
  | Some z =>
      exists k tr, z = start + Z.of_nat k /\ rg !! k = Some tr /\
                   Trace_TraceID tr = T
  | None => forall tr, In tr rg -> Trace_TraceID tr <> T
  end.
Proof.
  revert start. induction rg as [|row rg IH]; intros start H0 Hlt;
    cbn [iterNext].
  - intros tr [].
  - cbn [length] in Hlt.
    destruct (bool_decide (Trace_TraceID row = T)) eqn:E.
    + apply bool_decide_eq_true in E. exists 0%nat, row.
      split; [lia|]. split; [reflexivity|exact E].
    + apply bool_decide_eq_false in E.
      rewrite int_wrap_small by (pow2; lia).
      specialize (IH (start + 1) ltac:(lia) ltac:(lia)).
      destruct (iterNext Trace_TraceID T rg (start + 1)) as [z|].
      * destruct IH as (k & tr & -> & Hk & Hid). exists (S k), tr.
        split; [lia|]. split; [exact Hk|exact Hid].
      * intros tr [<-|Hin]; [exact E|now apply IH].
Qed.

Lemma sumNumRows_spec (rgs : list (list Trace)) (acc : Z) :
  0 <= acc -> acc + Z.of_nat (length (concat rgs)) < 2 ^ 63 ->
  sumNumRows rgs acc = acc + Z.of_nat (length (concat rgs)).
Proof.
  revert acc. induction rgs as [|rg rgs IH]; intros acc H0 Hlt.
  - cbn. lia.
  - cbn [concat] in *. rewrite length_app in *.
    change (sumNumRows (rg :: rgs) acc)
      with (sumNumRows rgs (int_wrap (acc + NumRows rg))).
    unfold NumRows.
    rewrite (int_wrap_small (Z.of_nat (length rg))) by (pow2; lia).
    rewrite int_wrap_small by (pow2; lia).
    rewrite IH by (pow2; lia). lia.
Qed.

Lemma lookup_concat_row (rgs : list (list Trace)) (r : nat)
    (rg : list Trace) (k : nat) :
  rgs !! r = Some rg -> (k < length rg)%nat ->
  concat rgs !! (length (concat (take r rgs)) + k)%nat = rg !! k /\
  (length (concat (take r rgs)) + length rg <= length (concat rgs))%nat.
Proof.
  revert r. induction rgs as [|x rgs IH]; intros r Hr Hk; [discriminate|].
  destruct r as [|r]; cbn in Hr.
  - inversion Hr; subst x. cbn [take concat length Nat.add].
    rewrite lookup_app_l, length_app by exact Hk. split; [reflexivity|lia].
  - destruct (IH r Hr Hk) as [Hlook Hlen].
    cbn [take concat]. rewrite !length_app. split; [|lia].
    rewrite lookup_app_r by lia. rewrite <- Hlook. f_equal. lia.
Qed.

Context {tempopb_Trace : Type}.
Context (parquetTraceToTempopbTrace : Trace -> tempopb_Trace).

Local Abbreviation scan := (scanRowGroup Trace_TraceID parquetTraceToTempopbTrace).

Lemma scanRowGroup_none f T (mins : list ID) :
  returns (scan f T (-1)) mins None mins.
Proof. unfold scanRowGroup. cbn. apply returns_ret. Qed.

Lemma scanRowGroup_spec f T (r : nat) (rg : list Trace) (mins : list ID) :
  Z.of_nat (length (concat (RowGroups f))) < 2 ^ 63 - 1 ->
  RowGroups f !! r = Some rg ->
  exists res,
    returns (scan f T (Z.of_nat r)) mins res mins /\
    match res with
    | None => forall tr, In tr rg -> Trace_TraceID tr <> T
    | Some found =>
        exists tr, In tr rg /\ Trace_TraceID tr = T /\
                   found = parquetTraceToTempopbTrace tr
    end.
Proof.
  intros Hrows Hrg. unfold scanRowGroup.
  replace (Z.of_nat r =? -1) with false by (symmetry; apply Z.eqb_neq; lia).
  rewrite index_of_nat, Hrg, Nat2Z.id.
  pose proof (lookup_lt_Some _ _ _ Hrg) as Hr.
  assert (Hrg_len : (length rg <= length (concat (RowGroups f)))%nat).
  { destruct rg as [|row rg']; [cbn; lia|].
    destruct (lookup_concat_row (RowGroups f) r (row :: rg') 0 Hrg) as [_ H];
      [cbn; lia|]. lia. }
  pose proof (iterNext_spec T rg 0 ltac:(lia) ltac:(pow2; lia)) as Hnext.
  destruct (iterNext Trace_TraceID T rg 0) as [z|].
  - destruct Hnext as (k & tr & -> & Hk & Hid).
    pose proof (lookup_lt_Some _ _ _ Hk) as Hklen.
    destruct (lookup_concat_row (RowGroups f) r rg k Hrg Hklen)
      as [Hlook Hlen].
    exists (Some (parquetTraceToTempopbTrace tr)). split.
    + eapply returns_bind; [apply returns_emit|]. apply returns_defer.
      rewrite sumNumRows_spec; [|lia|].
      2:{ assert (length (concat (take r (RowGroups f)))
                  <= length (concat (RowGroups f)))%nat by lia.
          pow2. lia. }
      rewrite int_wrap_small by (pow2; lia).
      eapply returns_bind; [|apply returns_ret].
      unfold readRow.
      eapply returns_bind; [apply returns_emit|].
      replace (_ <? 0) with false by (symmetry; apply Z.ltb_ge; lia).
      eapply returns_bind; [apply returns_emit|].
      replace (0 + Z.of_nat (length (concat (take r (RowGroups f))))
               + (0 + Z.of_nat k))
        with (Z.of_nat (length (concat (take r (RowGroups f))) + k)) by lia.
      rewrite index_of_nat, Hlook, Hk. apply returns_ret.
    + exists tr. split; [|auto].
      apply list_elem_of_In. eapply list_elem_of_lookup_2. exact Hk.
  - exists None. split; [|exact Hnext].
    eapply returns_bind; [apply returns_emit|]. apply returns_defer.
    apply returns_ret.
Qed.

(** *** The bloom probe and the whole lookup *)

Context {BloomFilter : Type}.
Context (BloomFilter_ReadFrom : list byte -> option BloomFilter).
Context (BloomFilter_Test : BloomFilter -> ID -> bool).
Context (ShardKeyForTraceID : ID -> Z -> Z).
Context (BloomName : Z -> string).

Local Abbreviation probe :=
  (checkBloom BloomFilter_ReadFrom BloomFilter_Test ShardKeyForTraceID
     BloomName).
Local Abbreviation find :=
  (FindTraceByID Trace_TraceID parquetTraceToTempopbTrace
     BloomFilter_ReadFrom BloomFilter_Test ShardKeyForTraceID BloomName).
Local Abbreviation sound :=
  (bloomSound Trace_TraceID BloomFilter_ReadFrom BloomFilter_Test
     ShardKeyForTraceID BloomName).
Local Abbreviation bloomOf b T :=
  (BloomName (ShardKeyForTraceID T (BloomShardCount (meta b)))).

Lemma checkBloom_events b T (mins : list ID) :
  exists o, probe b T mins = (o, mins, [EvRead (bloomOf b T)]).
Proof.
  unfold checkBloom, bind, mapError, Reader_Read, bind, emit. cbn.
  destruct (r b _) as [bloomBytes|]; cbn; [|eauto].
  destruct (BloomFilter_ReadFrom bloomBytes); cbn; eauto.
Qed.

Lemma checkBloom_sound b f T (mins : list ID) :
  sound b f ->
  exists found,
    probe b T mins = (Return found, mins, [EvRead (bloomOf b T)]) /\
    (stored Trace_TraceID f T -> found = true).
Proof.
  intros Hsound. destruct (Hsound T) as (bloomBytes & filter & Hr & Hp & Ht).
  exists (BloomFilter_Test filter T). split; [|exact Ht].
  unfold checkBloom, bind, mapError, Reader_Read, bind, emit. cbn.
  rewrite Hr. cbn. rewrite Hp. reflexivity.
Qed.

Lemma FindTraceByID_miss b T (mins mins' : list ID) (evs : list Event) :
  probe b T mins = (Return false, mins', evs) ->
  find b T mins = (Return None, mins', evs).
Proof.
  intros Hp. unfold FindTraceByID, bind at 1. rewrite Hp. cbn.
  now rewrite app_nil_r.
Qed.

Lemma FindTraceByID_hit b f T (mins mins1 mins2 mins3 : list ID)
    (rowGroup : Z) (res : option tempopb_Trace) :
  returns (probe b T) mins true mins1 ->
  pf b = Some f ->
  GetColumnIndexByPath f TraceIDColumnName <> -1 ->
  returns (binarySearch (Z.of_nat (length (RowGroups f)))
             (compareRowGroup Trace_TraceID f T
                (Z.of_nat (length (RowGroups f)))))
          (makeRowGroupMins (meta b) (Z.of_nat (length (RowGroups f))))
          rowGroup mins2 ->
  returns (scan f T rowGroup) mins2 res mins3 ->
  returns (find b T) mins res mins3.
Proof.
  intros Hp Hpf Hcol Hsearch Hscan. unfold FindTraceByID.
  eapply returns_bind; [exact Hp|]. cbn [negb].
  eapply returns_bind.
  { apply returns_mapError. unfold openForSearch.
    eapply returns_bind; [apply returns_emit|]. rewrite Hpf.
    apply returns_ret. }
  cbn beta zeta.
  replace (_ =? -1) with false by (symmetry; now apply Z.eqb_neq).
  eapply returns_bind; [apply returns_setMins|].
  eapply returns_bind; [apply returns_mapError; exact Hsearch|].
  exact Hscan.
Qed.

(** *** The invariants and the order of the bounds *)

Lemma I2_bracket b f (k : nat) (rg : list Trace) (tr : Trace) :
  I2 Trace_TraceID b f -> RowGroups f !! k = Some rg -> In tr rg ->
  bracket b f (Trace_TraceID tr) k.
Proof.
  intros HI2 Hrg Hin. destruct (HI2 k rg Hrg) as (lo & hi & Hlo & Hhi & H).
  exists lo, hi. split; [exact Hlo|]. split; [exact Hhi|]. now apply H.
Qed.

Lemma I2_ordered b f :
  I2 Trace_TraceID b f -> (forall rg, In rg (RowGroups f) -> rg <> []) ->
  ordered b f.
Proof.
  intros HI2 Hne k Hk.
  destruct (lookup_lt_is_Some_2 (RowGroups f) k Hk) as [rg Hrg].
  destruct (HI2 k rg Hrg) as (lo & hi & Hlo & Hhi & H).
  exists lo, hi. split; [exact Hlo|]. split; [exact Hhi|].
  destruct rg as [|tr rg].
  - exfalso. apply (Hne []); [|reflexivity].
    apply list_elem_of_In. eapply list_elem_of_lookup_2. exact Hrg.
  - destruct (H tr (or_introl eq_refl)) as [Hl Hh].
    destruct (bool_decide (S k = length (RowGroups f))).
    + eapply ID_le_trans; eauto.
    + eapply ID_le_lt_trans; eauto.
Qed.

(** I1 follows from I2 when no row group is empty. *)
Lemma I2_implies_I1 b f :
  I2 Trace_TraceID b f -> (forall rg, In rg (RowGroups f) -> rg <> []) ->
  I1 Trace_TraceID f.
Proof.
  intros HI2 Hne k k' rg rg' tr tr' Hlt Hk Hk' Htr Htr'.
  pose proof (I2_ordered b f HI2 Hne) as Hord.
  pose proof (lookup_lt_Some _ _ _ Hk') as Hk'n.
  pose proof (I2_bracket b f k rg tr HI2 Hk Htr) as HB.
  pose proof (I2_bracket b f k' rg' tr' HI2 Hk' Htr') as HB'.
  apply bracket_bounds in HB; [|exact Hord|lia].
  apply bracket_bounds in HB'; [|exact Hord|lia].
  destruct HB as [_ Hhi]. destruct HB' as [Hlo _].
  rewrite bool_decide_eq_false_2 in Hhi by lia.
  apply ID_lt_le. eapply ID_lt_le_trans; [exact Hhi|].
  eapply ID_le_trans; [|exact Hlo].
  apply bound_mono_le; [exact Hord|lia|lia].
Qed.

(** Where the first row of a row group carries its least id, the bound
    that the lookup loads is the bound of the design document. *)
Lemma leastBound_rowGroupMin b f (k : nat) (lo : ID) :
  firstRowLeast Trace_TraceID f ->
  leastBound Trace_TraceID b f k lo ->
  rowGroupMin Trace_TraceID b f k = Some lo.
Proof.
  intros Hfirst. unfold leastBound, rowGroupMin.
  destruct (bool_decide (k = 0%nat)) eqn:E0; [now intros ->|].
  destruct (bool_decide (k = length (RowGroups f))); [now intros ->|].
  apply bool_decide_eq_false in E0.
  intros (rg & Hrg & (tr & Htr & Hid) & Hleast). rewrite Hrg.
  destruct rg as [|row rest]; [destruct Htr|].
  f_equal. apply ID_le_antisym.
  - rewrite <- Hid. destruct Htr as [<-|Htr]; [apply ID_le_refl|].
    apply (Hfirst k row rest); [lia|exact Hrg|exact Htr].
  - apply Hleast. now left.
Qed.

(** (I2) as the design document words it gives (I2) over the bounds of
    the lookup once the first rows carry the least ids. *)
Lemma I2_least_first_row b f :
  firstRowLeast Trace_TraceID f ->
  I2_least Trace_TraceID b f -> I2 Trace_TraceID b f.
Proof.
  intros Hfirst HI2 k rg Hrg.
  destruct (HI2 k rg Hrg) as (lo & hi & Hlo & Hhi & H).
  exists lo, hi.
  split; [now apply leastBound_rowGroupMin|].
  split; [now apply leastBound_rowGroupMin|exact H].
Qed.

Lemma minsAscending_ordered b f :
  minsAscending Trace_TraceID b f -> ordered b f.
Proof.
  intros Hasc k Hk. destruct (Hasc k Hk) as (lo & hi & Hlo & Hhi & H).
  exists lo, hi. split; [exact Hlo|]. split; [exact Hhi|].
  destruct (bool_decide _); [now apply ID_lt_le|exact H].
Qed.

Lemma length_concat_nonempty (rgs : list (list Trace)) :
  (forall rg, In rg rgs -> rg <> []) ->
  (length rgs <= length (concat rgs))%nat.
Proof.
  induction rgs as [|rg rgs IH]; intros Hne; [cbn; lia|].
  cbn [concat length]. rewrite length_app.
  assert (length rg <> 0%nat).
  { destruct rg; [|discriminate]. now destruct (Hne [] (or_introl eq_refl)). }
  assert (length rgs <= length (concat rgs))%nat
    by (apply IH; intros rg' Hin; apply Hne; now right).
  lia.
Qed.

(** ** The lookup by trace id *)

(** C1.  On a readable block, whose [minID] has a byte, that satisfies
    I1 and I2 over the bounds of the lookup ([minID], then the id of
    the first row of each further row group, then [maxID]) and whose
    bloom filters have no false negative, [FindTraceByID] returns, for
    every trace id, with a nil error; the trace it returns is non-nil
    exactly when the id is stored in the block, and is then the trace
    of a row with that id.  An id that is not stored gives
    [(nil, nil)], also when its bloom filter reports a hit. *)
Theorem C1_FindTraceByID_iff_stored b f T (mins0 : list ID) :
  readable b f -> sound b f ->
  I1 Trace_TraceID f -> I2 Trace_TraceID b f ->
  exists res mins',
    returns (find b T) mins0 res mins' /\
    (res <> None <-> stored Trace_TraceID f T) /\
    (forall found, res = Some found ->
       exists rg tr, In rg (RowGroups f) /\ In tr rg /\
                     Trace_TraceID tr = T /\
                     found = parquetTraceToTempopbTrace tr).
Proof.
  intros [Hpf Hcol Hne Hmin Hrows] Hsound _ HI2.
  pose proof (I2_ordered b f HI2 Hne) as Hord.
  pose proof (length_concat_nonempty _ Hne) as Hlen.
  assert (Hsmall : Z.of_nat (length (RowGroups f)) < 2 ^ 63 - 1) by lia.
  assert (Hstored : forall rg tr, In rg (RowGroups f) -> In tr rg ->
            exists k, RowGroups f !! k = Some rg /\
                      (k < length (RowGroups f))%nat /\
                      bracket b f (Trace_TraceID tr) k).
  { intros rg tr Hrg Htr. apply list_elem_of_In in Hrg.
    apply list_elem_of_lookup_1 in Hrg. destruct Hrg as [k Hk]. exists k.
    split; [exact Hk|]. split; [eapply lookup_lt_Some; exact Hk|].
    eapply I2_bracket; eauto. }
  destruct (checkBloom_sound b f T mins0 Hsound) as (found & Hprobe & Hfound).
  destruct found.
  2:{ exists None, mins0. split; [|split].
      - exists [EvRead (bloomOf b T)]. now apply FindTraceByID_miss.
      - split; [congruence|]. intros Hst. now specialize (Hfound Hst).
      - discriminate. }
  destruct (search_returns b f T Hord Hmin Hsmall)
    as (rowGroup & mins1 & Hsearch & Hres).
  destruct Hres as [->|(k & -> & Hk & HB)].
  - exists None, mins1. split; [|split].
    + eapply (FindTraceByID_hit b f T mins0 mins0 mins1 mins1 (-1) None);
        [eexists; exact Hprobe|exact Hpf|exact Hcol|exact Hsearch|
         apply scanRowGroup_none].
    + split; [congruence|]. intros (rg & tr & Hrg & Htr & <-).
      destruct (Hstored rg tr Hrg Htr) as (k & _ & Hk & HB).
      destruct (search_found b f _ Hord Hmin Hsmall k Hk HB) as [mins2 Hret].
      destruct (returns_inj _ _ _ _ _ _ Hsearch Hret) as [Heq _]. lia.
    + discriminate.
  - destruct (lookup_lt_is_Some_2 (RowGroups f) k Hk) as [rg Hrg].
    destruct (scanRowGroup_spec f T k rg mins1 Hrows Hrg) as (res & Hscan & Hspec).
    exists res, mins1. split; [|split].
    + eapply (FindTraceByID_hit b f T mins0 mins0 mins1 mins1 (Z.of_nat k));
        [eexists; exact Hprobe|exact Hpf|exact Hcol|exact Hsearch|exact Hscan].
    + destruct res as [found|].
      * split; [intros _|congruence].
        destruct Hspec as (tr & Htr & Hid & _). exists rg, tr.
        split; [|auto].
        apply list_elem_of_In. eapply list_elem_of_lookup_2. exact Hrg.
      * split; [congruence|]. intros (rg' & tr & Hrg' & Htr & <-).
        destruct (Hstored rg' tr Hrg' Htr) as (k' & Hk'rg & Hk' & HB').
        assert (k' = k) by (eapply bracket_unique; eauto). subst k'.
        rewrite Hrg in Hk'rg. inversion Hk'rg; subst rg'.
        now destruct (Hspec tr Htr).
    + intros found ->. destruct Hspec as (tr & Htr & Hid & Hconv).
      exists rg, tr. split; [|auto].
      apply list_elem_of_In. eapply list_elem_of_lookup_2. exact Hrg.
Qed.

(** C2.  On a block whose bounds [minID < mins 1 < ... < maxID] are
    strictly ascending and whose [minID] has a byte, the brackets of
    the row groups are disjoint; an
    id between [minID] and [maxID], both included, is in the bracket of
    a row group; the search over the comparator of [FindTraceByID]
    returns the index of the row group whose bracket has the id (the
    lower bound of a bracket belongs to it, the upper bound to the next
    row group, and [maxID] to the last one); for an id below [minID] or
    above [maxID] the search returns -1 and [FindTraceByID] returns
    [(nil, nil)]; the comparator returns 0 at no more than one index. *)
Theorem C2_bracket_search b f T :
  minsAscending Trace_TraceID b f ->
  MinID (meta b) <> [] ->
  Z.of_nat (length (RowGroups f)) < 2 ^ 63 - 1 ->
  let n := Z.of_nat (length (RowGroups f)) in
  let search := binarySearch n (compareRowGroup Trace_TraceID f T n) in
  let fresh := makeRowGroupMins (meta b) n in
  (forall k k', (k < length (RowGroups f))%nat ->
     (k' < length (RowGroups f))%nat ->
     bracket b f T k -> bracket b f T k' -> k = k') /\
  ((0 < length (RowGroups f))%nat ->
   ID_le (MinID (meta b)) T -> ID_le T (MaxID (meta b)) ->
   exists k, (k < length (RowGroups f))%nat /\ bracket b f T k) /\
  (forall k, (k < length (RowGroups f))%nat -> bracket b f T k ->
     exists mins', returns search fresh (Z.of_nat k) mins') /\
  (ID_lt T (MinID (meta b)) \/ ID_lt (MaxID (meta b)) T ->
   (exists mins', returns search fresh (-1) mins') /\
   (pf b = Some f -> GetColumnIndexByPath f TraceIDColumnName <> -1 ->
    forall mins0 found mins1, returns (probe b T) mins0 found mins1 ->
      exists mins', returns (find b T) mins0 None mins')) /\
  (forall k k' mins mins1 mins' mins1',
     (k < length (RowGroups f))%nat -> (k' < length (RowGroups f))%nat ->
     cached b f mins -> cached b f mins' ->
     returns (compareRowGroup Trace_TraceID f T n (Z.of_nat k)) mins 0 mins1 ->
     returns (compareRowGroup Trace_TraceID f T n (Z.of_nat k')) mins' 0 mins1' ->
     k = k').
Proof.
  intros Hasc Hmin Hsmall n search fresh.
  pose proof (minsAscending_ordered b f Hasc) as Hord.
  split; [|split; [|split; [|split]]].
  - intros k k' Hk Hk'. now apply bracket_unique.
  - now apply bracket_exists.
  - intros k Hk HB. now apply (search_found b f T Hord Hmin Hsmall).
  - intros Hout.
    destruct (search_outside b f T Hord Hmin Hsmall Hout) as [mins2 Hret].
    split; [now exists mins2|].
    intros Hpf Hcol mins0 found mins1 Hprobe. destruct found.
    + exists mins2.
      eapply (FindTraceByID_hit b f T mins0 mins1 mins2 mins2 (-1) None);
        [exact Hprobe|exact Hpf|exact Hcol|exact Hret|
         apply scanRowGroup_none].
    + exists mins1. destruct Hprobe as [evs Hprobe]. exists evs.
      now apply FindTraceByID_miss.
  - intros k k' mins mins1 mins' mins1' Hk Hk' Hc Hc' Hret Hret'.
    destruct (compareRowGroup_returns b f T k mins Hord Hc Hk Hsmall)
      as (m & Hr & _).
    destruct (compareRowGroup_returns b f T k' mins' Hord Hc' Hk' Hsmall)
      as (m' & Hr' & _).
    destruct (returns_inj _ _ _ _ _ _ Hret Hr) as [Hz _].
    destruct (returns_inj _ _ _ _ _ _ Hret' Hr') as [Hz' _].
    apply (bracket_unique b f T k k' Hord Hk Hk');
      apply comparatorAt_zero; auto.
Qed.

(** C3.  In every run of [FindTraceByID] the first call into the
    stores is the read of the bloom shard of the id; when the probe
    reports a miss, [FindTraceByID] returns [(nil, nil)] and that read
    is the only call: the columnar file is not opened. *)
Theorem C3_bloom_miss_does_not_open b T (mins0 : list ID) :
  (exists o mins' evs,
     find b T mins0 = (o, mins', EvRead (bloomOf b T) :: evs)) /\
  (forall mins1 evs,
     probe b T mins0 = (Return false, mins1, evs) ->
     find b T mins0 = (Return None, mins1, evs) /\
     evs = [EvRead (bloomOf b T)] /\
     ~ In EvOpenColumnar evs).
Proof.
  destruct (checkBloom_events b T mins0) as [o Ho]. split.
  - unfold FindTraceByID. eapply bind_first_event. exact Ho.
  - intros mins1 evs Hp. split; [now apply FindTraceByID_miss|].
    rewrite Hp in Ho. inversion Ho; subst. split; [reflexivity|].
    intros [H|[]]. discriminate H.
Qed.

End Lookup.

(** ** The lookups on the block of [example_blocks] *)

Import example_blocks.

(** The id at the seam is found in row group 1, the largest id in row
    group 2; an id between two stored ids passes the bloom filter and
    is not found; an id above [maxID] that passes the bloom filter is
    not found either. *)
Example seam_0x10 :
  find [x10] [] =
  (Return (Some 2%nat), [[x00]; [x10]; []; [x2f]],
   [EvRead "bloom-1"; EvOpenColumnar;
    EvIterOpen 1 None; EvIterClose 1;
    EvIterOpen 1 (Some [x10]); EvSeekToRow 2; EvReadRow; EvIterClose 1]).
Proof. vm_compute. reflexivity. Qed.

Example seam_0x2f : fst (fst (find [x2f] [])) = Return (Some 5%nat).
Proof. vm_compute. reflexivity. Qed.

Example seam_0x0f :
  find [x0f] [] =
  (Return None, [[x00]; [x10]; []; [x2f]],
   [EvRead "bloom-0"; EvOpenColumnar;
    EvIterOpen 1 None; EvIterClose 1;
    EvIterOpen 0 (Some [x0f]); EvIterClose 0]).
Proof. vm_compute. reflexivity. Qed.

Example seam_above :
  fst (fst (find [x2f; x00] [])) = Return None.
Proof. vm_compute. reflexivity. Qed.

Lemma seam_readable : readable seamBlock seamFile.
Proof.
  constructor.
  - reflexivity.
  - vm_compute. discriminate.
  - intros rg [<-|[<-|[<-|[]]]]; discriminate.
  - discriminate.
  - vm_compute. reflexivity.
Qed.

Lemma seam_bloomSound :
  bloomSound Trace_TraceID BloomFilter_ReadFrom BloomFilter_Test
    ShardKeyForTraceID BloomName seamBlock seamFile.
Proof.
  intros T.
  destruct (ShardKeyForTraceID T (BloomShardCount (meta seamBlock)) =? 0)
    eqn:E.
  - exists [x00; x02], [0%N; 2%N]. unfold BloomName. rewrite E.
    split; [reflexivity|]. split; [reflexivity|].
    intros (rg & tr & Hrg & Htr & <-).
    destruct Hrg as [<-|[<-|[<-|[]]]]; destruct Htr as [<-|[<-|[]]];
      vm_compute in E; try discriminate E; reflexivity.
  - exists [x01], [1%N]. unfold BloomName. rewrite E.
    split; [reflexivity|]. split; [reflexivity|].
    intros (rg & tr & Hrg & Htr & <-).
    destruct Hrg as [<-|[<-|[<-|[]]]]; destruct Htr as [<-|[<-|[]]];
      vm_compute in E; try discriminate E; reflexivity.
Qed.

Lemma seam_I1 : I1 Trace_TraceID seamFile.
Proof.
  intros k k' rg rg' tr tr' Hlt Hk Hk' Htr Htr'.
  destruct k as [|[|[|k]]]; destruct k' as [|[|[|k']]]; try lia;
    cbn in Hk, Hk'; try discriminate;
    inversion Hk; inversion Hk'; subst;
    destruct Htr as [<-|[<-|[]]]; destruct Htr' as [<-|[<-|[]]];
    vm_compute; discriminate.
Qed.

Lemma seam_I2 : I2 Trace_TraceID seamBlock seamFile.
Proof.
  intros k rg Hk.
  destruct k as [|[|[|k]]]; cbn in Hk; try discriminate;
    inversion Hk; subst;
    (eexists _, _; split; [reflexivity|]; split; [reflexivity|]);
    intros tr [<-|[<-|[]]]; vm_compute;
    (split; [discriminate|first [reflexivity|discriminate]]).
Qed.

Lemma seam_ascending : minsAscending Trace_TraceID seamBlock seamFile.
Proof.
  intros k Hk.
  destruct k as [|[|[|k]]]; [| | |cbn in Hk; lia];
    (eexists _, _; split; [reflexivity|]; split; [reflexivity|]);
    reflexivity.
Qed.

Lemma C1_FindTraceByID_iff_stored_witness :
  exists res mins',
    returns (find [x10]) [] res mins' /\
    (res <> None <-> stored Trace_TraceID seamFile [x10]) /\
    (forall found, res = Some found ->
       exists rg tr, In rg (RowGroups seamFile) /\ In tr rg /\
                     Trace_TraceID tr = [x10] /\
                     found = parquetTraceToTempopbTrace tr).
Proof.
  apply (C1_FindTraceByID_iff_stored Trace_TraceID parquetTraceToTempopbTrace
           BloomFilter_ReadFrom BloomFilter_Test ShardKeyForTraceID BloomName
           seamBlock seamFile [x10] []).
  - exact seam_readable.
  - exact seam_bloomSound.
  - exact seam_I1.
  - exact seam_I2.
Defined.

Lemma C2_bracket_search_witness :
  (exists mins',
     returns (binarySearch 3 (compareRowGroup Trace_TraceID seamFile [x10] 3))
             (makeRowGroupMins (meta seamBlock) 3) 1 mins') /\
  (exists mins', returns (find [x30]) [] None mins').
Proof.
  split.
  - destruct (C2_bracket_search Trace_TraceID parquetTraceToTempopbTrace
                BloomFilter_ReadFrom BloomFilter_Test ShardKeyForTraceID
                BloomName seamBlock seamFile [x10])
      as (_ & _ & Hfound & _).
    + exact seam_ascending.
    + discriminate.
    + vm_compute. reflexivity.
    + apply (Hfound 1%nat).
      * cbn. lia.
      * exists [x10], [x20]. vm_compute. repeat split; discriminate.
  - destruct (C2_bracket_search Trace_TraceID parquetTraceToTempopbTrace
                BloomFilter_ReadFrom BloomFilter_Test ShardKeyForTraceID
                BloomName seamBlock seamFile [x30])
      as (_ & _ & _ & Hout & _).
    + exact seam_ascending.
    + discriminate.
    + vm_compute. reflexivity.
    + destruct Hout as [_ Hfind].
      * right. vm_compute. reflexivity.
      * apply (Hfind eq_refl ltac:(vm_compute; discriminate) [] false []).
        eexists. vm_compute. reflexivity.
Defined.

Lemma C3_bloom_miss_does_not_open_witness :
  find [x30] [] = (Return None, [], [EvRead "bloom-1"]) /\
  [EvRead "bloom-1"] = [EvRead "bloom-1"] /\
  ~ In EvOpenColumnar [EvRead "bloom-1"].
Proof.
  apply (proj2 (C3_bloom_miss_does_not_open Trace_TraceID
                  parquetTraceToTempopbTrace BloomFilter_ReadFrom
                  BloomFilter_Test ShardKeyForTraceID BloomName
                  seamBlock [x30] [])).
  vm_compute. reflexivity.
Defined.

(** ** Blocks on which the lookup misses *)

(** The sidecars of [example_blocks] have no false negative on a file
    whose ids begin with a byte below 0x30. *)
Lemma blocks_bloomSound (minID maxID : ID) (f : parquetFile Trace) :
  (forall T, stored Trace_TraceID f T -> (hash T < 3)%N) ->
  bloomSound Trace_TraceID BloomFilter_ReadFrom BloomFilter_Test
    ShardKeyForTraceID BloomName (blockOf minID maxID sidecars (Some f)) f.
Proof.
  intros Hst T.
  destruct (ShardKeyForTraceID T 2 =? 0) eqn:E.
  - exists [x00; x02], [0%N; 2%N]. cbn. unfold BloomName. rewrite E.
    split; [reflexivity|]. split; [reflexivity|].
    intros HT. specialize (Hst T HT). unfold BloomFilter_Test. cbn.
    unfold ShardKeyForTraceID in E.
    destruct (hash T) as [|[[|[]|]|[|[]|]|]]; try lia; try reflexivity;
      vm_compute in E; discriminate E.
  - exists [x01], [1%N]. cbn. unfold BloomName. rewrite E.
    split; [reflexivity|]. split; [reflexivity|].
    intros HT. specialize (Hst T HT). unfold BloomFilter_Test. cbn.
    unfold ShardKeyForTraceID in E.
    destruct (hash T) as [|[[|[]|]|[|[]|]|]]; try lia; try reflexivity;
      vm_compute in E; discriminate E.
Qed.

Lemma unsorted_readable : readable unsortedBlock unsortedFile.
Proof.
  constructor.
  - reflexivity.
  - vm_compute. discriminate.
  - intros rg [<-|[<-|[]]]; discriminate.
  - discriminate.
  - vm_compute. reflexivity.
Qed.

Lemma unsorted_I1 : I1 Trace_TraceID unsortedFile.
Proof.
  intros k k' rg rg' tr tr' Hlt Hk Hk' Htr Htr'.
  destruct k as [|[|k]]; destruct k' as [|[|k']]; try lia;
    cbn in Hk, Hk'; try discriminate;
    inversion Hk; inversion Hk'; subst;
    destruct Htr as [<-|[<-|[]]]; destruct Htr' as [<-|[<-|[]]];
    vm_compute; discriminate.
Qed.

Lemma unsorted_I2_least : I2_least Trace_TraceID unsortedBlock unsortedFile.
Proof.
  intros k rg Hk.
  destruct k as [|[|k]]; cbn in Hk; try discriminate; inversion Hk; subst.
  - exists [x00], [x10]. split; [reflexivity|]. split.
    + eexists. split; [reflexivity|]. split.
      * exists ([x10], 3%nat). split; [right; now left|reflexivity].
      * intros tr [<-|[<-|[]]]; vm_compute; discriminate.
    + intros tr [<-|[<-|[]]]; vm_compute; (split; [discriminate|reflexivity]).
  - exists [x10], [x15]. split.
    + eexists. split; [reflexivity|]. split.
      * exists ([x10], 3%nat). split; [right; now left|reflexivity].
      * intros tr [<-|[<-|[]]]; vm_compute; discriminate.
    + split; [reflexivity|].
      intros tr [<-|[<-|[]]]; vm_compute; (split; discriminate).
Qed.

(** The bound that the lookup loads for row group 1 of [unsortedFile]
    is 0x15: over these bounds the block does not satisfy (I2). *)
Lemma unsorted_not_I2 : ~ I2 Trace_TraceID unsortedBlock unsortedFile.
Proof.
  intros H. destruct (H 1%nat _ eq_refl) as (lo & hi & Hlo & _ & Hin).
  inversion Hlo; subst lo.
  destruct (Hin ([x10], 3%nat)) as [Hle _]; [right; now left|].
  vm_compute in Hle. now apply Hle.
Qed.

Lemma noMin_I1 : I1 Trace_TraceID noMinFile.
Proof.
  intros k k' rg rg' tr tr' Hlt Hk Hk' Htr Htr'.
  destruct k as [|k]; destruct k' as [|k']; try lia;
    cbn in Hk, Hk'; discriminate.
Qed.

Lemma noMin_I2 : I2 Trace_TraceID noMinBlock noMinFile.
Proof.
  intros k rg Hk.
  destruct k as [|k]; cbn in Hk; try discriminate; inversion Hk; subst.
  exists [], [x05]. split; [reflexivity|]. split; [reflexivity|].
  intros tr [<-|[<-|[<-|[]]]]; vm_compute; (split; discriminate).
Qed.

Lemma noMin_I2_least : I2_least Trace_TraceID noMinBlock noMinFile.
Proof.
  intros k rg Hk.
  destruct k as [|k]; cbn in Hk; try discriminate; inversion Hk; subst.
  exists [], [x05]. split; [reflexivity|]. split; [reflexivity|].
  intros tr [<-|[<-|[<-|[]]]]; vm_compute; (split; discriminate).
Qed.

(** C1, as stated, fails on two blocks that satisfy (I1) and (I2) as
    the design document words them and whose bloom filters have no
    false negative.  In [unsortedBlock], a readable block, the stored
    id 0x10 is the least id of row group 1 and not the id of its first
    row: the lookup takes 0x15 for the bound, searches row group 0 and
    returns [(nil, nil)].  In [noMinBlock] the [minID] has no byte: the
    lookup takes it for a bound that is not loaded, reads the id 0x05
    of the first row in its place and returns [(nil, nil)] for the
    stored id 0x03. *)
Lemma C1_counterexample :
  (readable unsortedBlock unsortedFile /\
   bloomSound Trace_TraceID BloomFilter_ReadFrom BloomFilter_Test
     ShardKeyForTraceID BloomName unsortedBlock unsortedFile /\
   I1 Trace_TraceID unsortedFile /\
   I2_least Trace_TraceID unsortedBlock unsortedFile /\
   stored Trace_TraceID unsortedFile [x10] /\
   findIn unsortedBlock [x10] []
   = (Return None, [[x00]; [x15]; [x15]],
      [EvRead "bloom-1"; EvOpenColumnar;
       EvIterOpen 1 None; EvIterClose 1;
       EvIterOpen 0 (Some [x10]); EvIterClose 0])) /\
  (pf noMinBlock = Some noMinFile /\
   GetColumnIndexByPath noMinFile TraceIDColumnName <> -1 /\
   (forall rg, In rg (RowGroups noMinFile) -> rg <> []) /\
   Z.of_nat (length (concat (RowGroups noMinFile))) < 2 ^ 63 - 1 /\
   bloomSound Trace_TraceID BloomFilter_ReadFrom BloomFilter_Test
     ShardKeyForTraceID BloomName noMinBlock noMinFile /\
   I1 Trace_TraceID noMinFile /\
   I2 Trace_TraceID noMinBlock noMinFile /\
   I2_least Trace_TraceID noMinBlock noMinFile /\
   stored Trace_TraceID noMinFile [x03] /\
   findIn noMinBlock [x03] []
   = (Return None, [[x05]; [x05]],
      [EvRead "bloom-0"; EvOpenColumnar;
       EvIterOpen 0 None; EvIterClose 0])).
Proof.
  split.
  - split; [exact unsorted_readable|].
    split.
    { apply blocks_bloomSound. intros T (rg & tr & Hrg & Htr & <-).
      destruct Hrg as [<-|[<-|[]]]; destruct Htr as [<-|[<-|[]]];
        vm_compute; reflexivity. }
    split; [exact unsorted_I1|]. split; [exact unsorted_I2_least|].
    split; [|vm_compute; reflexivity].
    exists [([x15], 2%nat); ([x10], 3%nat)], ([x10], 3%nat).
    split; [right; now left|]. split; [right; now left|reflexivity].
  - split; [reflexivity|]. split; [vm_compute; discriminate|].
    split; [intros rg [<-|[]]; discriminate|].
    split; [vm_compute; reflexivity|].
    split.
    { apply blocks_bloomSound. intros T (rg & tr & Hrg & Htr & <-).
      destruct Hrg as [<-|[]]; destruct Htr as [<-|[<-|[<-|[]]]];
        vm_compute; reflexivity. }
    split; [exact noMin_I1|]. split; [exact noMin_I2|].
    split; [exact noMin_I2_least|].
    split; [|vm_compute; reflexivity].
    exists [([x05], 0%nat); ([], 1%nat); ([x03], 2%nat)], ([x03], 2%nat).
    split; [now left|]. split; [right; right; now left|reflexivity].
Qed.

(** C2, as stated, fails on [emptyMinBlock]: its bounds
    [[] < 0x10 < 0x20] are strictly ascending and the id 0x03 is in the
    bracket of row group 0, but the search returns -1.  The comparator
    takes the [minID] without bytes for a bound that is not loaded and
    reads the id 0x05 of the first row of row group 0 in its place. *)
Lemma C2_counterexample :
  minsAscending Trace_TraceID emptyMinBlock emptyMinFile /\
  Z.of_nat (length (RowGroups emptyMinFile)) < 2 ^ 63 - 1 /\
  inBracket Trace_TraceID emptyMinBlock emptyMinFile [x03] 0 /\
  binarySearch 2 (compareRowGroup Trace_TraceID emptyMinFile [x03] 2)
    (makeRowGroupMins (meta emptyMinBlock) 2)
  = (Return (-1), [[x05]; [x10]; [x20]],
     [EvIterOpen 1 None; EvIterClose 1; EvIterOpen 0 None; EvIterClose 0]).
Proof.
  split.
  { intros k Hk.
    destruct k as [|[|k]]; [| |cbn in Hk; lia];
      (eexists _, _; split; [reflexivity|]; split; [reflexivity|]);
      reflexivity. }
  split; [vm_compute; reflexivity|].
  split; [|vm_compute; reflexivity].
  exists [], [x10]. split; [reflexivity|]. split; [reflexivity|].
  vm_compute. split; [discriminate|reflexivity].
Qed.

End vparquet_spec.

(* ===================================================================== *)
(** * Further properties of package traceql                               *)
(* ===================================================================== *)

Module traceql_more.

Import traceql.

(** ** Statics and attributes *)

Lemma SFeqb_sym (x y : SpecFloat.spec_float) :
  SpecFloat.SFeqb x y = SpecFloat.SFeqb y x.
Proof.
  unfold SpecFloat.SFeqb.
  destruct x as [sx|sx| |sx mx ex], y as [sy|sy| |sy my ey]; cbn;
    try reflexivity; try (destruct sx; reflexivity);
    try (destruct sy; reflexivity);
    try (destruct sx, sy; reflexivity).
  destruct sx, sy; try reflexivity;
    rewrite (Z.compare_antisym ex ey);
    destruct (ex ?= ey)%Z; cbn; try reflexivity;
    change (PosDef.Pos.compare_cont Eq my mx) with (Pos.compare my mx);
    change (PosDef.Pos.compare_cont Eq mx my) with (Pos.compare mx my);
    rewrite (Pos.compare_antisym mx my);
    destruct (Pos.compare mx my); reflexivity.
Qed.

Lemma Static_struct_eq_sym (s other : Static) :
  Static_struct_eq s other = Static_struct_eq other s.
Proof.
  unfold Static_struct_eq.
  rewrite (Z.eqb_sym (Static_N s)), (Z.eqb_sym (Static_D s)),
    (Z.eqb_sym (Static_Status s)), (String.eqb_sym (Static_S s)).
  rewrite !FloatAxioms.eqb_spec, (SFeqb_sym (Prim2SF (Static_F s))).
  replace (bool_decide (Static_Type s = Static_Type other))
    with (bool_decide (Static_Type other = Static_Type s))
    by (apply bool_decide_ext; split; congruence).
  now destruct (Static_B s), (Static_B other).
Qed.

(** [Static.Equals] does not depend on the order of its two
    arguments. *)
Theorem Static_Equals_sym (s other : Static) :
  Static_Equals s other = Static_Equals other s.
Proof.
  unfold Static_Equals.
  destruct (bool_decide (Static_Type s = TypeStatus)) eqn:Hss;
    destruct (bool_decide (Static_Type other = TypeInt)) eqn:Hoi;
    destruct (bool_decide (Static_Type other = TypeStatus)) eqn:Hos;
    destruct (bool_decide (Static_Type s = TypeInt)) eqn:Hsi;
    cbn [andb orb negb];
    try apply Static_struct_eq_sym;
    repeat match goal with
      | H : bool_decide _ = true |- _ => apply bool_decide_eq_true in H
      | H : bool_decide _ = false |- _ => apply bool_decide_eq_false in H
      end;
    try congruence;
    unfold Status_of_int; apply Z.eqb_sym.
Qed.

(** An attribute created with the scope [resource] or [span] is no
    intrinsic, whatever its name: its implied type is [TypeAttribute]. *)
Theorem NewScopedAttribute_scoped (intrinsicFromString : string -> Intrinsic)
    (scope : AttributeScope) (parent : bool) (att : string) :
  scope = AttributeScopeResource \/ scope = AttributeScopeSpan ->
  Attribute_Intrinsic (NewScopedAttribute intrinsicFromString scope parent att)
    = IntrinsicNone /\
  Attribute_impliedType
    (NewScopedAttribute intrinsicFromString scope parent att) = TypeAttribute.
Proof.
  intros [-> | ->]; split; reflexivity.
Qed.

Lemma NewScopedAttribute_scoped_witness :
  Attribute_Intrinsic
    (NewScopedAttribute (fun _ => IntrinsicDuration) AttributeScopeSpan
       false "duration") = IntrinsicNone /\
  Attribute_impliedType
    (NewScopedAttribute (fun _ => IntrinsicDuration) AttributeScopeSpan
       false "duration") = TypeAttribute.
Proof.
  apply (NewScopedAttribute_scoped (fun _ => IntrinsicDuration)
           AttributeScopeSpan false "duration").
  right. reflexivity.
Defined.

Section Tree.

Context {Operator Span SpansetMetadata : Type}.
Context (isBoolean : Operator -> bool).
Context (binaryTypesValid : Operator -> StaticType -> StaticType -> bool).
Context (unaryTypesValid : Operator -> StaticType -> bool).
Context (execute : FieldExpression Operator -> Span
                   -> result (error Operator) Static).

Local Abbreviation spanset := (Spanset Span SpansetMetadata).
Local Abbreviation evaluator :=
  (pipelineElement Operator -> list spanset
   -> result (error Operator) (list spanset)).
Local Abbreviation validateField :=
  (FieldExpression_validate isBoolean binaryTypesValid unaryTypesValid).
Local Abbreviation validateElement :=
  (pipelineElement_validate isBoolean binaryTypesValid unaryTypesValid).

(** ** Validation *)

Lemma referencesSpan_attribute (e : FieldExpression Operator) :
  FieldExpression_referencesSpan e = true <->
  exists a, subexpression (AttributeExpr _ a) e.
Proof.
  induction e as [op l IHl r IHr|op x IHx|s|a]; cbn.
  - rewrite orb_true_iff, IHl, IHr. split.
    + intros [[a H]|[a H]]; exists a; [now apply subexpression_LHS|
                                        now apply subexpression_RHS].
    + intros [a H]. inversion H; subst; eauto.
  - rewrite IHx. split.
    + intros [a H]. exists a. now apply subexpression_operand.
    + intros [a H]. inversion H; subst; eauto.
  - split; [discriminate|]. intros [a H]. inversion H.
  - split; [|reflexivity]. intros _. exists a. constructor.
Qed.

(** The expressions that reference the span are those with an
    attribute in them; a [GroupOperation] and an [Aggregate] over an
    expression without attribute never validate. *)
Theorem constant_expression_rejected (e : FieldExpression Operator) :
  (FieldExpression_referencesSpan e = true <->
   exists a, subexpression (AttributeExpr _ a) e) /\
  ((forall a, ~ subexpression (AttributeExpr _ a) e) ->
   GroupOperation_validate isBoolean binaryTypesValid unaryTypesValid
     (newGroupOperation e) <> None /\
   forall agg,
     Aggregate_validate isBoolean binaryTypesValid unaryTypesValid
       (newAggregate agg (Some e)) <> None).
Proof.
  split; [apply referencesSpan_attribute|].
  intros Hno.
  assert (Href : FieldExpression_referencesSpan e = false).
  { destruct (FieldExpression_referencesSpan e) eqn:E; [|reflexivity].
    apply referencesSpan_attribute in E. destruct E as [a Ha].
    now destruct (Hno a). }
  split.
  - unfold GroupOperation_validate. cbn. rewrite Href. discriminate.
  - intros agg. unfold Aggregate_validate. cbn.
    destruct (validateField e); [discriminate|].
    destruct (negb _ && negb _); [discriminate|].
    rewrite Href. discriminate.
Qed.

(** In an expression that validates, every node of the order of
    validation validates. *)
Lemma validationOrder_valid (e : FieldExpression Operator) :
  validateField e = None ->
  Forall (fun x => validateField x = None) (validationOrder e).
Proof.
  induction e as [op l IHl r IHr|op x IHx|s|a]; intros Hv; cbn [validationOrder].
  - pose proof Hv as Hnode. cbn in Hv.
    destruct (validateField l); [discriminate|].
    destruct (validateField r); [discriminate|].
    rewrite !Forall_app. repeat split; auto.
  - pose proof Hv as Hnode. cbn in Hv.
    destruct (validateField x); [discriminate|].
    rewrite Forall_app. split; auto.
  - auto.
  - auto.
Qed.

(** An error of the validation of a field expression is the error of
    the first node, in the order of validation (left operand, right
    operand, then the node), that does not validate: every node before
    it validates, the error is formatted with that node, a binary or
    unary operation whose operands validate. *)
Theorem FieldExpression_validate_error (e : FieldExpression Operator)
    (err : error Operator) :
  validateField e = Some err ->
  exists format pre e' post,
    validationOrder e = pre ++ e' :: post /\
    Forall (fun x => validateField x = None) pre /\
    err = Errorf format (FieldElement e') /\
    subexpression e' e /\
    validateField e' = Some err /\
    match e' with
    | BinaryOperation _ LHS RHS =>
        validateField LHS = None /\ validateField RHS = None
    | UnaryOperation _ Expression => validateField Expression = None
    | _ => False
    end.
Proof.
  induction e as [op l IHl r IHr|op x IHx|s|a]; intros Herr.
  - pose proof Herr as Hnode. cbn in Herr. cbn [validationOrder].
    destruct (validateField l) as [el|] eqn:Hl.
    { inversion Herr; subst el.
      destruct (IHl eq_refl) as (fmt & pre & e' & post & -> & Hpre & -> & Hsub & Hv & Hch).
      exists fmt, pre, e', (post ++ validationOrder r
                              ++ [BinaryOperation op l r]).
      split; [now rewrite <- app_assoc|].
      repeat split; auto. now apply subexpression_LHS. }
    destruct (validateField r) as [er|] eqn:Hr.
    { inversion Herr; subst er.
      destruct (IHr eq_refl) as (fmt & pre & e' & post & -> & Hpre & -> & Hsub & Hv & Hch).
      exists fmt, (validationOrder l ++ pre), e',
             (post ++ [BinaryOperation op l r]).
      split; [now rewrite <- !app_assoc|].
      split; [apply Forall_app; split;
              [now apply validationOrder_valid|exact Hpre]|].
      repeat split; auto. now apply subexpression_RHS. }
    destruct (negb (isMatchingOperand _ _)).
    { inversion Herr; subst.
      eexists _, (validationOrder l ++ validationOrder r), _, [].
      split; [now rewrite <- app_assoc|].
      split; [apply Forall_app; split; now apply validationOrder_valid|].
      repeat split; [constructor|exact Hnode|exact Hl|exact Hr]. }
    destruct (negb (binaryTypesValid _ _ _)); [|discriminate].
    inversion Herr; subst.
    eexists _, (validationOrder l ++ validationOrder r), _, [].
    split; [now rewrite <- app_assoc|].
    split; [apply Forall_app; split; now apply validationOrder_valid|].
    repeat split; [constructor|exact Hnode|exact Hl|exact Hr].
  - pose proof Herr as Hnode. cbn in Herr. cbn [validationOrder].
    destruct (validateField x) as [ex|] eqn:Hx.
    { inversion Herr; subst ex.
      destruct (IHx eq_refl) as (fmt & pre & e' & post & -> & Hpre & -> & Hsub & Hv & Hch).
      exists fmt, pre, e', (post ++ [UnaryOperation op x]).
      split; [now rewrite <- app_assoc|].
      repeat split; auto. now apply subexpression_operand. }
    destruct (bool_decide _); [discriminate|].
    destruct (negb (unaryTypesValid _ _)); [|discriminate].
    inversion Herr; subst.
    eexists _, (validationOrder x), _, [].
    split; [reflexivity|].
    split; [now apply validationOrder_valid|].
    repeat split; [constructor|exact Hnode|exact Hx].
  - discriminate.
  - discriminate.
Qed.
(** Validity is inherited: every node of a field expression that
    validates validates. *)
Theorem FieldExpression_validate_subexpression
    (e e' : FieldExpression Operator) :
  validateField e = None -> subexpression e' e -> validateField e' = None.
Proof.
  intros Hv Hsub. induction Hsub as [|op l r Hsub IH|op l r Hsub IH|op x Hsub IH].
  - exact Hv.
  - apply IH. cbn in Hv. now destruct (validateField l).
  - apply IH. cbn in Hv. destruct (validateField l); [discriminate|].
    now destruct (validateField r).
  - apply IH. cbn in Hv. now destruct (validateField x).
Qed.

(** [Pipeline.validate] succeeds exactly when every element validates,
    and fails with the error of the first element that does not. *)
Theorem Pipeline_validate_first_failure
    (validate : pipelineElement Operator -> option (error Operator))
    (p : Pipeline Operator) :
  (Pipeline_validate_with validate p = None <->
   Forall (fun e => validate e = None) p) /\
  (forall err, Pipeline_validate_with validate p = Some err ->
     exists pre e post,
       p = pre ++ e :: post /\
       Forall (fun e => validate e = None) pre /\
       validate e = Some err).
Proof.
  induction p as [|e p [IHnone IHsome]]; cbn.
  - split; [split; auto|discriminate].
  - destruct (validate e) as [err|] eqn:He.
    + split.
      * split; [discriminate|]. intros H. inversion H; congruence.
      * intros err' H. inversion H; subst err'.
        exists [], e, p. repeat split; auto.
    + split.
      * rewrite IHnone. split; [now constructor|]. intros H. now inversion H.
      * intros err H. destruct (IHsome err H) as (pre & e' & post & -> & Hpre & He').
        exists (e :: pre), e', post. repeat split; auto.
Qed.

(** A root expression validates as the element it is made from, and
    its pipeline evaluates as that element does. *)
Theorem newRootExpr_transparent (e : pipelineElement Operator) :
  RootExpr_validate isBoolean binaryTypesValid unaryTypesValid
    (newRootExpr e) = validateElement e /\
  (forall (evaluate : evaluator) input,
     (forall p ss, evaluate (PipelineElem p) ss
                   = Pipeline_evaluate_with evaluate p ss) ->
     Pipeline_evaluate_with evaluate (RootExpr_Pipeline (newRootExpr e)) input
     = evaluate e input).
Proof.
  split.
  - unfold RootExpr_validate, Pipeline_validate.
    destruct e; cbn; try reflexivity;
      match goal with |- match ?v with _ => _ end = _ => now destruct v end.
  - intros evaluate input Hpipe.
    destruct e; cbn [newRootExpr RootExpr_Pipeline newPipeline];
      try (symmetry; apply Hpipe);
      cbn; match goal with
           | |- match ?v with _ => _ end = _ =>
               destruct v as [[|ss res]|err]; reflexivity
           end.
Qed.

(** The implied type of a pipeline is that of its last element alone:
    after [addItem] of an aggregate it is the implied type of the
    aggregate, after [addItem] of any other element it is
    [TypeSpanset], whatever the pipeline was. *)
Theorem Pipeline_impliedType_addItem (p : Pipeline Operator)
    (i : pipelineElement Operator) :
  Pipeline_impliedType isBoolean (Pipeline_addItem p i) =
  match i with
  | AggregateElem a => Aggregate_impliedType isBoolean a
  | _ => TypeSpanset
  end.
Proof.
  unfold Pipeline_impliedType, Pipeline_addItem. rewrite last_snoc.
  reflexivity.
Qed.

(** The implied type of an aggregate that validates is [TypeAttribute]
    or a numeric type. *)
Theorem Aggregate_validated_type (a : Aggregate Operator) :
  Aggregate_validate isBoolean binaryTypesValid unaryTypesValid a = None ->
  Aggregate_impliedType isBoolean a = TypeAttribute \/
  isNumeric (Aggregate_impliedType isBoolean a) = true.
Proof.
  unfold Aggregate_validate, Aggregate_impliedType.
  destruct (bool_decide (Aggregate_agg a = aggregateCount));
    [intros _; now right|].
  destruct (Aggregate_e a) as [e|]; [|intros _; now right].
  destruct (validateField e); [discriminate|].
  destruct (bool_decide (FieldExpression_impliedType isBoolean e
                         = TypeAttribute)) eqn:Hattr; cbn.
  - apply bool_decide_eq_true in Hattr. auto.
  - destruct (isNumeric (FieldExpression_impliedType isBoolean e));
      [auto|discriminate].
Qed.

(** ** Evaluation *)

Lemma firstExecuteError_kept (f : SpansetFilter Operator) (spans : list Span) :
  firstExecuteError execute f (List.filter (keepsSpan execute f) spans) = None.
Proof.
  induction spans as [|sp spans IH]; cbn; [reflexivity|].
  destruct (keepsSpan execute f sp) eqn:Hk; [|exact IH].
  cbn. unfold keepsSpan in Hk.
  destruct (execute (SpansetFilter_Expression f) sp); [exact IH|discriminate].
Qed.

Lemma filter_filter {A : Type} (p : A -> bool) (l : list A) :
  List.filter p (List.filter p l) = List.filter p l.
Proof.
  induction l as [|x l IH]; cbn; [reflexivity|].
  destruct (p x) eqn:Hx; cbn; [|exact IH]. now rewrite Hx, IH.
Qed.

Lemma filterSpanset_spec_Some (f : SpansetFilter Operator) (ss os : spanset) :
  filterSpanset_spec execute f ss = Some os ->
  filterSpanset_spec execute f os = Some os /\
  firstExecuteError execute f (Spans os) = None.
Proof.
  unfold filterSpanset_spec.
  destruct (List.filter (keepsSpan execute f) (Spans ss)) as [|k ks] eqn:Hk;
    [discriminate|].
  intros H. inversion H; subst os. cbn [Spans Spanset_withSpans].
  rewrite <- Hk, filter_filter, Hk. split; [reflexivity|].
  rewrite <- Hk. apply firstExecuteError_kept.
Qed.

Lemma omap_filterSpanset_fixed (f : SpansetFilter Operator)
    (input : list spanset) :
  let out := omap (filterSpanset_spec execute f) input in
  omap (filterSpanset_spec execute f) out = out /\
  firstExecuteError execute f (concat (map Spans out)) = None.
Proof.
  induction input as [|ss input [IHo IHe]]; cbn; [auto|].
  destruct (filterSpanset_spec execute f ss) as [os|] eqn:Hss; [|auto].
  destruct (filterSpanset_spec_Some f ss os Hss) as [Hos Herr].
  cbn. rewrite Hos. split; [now f_equal|].
  rewrite traceql_spec.firstExecuteError_app, Herr. exact IHe.
Qed.

(** Filtering twice is filtering once: the output of
    [SpansetFilter.evaluate] is left as it is, without an error, when
    the same filter is evaluated on it. *)
Theorem SpansetFilter_evaluate_idempotent (f : SpansetFilter Operator)
    (input output : list spanset) :
  SpansetFilter_evaluate execute f input = Ok output ->
  SpansetFilter_evaluate execute f output = Ok output.
Proof.
  unfold SpansetFilter_evaluate.
  rewrite !traceql_spec.SpansetFilter_evaluate_loop_spec.
  destruct (firstExecuteError execute f (concat (map Spans input)));
    [discriminate|].
  intros H. inversion H; subst output. cbn [app].
  destruct (omap_filterSpanset_fixed f input) as [Ho He].
  now rewrite He, Ho.
Qed.

Lemma filter_length_le {A : Type} (p : A -> bool) (l : list A) :
  (length (List.filter p l) <= length l)%nat.
Proof.
  induction l as [|x l IH]; cbn; [lia|]. destruct (p x); cbn; lia.
Qed.

(** The output of [SpansetFilter.evaluate] has no more spansets than
    the input, and no more spans in all. *)
Theorem SpansetFilter_evaluate_shrinks (f : SpansetFilter Operator)
    (input output : list spanset) :
  SpansetFilter_evaluate execute f input = Ok output ->
  (length output <= length input)%nat /\
  (length (concat (map Spans output))
   <= length (concat (map Spans input)))%nat.
Proof.
  unfold SpansetFilter_evaluate.
  rewrite traceql_spec.SpansetFilter_evaluate_loop_spec.
  destruct (firstExecuteError execute f (concat (map Spans input)));
    [discriminate|].
  intros H. inversion H; subst output. clear H. cbn [app].
  induction input as [|ss input [IHl IHs]]; cbn; [lia|].
  destruct (filterSpanset_spec execute f ss) as [os|] eqn:Hss.
  - assert (Hos : (length (Spans os) <= length (Spans ss))%nat).
    { unfold filterSpanset_spec in Hss.
      pose proof (filter_length_le (keepsSpan execute f) (Spans ss)) as Hle.
      destruct (List.filter (keepsSpan execute f) (Spans ss)) as [|k ks];
        [discriminate|].
      inversion Hss; subst os. exact Hle. }
    cbn. rewrite !length_app. lia.
  - rewrite length_app. lia.
Qed.

(** [SpansetFilter.evaluate] works spanset by spanset: over the
    concatenation of two inputs it gives the concatenation of the two
    outputs, and fails with the first failure. *)
Theorem SpansetFilter_evaluate_app (f : SpansetFilter Operator)
    (input1 input2 : list spanset) :
  SpansetFilter_evaluate execute f (input1 ++ input2) =
  match SpansetFilter_evaluate execute f input1 with
  | Err err => Err err
  | Ok output1 =>
    match SpansetFilter_evaluate execute f input2 with
    | Err err => Err err
    | Ok output2 => Ok (output1 ++ output2)
    end
  end.
Proof.
  unfold SpansetFilter_evaluate.
  rewrite !traceql_spec.SpansetFilter_evaluate_loop_spec.
  rewrite map_app, concat_app, traceql_spec.firstExecuteError_app, omap_app.
  destruct (firstExecuteError execute f (concat (map Spans input1)));
    [reflexivity|].
  destruct (firstExecuteError execute f (concat (map Spans input2)));
    reflexivity.
Qed.

(** A pipeline made of two parts evaluates as the first part followed
    by the second on its output, except that an empty output of a
    first part that has an element ends the evaluation. *)
Theorem Pipeline_evaluate_app (evaluate : evaluator)
    (p q : Pipeline Operator) (input : list spanset) :
  Pipeline_evaluate_with evaluate (p ++ q) input =
  match Pipeline_evaluate_with evaluate p input with
  | Err err => Err err
  | Ok res =>
    match p, res with
    | _ :: _, [] => Ok []
    | _, _ => Pipeline_evaluate_with evaluate q res
    end
  end.
Proof.
  revert input. induction p as [|element p IH]; intros input.
  - cbn. now destruct input.
  - rewrite <- app_comm_cons, !traceql_spec.Pipeline_evaluate_with_cons.
    destruct (evaluate element input) as [[|ss res]|err]; try reflexivity.
    rewrite IH.
    destruct (Pipeline_evaluate_with evaluate p (ss :: res)) as [[|s r]|err]
      eqn:Hp; try reflexivity.
    + destruct p; [discriminate Hp|reflexivity].
    + now destruct p.
Qed.

End Tree.

(** ** The properties at the instances of [examples] *)

Import examples.

Lemma constant_expression_rejected_witness :
  GroupOperation_validate isBoolean binaryTypesValid unaryTypesValid
    (newGroupOperation (StaticExpr Operator (NewStaticInt 1))) <> None /\
  forall agg,
    Aggregate_validate isBoolean binaryTypesValid unaryTypesValid
      (newAggregate agg (Some (StaticExpr Operator (NewStaticInt 1)))) <> None.
Proof.
  apply (proj2 (constant_expression_rejected isBoolean binaryTypesValid
                  unaryTypesValid (StaticExpr Operator (NewStaticInt 1)))).
  intros a H. inversion H.
Defined.

Lemma FieldExpression_validate_error_witness :
  exists format pre e' post,
    validationOrder mismatchedTwice = pre ++ e' :: post /\
    Forall (fun x =>
              FieldExpression_validate isBoolean binaryTypesValid
                unaryTypesValid x = None) pre /\
    Errorf "binary operations must operate on the same type: %s"
      (FieldElement mismatched)
    = Errorf format (FieldElement e') /\
    subexpression e' mismatchedTwice /\
    FieldExpression_validate isBoolean binaryTypesValid unaryTypesValid e'
    = Some (Errorf "binary operations must operate on the same type: %s"
              (FieldElement mismatched)) /\
    match e' with
    | BinaryOperation _ LHS RHS =>
        FieldExpression_validate isBoolean binaryTypesValid unaryTypesValid
          LHS = None /\
        FieldExpression_validate isBoolean binaryTypesValid unaryTypesValid
          RHS = None
    | UnaryOperation _ Expression =>
        FieldExpression_validate isBoolean binaryTypesValid unaryTypesValid
          Expression = None
    | _ => False
    end.
Proof.
  apply (FieldExpression_validate_error isBoolean binaryTypesValid
           unaryTypesValid mismatchedTwice).
  reflexivity.
Defined.

Lemma Pipeline_validate_first_failure_witness :
  exists pre e post,
    [SpansetFilterElem filterTrue;
     GroupOperationElem (newGroupOperation mismatched);
     AggregateElem countAll]
    = pre ++ e :: post /\
    Forall (fun e => pipelineElement_validate isBoolean binaryTypesValid
                       unaryTypesValid e = None) pre /\
    pipelineElement_validate isBoolean binaryTypesValid unaryTypesValid e
    = Some (Errorf "grouping field expressions must reference the span: %s"
              (PipelineElement (GroupOperationElem
                                  (newGroupOperation mismatched)))).
Proof.
  apply (proj2 (Pipeline_validate_first_failure
                  (pipelineElement_validate isBoolean binaryTypesValid
                     unaryTypesValid) _)).
  reflexivity.
Defined.

Lemma newRootExpr_transparent_witness :
  Pipeline_evaluate_with (pipelineElement_evaluate execute)
    (RootExpr_Pipeline (newRootExpr (SpansetFilterElem filterAttribute)))
    someSpansets
  = pipelineElement_evaluate execute (SpansetFilterElem filterAttribute)
      someSpansets.
Proof.
  apply (proj2 (newRootExpr_transparent isBoolean binaryTypesValid
                  unaryTypesValid (SpansetFilterElem filterAttribute))).
  reflexivity.
Defined.

Lemma Aggregate_validated_type_witness :
  Aggregate_impliedType isBoolean
    (newAggregate aggregateSum
       (Some (AttributeExpr Operator (NewAttribute "x")))) = TypeAttribute \/
  isNumeric (Aggregate_impliedType isBoolean
    (newAggregate aggregateSum
       (Some (AttributeExpr Operator (NewAttribute "x"))))) = true.
Proof.
  apply (Aggregate_validated_type isBoolean binaryTypesValid unaryTypesValid).
  reflexivity.
Defined.

Lemma FieldExpression_validate_subexpression_witness :
  FieldExpression_validate isBoolean binaryTypesValid unaryTypesValid
    (AttributeExpr Operator (NewAttribute "x")) = None.
Proof.
  apply (FieldExpression_validate_subexpression isBoolean binaryTypesValid
           unaryTypesValid
           (BinaryOperation OpEqual (AttributeExpr Operator (NewAttribute "x"))
                            (StaticExpr Operator (NewStaticInt 1)))).
  - reflexivity.
  - apply subexpression_LHS. apply subexpression_here.
Defined.

Lemma SpansetFilter_evaluate_shrinks_witness :
  (length [spanset [2; 4]%nat] <= length someSpansets)%nat /\
  (length (concat (map Spans [spanset [2; 4]%nat]))
   <= length (concat (map Spans someSpansets)))%nat.
Proof.
  apply (SpansetFilter_evaluate_shrinks execute filterAttribute).
  reflexivity.
Defined.

Lemma SpansetFilter_evaluate_idempotent_witness :
  SpansetFilter_evaluate execute filterAttribute [spanset [2; 4]%nat]
  = Ok [spanset [2; 4]%nat].
Proof.
  apply (SpansetFilter_evaluate_idempotent execute filterAttribute
           someSpansets).
  reflexivity.
Defined.

End traceql_more.

(* ===================================================================== *)
(** * Further properties of package vparquet                              *)
(* ===================================================================== *)

Module vparquet_more.

Import vparquet.
Import vparquet_spec.

(** ** binarySearch *)

(** With nothing to search, [binarySearch] returns -1 and does not call
    the comparator; when the comparator fails or panics at the first
    midpoint, [binarySearch] ends with that failure. *)
Theorem binarySearch_edges (compare : Z -> M Z) (n : Z) (mins : list ID) :
  (n <= 0 -> binarySearch n compare mins = (Return (-1), mins, [])) /\
  (0 < n -> forall e mins' evs,
     compare (midpoint 0 n) mins = (Error e, mins', evs) ->
     binarySearch n compare mins = (Error e, mins', evs)) /\
  (0 < n -> forall msg mins' evs,
     compare (midpoint 0 n) mins = (Panic msg, mins', evs) ->
     binarySearch n compare mins = (Panic msg, mins', evs)).
Proof.
  unfold binarySearch. split; [|split].
  - intros Hn. destruct (Z.to_nat n); cbn;
      (replace (0 <? n) with false by (symmetry; apply Z.ltb_ge; lia));
      reflexivity.
  - intros Hn e mins' evs Hc.
    destruct (Z.to_nat n) as [|fuel] eqn:Hf; [lia|].
    cbn [binarySearch_loop].
    replace (0 <? n) with true by (symmetry; apply Z.ltb_lt; lia).
    unfold bind. now rewrite Hc.
  - intros Hn msg mins' evs Hc.
    destruct (Z.to_nat n) as [|fuel] eqn:Hf; [lia|].
    cbn [binarySearch_loop].
    replace (0 <? n) with true by (symmetry; apply Z.ltb_lt; lia).
    unfold bind. now rewrite Hc.
Qed.

Lemma binarySearch_edges_witness :
  binarySearch 3 (fun _ => fail (ErrBackend "read")) []
  = (Error (ErrBackend "read"), [], []).
Proof.
  apply (proj1 (proj2 (binarySearch_edges
                         (fun _ => fail (ErrBackend "read")) 3 []))).
  - lia.
  - reflexivity.
Defined.

(** The [switch] of [binarySearch] has no default: with a comparator
    that returns a value other than 0, -1 and 1 the bounds never move,
    and the loop does not end, however long it runs. *)
Theorem binarySearch_loop_unexpected_result (compare : Z -> M Z) (c : Z)
    (i j : Z) :
  c <> 0 -> c <> -1 -> c <> 1 -> i < j ->
  (forall h mins, exists mins' evs, compare h mins = (Return c, mins', evs)) ->
  forall (fuel : nat) (mins : list ID),
    exists mins' evs,
      binarySearch_loop fuel compare i j mins = (Diverge, mins', evs).
Proof.
  intros H0 Hm Hp Hij Hc fuel.
  induction fuel as [|fuel IH]; intros mins; cbn [binarySearch_loop];
    (replace (i <? j) with true by (symmetry; apply Z.ltb_lt; lia)).
  - eauto.
  - destruct (Hc (midpoint i j) mins) as (mins1 & evs1 & Hret).
    unfold bind. rewrite Hret.
    replace (c =? 0) with false by (symmetry; now apply Z.eqb_neq).
    replace (c =? -1) with false by (symmetry; now apply Z.eqb_neq).
    replace (c =? 1) with false by (symmetry; now apply Z.eqb_neq).
    destruct (IH mins1) as (mins2 & evs2 & Hloop). rewrite Hloop. eauto.
Qed.

Lemma binarySearch_loop_unexpected_result_witness :
  exists mins' evs,
    binarySearch_loop 100 (fun _ => ret 2) 0 8 [] = (Diverge, mins', evs).
Proof.
  apply (binarySearch_loop_unexpected_result (fun _ => ret 2) 2 0 8);
    try lia.
  intros h mins. now exists mins, [].
Defined.

(** The loop of [binarySearch] halves the range: over [n < 2 ^ fuel]
    indices it ends within [fuel] rounds, each with one call of the
    comparator, and returns -1 or an index at which the comparator
    returned 0. *)
Theorem binarySearch_loop_logarithmic (compare : Z -> M Z)
    (Inv : list ID -> Prop) (cmp : Z -> Z) (n : Z) :
  n < 2 ^ 63 - 1 ->
  (forall h mins, 0 <= h < n -> Inv mins ->
     exists mins', returns (compare h) mins (cmp h) mins' /\ Inv mins') ->
  (forall h, 0 <= h < n -> cmp h = -1 \/ cmp h = 0 \/ cmp h = 1) ->
  forall (fuel : nat) (i j : Z) (mins : list ID),
    0 <= i -> i <= j -> j <= n -> j - i < 2 ^ Z.of_nat fuel -> Inv mins ->
    exists res mins',
      returns (binarySearch_loop fuel compare i j) mins res mins' /\
      Inv mins' /\
      (res = -1 \/ (i <= res < j /\ cmp res = 0)).
Proof.
  intros Hn Hcompare Hrange fuel.
  induction fuel as [|fuel IH]; intros i j mins Hi Hij Hj Hfuel HInv.
  - cbn in Hfuel. exists (-1), mins. split; [|auto].
    cbn. replace (i <? j) with false by (symmetry; apply Z.ltb_ge; lia).
    apply returns_ret.
  - cbn [binarySearch_loop]. destruct (i <? j) eqn:Hlt.
    2:{ exists (-1), mins. split; [apply returns_ret|auto]. }
    apply Z.ltb_lt in Hlt.
    destruct (midpoint_spec i j) as [Hmid Hh]; [lia|lia|lia|].
    set (h := midpoint i j) in *.
    rewrite Nat2Z.inj_succ, Z.pow_succ_r in Hfuel by lia.
    pose proof (Z.div_mod (i + j) 2 ltac:(lia)) as Hdiv.
    pose proof (Z.mod_pos_bound (i + j) 2 ltac:(lia)) as Hmod.
    rewrite <- Hmid in Hdiv.
    destruct (Hcompare h mins) as (mins1 & Hc & HInv1); [lia|exact HInv|].
    destruct (Hrange h) as [Hm|[Hz|Hp]]; [lia| | |].
    + destruct (IH i h mins1) as (res & mins' & Hret & HInv' & Hres);
        try assumption; try lia.
      exists res, mins'. split; [|split; [exact HInv'|]].
      * eapply returns_bind; [exact Hc|]. rewrite Hm. cbn. exact Hret.
      * destruct Hres as [->|[Hb Hz]]; [now left|right; split; [lia|exact Hz]].
    + exists h, mins1. split; [|split; [exact HInv1|right; split; [lia|exact Hz]]].
      eapply returns_bind; [exact Hc|]. rewrite Hz. cbn. apply returns_ret.
    + destruct (IH (h + 1) j mins1) as (res & mins' & Hret & HInv' & Hres);
        try assumption; try lia.
      exists res, mins'. split; [|split; [exact HInv'|]].
      * eapply returns_bind; [exact Hc|]. rewrite Hp. cbn.
        rewrite int_wrap_small by (pow2; lia). exact Hret.
      * destruct Hres as [->|[Hb Hz]]; [now left|right; split; [lia|exact Hz]].
Qed.

Lemma binarySearch_loop_logarithmic_witness :
  exists res mins',
    returns (binarySearch_loop 4 (fun h => ret (Z.sgn (5 - h))) 0 10) [] res
            mins' /\
    True /\
    (res = -1 \/ (0 <= res < 10 /\ Z.sgn (5 - res) = 0)).
Proof.
  apply (binarySearch_loop_logarithmic (fun h => ret (Z.sgn (5 - h)))
           (fun _ => True) (fun h => Z.sgn (5 - h)) 10).
  - vm_compute. reflexivity.
  - intros h mins _ _. exists mins. split; [apply returns_ret|exact I].
  - intros h _. destruct (5 - h); cbn; auto.
  - lia.
  - lia.
  - lia.
  - vm_compute. reflexivity.
  - exact I.
Defined.

(** ** The cache of bounds *)

Section Blocks.

Context {Trace : Type} (Trace_TraceID : Trace -> ID).
Context {tempopb_Trace : Type}.
Context (parquetTraceToTempopbTrace : Trace -> tempopb_Trace).
Context {BloomFilter : Type}.
Context (BloomFilter_ReadFrom : list byte -> option BloomFilter).
Context (BloomFilter_Test : BloomFilter -> ID -> bool).
Context (ShardKeyForTraceID : ID -> Z -> Z).
Context (BloomName : Z -> string).

Implicit Types (b : backendBlock Trace) (f : parquetFile Trace) (T : ID).

Local Abbreviation rowGroupBound := (getRowGroupMin Trace_TraceID).
Local Abbreviation scan :=
  (scanRowGroup Trace_TraceID parquetTraceToTempopbTrace).
Local Abbreviation probe :=
  (checkBloom BloomFilter_ReadFrom BloomFilter_Test ShardKeyForTraceID
     BloomName).
Local Abbreviation find :=
  (FindTraceByID Trace_TraceID parquetTraceToTempopbTrace
     BloomFilter_ReadFrom BloomFilter_Test ShardKeyForTraceID BloomName).
Local Abbreviation bloomOf b T :=
  (BloomName (ShardKeyForTraceID T (BloomShardCount (meta b)))).

Lemma index_Some_bounds {A : Type} (l : list A) (i : Z) (x : A) :
  index l i = Some x -> 0 <= i /\ (Z.to_nat i < length l)%nat.
Proof.
  unfold index. destruct (i <? 0) eqn:Hi; [discriminate|].
  apply Z.ltb_ge in Hi. intros H. split; [exact Hi|].
  eapply lookup_lt_Some. exact H.
Qed.

(** A bound is read from the file once: after [getRowGroupMin] has
    returned a non-empty id for an index, asking again for that index
    returns the same id from the cache, without opening an iterator
    and without changing the cache. *)
Theorem getRowGroupMin_cached f T (rgIdx : Z) (mins mins1 : list ID)
    (v : ID) (evs : list Event) :
  rowGroupBound f T rgIdx mins = (Return v, mins1, evs) ->
  v <> [] ->
  rowGroupBound f T rgIdx mins1 = (Return v, mins1, []).
Proof.
  unfold getRowGroupMin, bind, getMins. cbn.
  destruct (index mins rgIdx) as [c|] eqn:Hidx; [|discriminate].
  destruct (index_Some_bounds _ _ _ Hidx) as [H0 Hlen].
  destruct (0 <? Z.of_nat (length c)) eqn:Hc.
  - cbn. intros H Hv. inversion H; subst. now rewrite Hidx, Hc.
  - destruct (index (RowGroups f) rgIdx) as [rg|]; [|discriminate].
    unfold emit, defer, bind, setMins, ret, fail. cbn.
    destruct rg as [|row rest]; [discriminate|]. cbn.
    intros H Hv. inversion H; subst. clear H.
    assert (Hnew : index (<[Z.to_nat rgIdx := Trace_TraceID row]> mins) rgIdx
                   = Some (Trace_TraceID row)).
    { unfold index.
      replace (rgIdx <? 0) with false by (symmetry; apply Z.ltb_ge; lia).
      now apply list_lookup_insert_eq. }
    rewrite Hnew.
    replace (0 <? Z.of_nat (length (Trace_TraceID row))) with true; [easy|].
    symmetry. apply Z.ltb_lt.
    destruct (Trace_TraceID row); [now destruct Hv|cbn [length]; lia].
Qed.

(** An empty bound in the metadata counts as not loaded.  With an
    empty [minID] the lower bound of row group 0 is read from the file:
    it is the id of its first row.  With an empty [maxID] the bound
    after the last row group is looked for in a row group that does not
    exist, and the call panics. *)
Theorem empty_metadata_bound b f T :
  (0 < length (RowGroups f))%nat ->
  Z.of_nat (length (RowGroups f)) < 2 ^ 63 - 1 ->
  let n := Z.of_nat (length (RowGroups f)) in
  let fresh := makeRowGroupMins (meta b) n in
  (MinID (meta b) = [] ->
   forall row rest, RowGroups f !! 0%nat = Some (row :: rest) ->
     rowGroupBound f T 0 fresh
     = (Return (Trace_TraceID row),
        <[0%nat := Trace_TraceID row]> fresh,
        [EvIterOpen 0 None; EvIterClose 0])) /\
  (MaxID (meta b) = [] ->
   rowGroupBound f T n fresh
   = (Panic "slice bounds out of range", fresh, [])).
Proof.
  intros Hn Hsmall n fresh.
  assert (Hfresh : fresh
            = <[length (RowGroups f) := MaxID (meta b)]>
                (<[0%nat := MinID (meta b)]>
                   (replicate (S (length (RowGroups f))) []))).
  { unfold fresh, makeRowGroupMins, n.
    rewrite int_wrap_small by (pow2; lia). rewrite Nat2Z.id.
    now replace (Z.to_nat (Z.of_nat (length (RowGroups f)) + 1))
      with (S (length (RowGroups f))) by lia. }
  clearbody fresh. subst n.
  split.
  - intros Hmin row rest Hrow.
    assert (Hidx : index fresh 0 = Some []).
    { unfold index. cbn. rewrite Hfresh.
      rewrite list_lookup_insert_ne by lia.
      rewrite list_lookup_insert_eq by (rewrite length_replicate; lia).
      now rewrite Hmin. }
    unfold getRowGroupMin, bind, getMins. cbn beta iota. rewrite Hidx.
    cbn [length Z.of_nat Z.ltb Z.compare].
    assert (Hrg : index (RowGroups f) 0 = Some (row :: rest))
      by (unfold index; cbn; exact Hrow).
    rewrite Hrg. reflexivity.
  - intros Hmax.
    assert (Hidx : index fresh (Z.of_nat (length (RowGroups f))) = Some []).
    { rewrite index_of_nat, Hfresh.
      rewrite list_lookup_insert_eq
        by (rewrite length_insert, length_replicate; lia).
      now rewrite Hmax. }
    unfold getRowGroupMin, bind, getMins. cbn beta iota. rewrite Hidx.
    cbn [length Z.of_nat Z.ltb Z.compare].
    rewrite index_of_nat, lookup_ge_None_2 by lia. reflexivity.
Qed.

(** ** The failures of the lookup *)

(** A bloom shard that cannot be read or parsed is an error of
    [FindTraceByID], not a miss; nothing else is read and the columnar
    file is not opened. *)
Theorem FindTraceByID_bloom_failure b T (mins : list ID) :
  (r b (bloomOf b T) = None ->
   find b T mins
   = (Error (ErrRetrievingBloom (bloomOf b T) (ErrBackend "read")), mins,
      [EvRead (bloomOf b T)])) /\
  (forall bloomBytes,
     r b (bloomOf b T) = Some bloomBytes ->
     BloomFilter_ReadFrom bloomBytes = None ->
     find b T mins
     = (Error (ErrParsingBloom (ErrBackend "parse")), mins,
        [EvRead (bloomOf b T)])).
Proof.
  split.
  - intros Hr. unfold FindTraceByID, bind at 1, checkBloom, bind at 1,
      mapError, Reader_Read, bind, emit. cbn. rewrite Hr. reflexivity.
  - intros bloomBytes Hr Hparse. unfold FindTraceByID, bind at 1, checkBloom,
      bind at 1, mapError, Reader_Read, bind, emit. cbn.
    rewrite Hr. cbn. rewrite Hparse. reflexivity.
Qed.

(** After a bloom hit, a columnar file that does not open or that has
    no column "TraceID" is an error of [FindTraceByID]; no iterator is
    opened. *)
Theorem FindTraceByID_file_failure b T (mins mins1 : list ID)
    (evs : list Event) :
  probe b T mins = (Return true, mins1, evs) ->
  (pf b = None ->
   find b T mins
   = (Error (ErrOpeningParquet (ErrBackend "open")), mins1,
      evs ++ [EvOpenColumnar])) /\
  (forall f, pf b = Some f ->
     GetColumnIndexByPath f TraceIDColumnName = -1 ->
     find b T mins
     = (Error (ErrColumnIndex TraceIDColumnName), mins1,
        evs ++ [EvOpenColumnar])).
Proof.
  intros Hp. split.
  - intros Hpf. unfold FindTraceByID, bind at 1. rewrite Hp. cbn [negb].
    unfold bind at 1, mapError, openForSearch, bind, emit. cbn.
    rewrite Hpf. reflexivity.
  - intros f Hpf Hcol. unfold FindTraceByID, bind at 1. rewrite Hp. cbn [negb].
    unfold bind at 1, mapError, openForSearch, bind, emit. cbn.
    rewrite Hpf. cbn. rewrite Hcol. cbn. rewrite ?app_nil_r. reflexivity.
Qed.

Lemma makeRowGroupMins_interior b f (k : nat) :
  (0 < k < length (RowGroups f))%nat ->
  Z.of_nat (length (RowGroups f)) < 2 ^ 63 - 1 ->
  makeRowGroupMins (meta b) (Z.of_nat (length (RowGroups f))) !! k = Some [].
Proof.
  intros Hk Hsmall. unfold makeRowGroupMins.
  rewrite int_wrap_small by (pow2; lia). rewrite Nat2Z.id.
  rewrite !list_lookup_insert_ne by lia.
  apply lookup_replicate_2. lia.
Qed.

(** A row group that yields no first value makes the lookup fail: when
    the row group in the middle, the first that the search probes, has
    no row, [FindTraceByID] returns the error of [getRowGroupMin]
    wrapped as "error binary searching row groups", and the iterator
    it opened is closed. *)
Theorem FindTraceByID_empty_row_group b f T (mins mins1 : list ID)
    (evs : list Event) :
  probe b T mins = (Return true, mins1, evs) ->
  pf b = Some f ->
  GetColumnIndexByPath f TraceIDColumnName <> -1 ->
  Z.of_nat (length (RowGroups f)) < 2 ^ 63 - 1 ->
  let h := Z.of_nat (length (RowGroups f)) / 2 in
  0 < h ->
  RowGroups f !! Z.to_nat h = Some [] ->
  find b T mins
  = (Error (ErrWrap (ErrReadRowGroup T h)
                    "error binary searching row groups"),
     makeRowGroupMins (meta b) (Z.of_nat (length (RowGroups f))),
     evs ++ [EvOpenColumnar; EvIterOpen h None; EvIterClose h]).
Proof.
  intros Hp Hpf Hcol Hsmall h Hh Hrg.
  remember (Z.of_nat (length (RowGroups f))) as n eqn:En.
  assert (Hn : 0 < n).
  { destruct (Z.leb_spec n 0) as [Hle|]; [|lia].
    assert (n / 2 <= 0) by (apply Z.div_le_upper_bound; lia).
    unfold h in Hh. lia. }
  destruct (midpoint_spec 0 n) as [Hmid Hbounds]; [lia|lia|lia|].
  rewrite Z.add_0_l in Hmid. fold h in Hmid.
  set (fresh := makeRowGroupMins (meta b) n).
  assert (Hmin : getRowGroupMin Trace_TraceID f T h fresh
                 = (Error (ErrReadRowGroup T h), fresh,
                    [EvIterOpen h None; EvIterClose h])).
  { unfold getRowGroupMin, bind, getMins. cbn beta iota.
    assert (Hidx : index fresh h = Some []).
    { rewrite <- (Z2Nat.id h) by lia. rewrite index_of_nat.
      unfold fresh. rewrite En.
      apply makeRowGroupMins_interior; [|rewrite <- En; exact Hsmall].
      rewrite Hmid in Hbounds. lia. }
    rewrite Hidx. cbn [length Z.of_nat Z.ltb Z.compare].
    assert (Hidx' : index (RowGroups f) h = Some []).
    { rewrite <- (Z2Nat.id h) by lia. now rewrite index_of_nat. }
    rewrite Hidx'. reflexivity. }
  assert (Hcmp : compareRowGroup Trace_TraceID f T n (midpoint 0 n) fresh
                 = (Error (ErrReadRowGroup T h), fresh,
                    [EvIterOpen h None; EvIterClose h])).
  { rewrite Hmid. unfold compareRowGroup, bind at 1. now rewrite Hmin. }
  pose proof (proj1 (proj2 (binarySearch_edges
                              (compareRowGroup Trace_TraceID f T n) n fresh))
                Hn _ _ _ Hcmp) as Hsearch.
  unfold FindTraceByID, bind at 1. rewrite Hp. cbn [negb].
  unfold bind at 1, mapError at 1, openForSearch, bind at 1, emit.
  rewrite Hpf. cbn beta iota zeta. unfold ret at 1. cbn beta iota.
  replace (GetColumnIndexByPath f TraceIDColumnName =? -1) with false
    by (symmetry; now apply Z.eqb_neq).
  unfold bind at 1, setMins. cbn beta iota.
  unfold bind at 1, mapError. rewrite <- En. fold fresh. rewrite Hsearch.
  cbn. reflexivity.
Qed.

(** ** The iterators of a lookup *)

Local Abbreviation quiet m :=
  (forall mins : list ID, openIterators (snd (m mins)) = 0).

Lemma openIterators_app (evs evs' : list Event) :
  openIterators (evs ++ evs') = openIterators evs + openIterators evs'.
Proof.
  induction evs as [|ev evs IH]; cbn; [reflexivity|].
  destruct ev; rewrite ?IH; lia.
Qed.

Lemma quiet_bind {A B : Type} (m : M A) (k : A -> M B) :
  quiet m -> (forall a, quiet (k a)) -> quiet (bind m k).
Proof.
  intros Hm Hk mins. unfold bind. specialize (Hm mins).
  destruct (m mins) as [[o mins1] evs1]. cbn in Hm.
  destruct o as [a| | |]; cbn; try exact Hm.
  specialize (Hk a mins1). destruct (k a mins1) as [[o2 mins2] evs2].
  cbn in *. rewrite openIterators_app. lia.
Qed.

Lemma quiet_mapError {A : Type} (wrap : error -> error) (m : M A) :
  quiet m -> quiet (mapError wrap m).
Proof.
  intros Hm mins. unfold mapError. specialize (Hm mins).
  destruct (m mins) as [[o mins1] evs1]. now destruct o.
Qed.

Lemma getRowGroupMin_quiet f T (rgIdx : Z) : quiet (rowGroupBound f T rgIdx).
Proof.
  intros mins. unfold getRowGroupMin, bind, getMins. cbn beta iota.
  destruct (index mins rgIdx) as [c|]; [|reflexivity].
  destruct (0 <? Z.of_nat (length c)); [reflexivity|].
  destruct (index (RowGroups f) rgIdx) as [[|row rest]|]; reflexivity.
Qed.

Lemma compareRowGroup_quiet f T (n rgIdx : Z) :
  quiet (compareRowGroup Trace_TraceID f T n rgIdx).
Proof.
  unfold compareRowGroup. apply quiet_bind; [apply getRowGroupMin_quiet|].
  intros min. cbn zeta. destruct (_ <=? 0); [reflexivity|].
  apply quiet_bind; [apply getRowGroupMin_quiet|].
  intros max. cbn zeta. now destruct (_ || _).
Qed.

Lemma binarySearch_loop_quiet (compare : Z -> M Z) (fuel : nat) :
  (forall h, quiet (compare h)) ->
  forall i j, quiet (binarySearch_loop fuel compare i j).
Proof.
  intros Hc. induction fuel as [|fuel IH]; intros i j; cbn [binarySearch_loop];
    destruct (i <? j); try reflexivity.
  apply quiet_bind; [apply Hc|].
  intros c. destruct (c =? 0); [reflexivity|].
  destruct (c =? -1); [apply IH|]. destruct (c =? 1); apply IH.
Qed.

Lemma scanRowGroup_quiet f T (rowGroup : Z) : quiet (scan f T rowGroup).
Proof.
  intros mins. unfold scanRowGroup.
  destruct (rowGroup =? -1); [reflexivity|].
  destruct (index (RowGroups f) rowGroup) as [rg|]; [|reflexivity].
  unfold bind at 1, emit, defer. cbn beta iota.
  destruct (iterNext Trace_TraceID T rg 0) as [rowNumber|]; [|reflexivity].
  cbn zeta. unfold bind at 1, readRow, bind at 1, emit. cbn beta iota.
  destruct (_ <? 0); [reflexivity|].
  unfold bind, emit. cbn beta iota.
  destruct (index (concat (RowGroups f)) _); reflexivity.
Qed.

(** Every column iterator that a lookup opens is closed when
    [FindTraceByID] ends, whether it returns a trace, nil, an error or
    panics: the trace of events has as many [Close] as
    [NewColumnIterator]. *)
Theorem FindTraceByID_closes_iterators b T (mins : list ID) :
  openIterators (snd (find b T mins)) = 0.
Proof.
  revert mins. unfold FindTraceByID. apply quiet_bind.
  { intros mins. destruct (checkBloom_events BloomFilter_ReadFrom
      BloomFilter_Test ShardKeyForTraceID BloomName b T mins) as [o Ho].
    now rewrite Ho. }
  intros found. destruct found; cbn [negb]; [|reflexivity].
  apply quiet_bind.
  { apply quiet_mapError. intros mins. unfold openForSearch, bind, emit. cbn.
    now destruct (pf b). }
  intros f. cbn zeta. destruct (_ =? -1); [reflexivity|].
  apply quiet_bind; [reflexivity|]. intros _.
  apply quiet_bind.
  - apply quiet_mapError. unfold binarySearch.
    apply binarySearch_loop_quiet. intros h. apply compareRowGroup_quiet.
  - intros rowGroup. apply scanRowGroup_quiet.
Qed.

(** ** The row that is read *)

Lemma iterNext_first T (rg : list Trace) (k : nat) (tr : Trace) (start : Z) :
  0 <= start -> start + Z.of_nat (length rg) < 2 ^ 63 ->
  rg !! k = Some tr -> Trace_TraceID tr = T ->
  (forall k' tr', (k' < k)%nat -> rg !! k' = Some tr' ->
     Trace_TraceID tr' <> T) ->
  iterNext Trace_TraceID T rg start = Some (start + Z.of_nat k).
Proof.
  revert k start. induction rg as [|row rg IH]; intros k start H0 Hlt Hk Hid Hfirst;
    [discriminate|].
  cbn [iterNext length] in *. destruct k as [|k].
  - cbn in Hk. inversion Hk; subst row.
    rewrite bool_decide_eq_true_2 by exact Hid. f_equal. lia.
  - rewrite bool_decide_eq_false_2
      by (apply (Hfirst 0%nat row); [lia|reflexivity]).
    rewrite int_wrap_small by (pow2; lia).
    rewrite (IH k (start + 1)); [f_equal; lia|lia|lia|exact Hk|exact Hid|].
    intros k' tr' Hk' Hlook. apply (Hfirst (S k') tr'); [lia|exact Hlook].
Qed.

(** The row that [FindTraceByID] reads is the first row of the row
    group with the id: its number in the file is the number of rows of
    the row groups before, plus its number in the row group; the
    iterator is closed after the read. *)
Theorem scanRowGroup_first_match f T (r k : nat) (rg : list Trace)
    (tr : Trace) (mins : list ID) :
  Z.of_nat (length (concat (RowGroups f))) < 2 ^ 63 - 1 ->
  RowGroups f !! r = Some rg ->
  rg !! k = Some tr -> Trace_TraceID tr = T ->
  (forall k' tr', (k' < k)%nat -> rg !! k' = Some tr' ->
     Trace_TraceID tr' <> T) ->
  scan f T (Z.of_nat r) mins
  = (Return (Some (parquetTraceToTempopbTrace tr)), mins,
     [EvIterOpen (Z.of_nat r) (Some T);
      EvSeekToRow (Z.of_nat (length (concat (take r (RowGroups f))) + k));
      EvReadRow;
      EvIterClose (Z.of_nat r)]).
Proof.
  intros Hrows Hrg Hk Hid Hfirst.
  pose proof (lookup_lt_Some _ _ _ Hk) as Hklen.
  destruct (lookup_concat_row (RowGroups f) r rg k Hrg Hklen) as [Hlook Hlen].
  unfold scanRowGroup.
  replace (Z.of_nat r =? -1) with false by (symmetry; apply Z.eqb_neq; lia).
  rewrite index_of_nat, Hrg, Nat2Z.id.
  rewrite (iterNext_first T rg k tr 0); [|lia|pow2; lia|exact Hk|exact Hid|
                                         exact Hfirst].
  rewrite sumNumRows_spec; [|lia|pow2; lia].
  rewrite int_wrap_small by (pow2; lia).
  replace (0 + Z.of_nat (length (concat (take r (RowGroups f))))
           + (0 + Z.of_nat k))
    with (Z.of_nat (length (concat (take r (RowGroups f))) + k)) by lia.
  unfold bind at 1, emit, defer. cbn beta iota.
  unfold bind at 1, readRow, bind at 1, emit. cbn beta iota.
  replace (_ <? 0) with false by (symmetry; apply Z.ltb_ge; lia).
  unfold bind at 1, emit. cbn beta iota.
  rewrite index_of_nat, Hlook, Hk. reflexivity.
Qed.

(** ** The end of a lookup *)

Local Abbreviation halts m :=
  (forall mins : list ID, fst (fst (m mins)) <> Diverge).

Lemma halts_bind {A B : Type} (m : M A) (k : A -> M B) :
  halts m -> (forall a, halts (k a)) -> halts (bind m k).
Proof.
  intros Hm Hk mins. unfold bind. specialize (Hm mins).
  destruct (m mins) as [[o mins1] evs1]. cbn in Hm.
  destruct o as [a| | |]; cbn; try discriminate; [|now destruct Hm].
  specialize (Hk a mins1). now destruct (k a mins1) as [[o2 mins2] evs2].
Qed.

Lemma bind_returns_halts {A B : Type} (m : M A) (k : A -> M B)
    (mins mins1 : list ID) (a : A) (evs : list Event) :
  m mins = (Return a, mins1, evs) ->
  fst (fst (k a mins1)) <> Diverge ->
  fst (fst (bind m k mins)) <> Diverge.
Proof.
  intros Hm Hk. unfold bind. rewrite Hm.
  now destruct (k a mins1) as [[o2 mins2] evs2].
Qed.

Lemma halts_mapError {A : Type} (wrap : error -> error) (m : M A) :
  halts m -> halts (mapError wrap m).
Proof.
  intros Hm mins. unfold mapError. specialize (Hm mins).
  destruct (m mins) as [[o mins1] evs1]. now destruct o.
Qed.

Lemma getRowGroupMin_halts f T (rgIdx : Z) : halts (rowGroupBound f T rgIdx).
Proof.
  intros mins. unfold getRowGroupMin, bind, getMins. cbn beta iota.
  destruct (index mins rgIdx) as [c|]; [|discriminate].
  destruct (0 <? Z.of_nat (length c)); [discriminate|].
  destruct (index (RowGroups f) rgIdx) as [[|row rest]|]; discriminate.
Qed.

Lemma compareRowGroup_halts f T (n rgIdx : Z) :
  halts (compareRowGroup Trace_TraceID f T n rgIdx).
Proof.
  unfold compareRowGroup. apply halts_bind; [apply getRowGroupMin_halts|].
  intros min. cbn zeta. destruct (_ <=? 0); [discriminate|].
  apply halts_bind; [apply getRowGroupMin_halts|].
  intros max. cbn zeta. now destruct (_ || _).
Qed.

Lemma compareRowGroup_range f T (n rgIdx c : Z) (mins mins' : list ID)
    (evs : list Event) :
  compareRowGroup Trace_TraceID f T n rgIdx mins = (Return c, mins', evs) ->
  c = -1 \/ c = 0 \/ c = 1.
Proof.
  unfold compareRowGroup, bind at 1.
  destruct (getRowGroupMin Trace_TraceID f T rgIdx mins) as [[o mins1] evs1].
  destruct o as [min| | |]; try discriminate. cbn zeta.
  destruct (bytes_Compare T min <=? 0) eqn:Hcheck.
  - cbn. intros H. inversion H; subst c.
    apply Z.leb_le in Hcheck.
    destruct (bytes_Compare_range T min) as [Hr|[Hr|Hr]]; rewrite Hr in *;
      auto; lia.
  - unfold bind.
    destruct (getRowGroupMin Trace_TraceID f T _ mins1) as [[o2 mins2] evs2].
    destruct o2 as [max| | |]; try discriminate. cbn zeta.
    destruct (_ || _); cbn; intros H; inversion H; auto.
Qed.

Lemma binarySearch_loop_halts (compare : Z -> M Z) (n : Z) :
  n < 2 ^ 63 - 1 ->
  (forall h, halts (compare h)) ->
  (forall h c mins mins' evs,
     compare h mins = (Return c, mins', evs) -> c = -1 \/ c = 0 \/ c = 1) ->
  forall (fuel : nat) (i j : Z),
    0 <= i -> j <= n -> j - i <= Z.of_nat fuel ->
    halts (binarySearch_loop fuel compare i j).
Proof.
  intros Hn Hhalts Hrange fuel.
  induction fuel as [|fuel IH]; intros i j Hi Hj Hfuel mins;
    cbn [binarySearch_loop]; destruct (i <? j) eqn:Hij; try discriminate.
  - apply Z.ltb_lt in Hij. lia.
  - apply Z.ltb_lt in Hij.
    destruct (midpoint_spec i j) as [_ Hh]; [lia|lia|lia|].
    unfold bind. pose proof (Hhalts (midpoint i j) mins) as Hc.
    destruct (compare (midpoint i j) mins) as [[o mins1] evs1] eqn:Hcmp.
    destruct o as [c| | |]; cbn; try discriminate; [|now destruct Hc].
    destruct (Hrange _ _ _ _ _ Hcmp) as [-> | [-> | ->]]; cbn.
    + pose proof (IH i (midpoint i j) ltac:(lia) ltac:(lia) ltac:(lia) mins1)
        as H.
      now destruct (binarySearch_loop fuel compare i (midpoint i j) mins1)
        as [[o2 m2] e2].
    + discriminate.
    + rewrite int_wrap_small by (pow2; lia).
      pose proof (IH (midpoint i j + 1) j ltac:(lia) ltac:(lia) ltac:(lia)
                    mins1) as H.
      now destruct (binarySearch_loop fuel compare (midpoint i j + 1) j mins1)
        as [[o2 m2] e2].
Qed.

Lemma scanRowGroup_halts f T (rowGroup : Z) : halts (scan f T rowGroup).
Proof.
  intros mins. unfold scanRowGroup.
  destruct (rowGroup =? -1); [discriminate|].
  destruct (index (RowGroups f) rowGroup) as [rg|]; [|discriminate].
  unfold bind at 1, emit, defer. cbn beta iota.
  destruct (iterNext Trace_TraceID T rg 0) as [rowNumber|]; [|discriminate].
  cbn zeta. unfold bind at 1, readRow, bind at 1, emit. cbn beta iota.
  destruct (_ <? 0); [discriminate|].
  unfold bind, emit. cbn beta iota.
  destruct (index (concat (RowGroups f)) _); discriminate.
Qed.

(** The search of [FindTraceByID] ends on every block: the comparator
    of the lookup returns -1, 0 or 1 only, so each round of
    [binarySearch] narrows the range, and the lookup returns, fails or
    panics within as many rounds as the file has row groups. *)
Theorem FindTraceByID_ends b T (mins : list ID) :
  (forall f, pf b = Some f ->
     Z.of_nat (length (RowGroups f)) < 2 ^ 63 - 1) ->
  fst (fst (find b T mins)) <> Diverge.
Proof.
  intros Hsmall. revert mins. unfold FindTraceByID. apply halts_bind.
  { intros mins. destruct (checkBloom_events BloomFilter_ReadFrom
      BloomFilter_Test ShardKeyForTraceID BloomName b T mins) as [o Ho].
    rewrite Ho. cbn. intros ->.
    revert Ho. unfold checkBloom, bind, mapError, Reader_Read, bind, emit. cbn.
    destruct (r b _); cbn; [|discriminate].
    destruct (BloomFilter_ReadFrom _); discriminate. }
  intros found. destruct found; cbn [negb]; [|discriminate].
  intros mins. destruct (pf b) as [f|] eqn:Hpf.
  2:{ unfold bind at 1, mapError, openForSearch, bind, emit. cbn.
      rewrite Hpf. discriminate. }
  assert (Hopen : mapError ErrOpeningParquet (openForSearch b) mins
                  = (Return f, mins, [EvOpenColumnar])).
  { unfold mapError, openForSearch, bind, emit. cbn. now rewrite Hpf. }
  apply (bind_returns_halts _ _ _ _ _ _ Hopen).
  specialize (Hsmall f eq_refl). cbn zeta.
  destruct (_ =? -1); [discriminate|].
  generalize mins. apply halts_bind; [discriminate|]. intros _.
  apply halts_bind.
  - apply halts_mapError. unfold binarySearch.
    apply (binarySearch_loop_halts _ (Z.of_nat (length (RowGroups f))));
      try lia; try exact Hsmall.
    + intros h. apply compareRowGroup_halts.
    + intros h c m m' e. apply compareRowGroup_range.
  - intros rowGroup. apply scanRowGroup_halts.
Qed.

End Blocks.

(** ** The properties on the blocks of [example_blocks] *)

Import example_blocks.

Lemma getRowGroupMin_cached_witness :
  getRowGroupMin Trace_TraceID seamFile [x10] 1 [[x00]; [x10]; []; [x2f]]
  = (Return [x10], [[x00]; [x10]; []; [x2f]], []).
Proof.
  apply (getRowGroupMin_cached Trace_TraceID seamFile [x10] 1
           [[x00]; []; []; [x2f]] [[x00]; [x10]; []; [x2f]] [x10]
           [EvIterOpen 1 None; EvIterClose 1]).
  - reflexivity.
  - discriminate.
Defined.

Lemma empty_metadata_bound_witness :
  getRowGroupMin Trace_TraceID seamFile [x10] 3
    (makeRowGroupMins (meta (blockOf [x00] [] sidecars (Some seamFile))) 3)
  = (Panic "slice bounds out of range",
     makeRowGroupMins (meta (blockOf [x00] [] sidecars (Some seamFile))) 3,
     []).
Proof.
  apply (proj2 (empty_metadata_bound Trace_TraceID
                  (blockOf [x00] [] sidecars (Some seamFile)) seamFile [x10]
                  ltac:(cbn; lia) ltac:(vm_compute; reflexivity))).
  reflexivity.
Defined.

Lemma FindTraceByID_bloom_failure_witness :
  findIn (blockOf [x00] [x2f] (fun _ => None) (Some seamFile)) [x10] []
  = (Error (ErrRetrievingBloom "bloom-1" (ErrBackend "read")), [],
     [EvRead "bloom-1"]).
Proof.
  apply (proj1 (FindTraceByID_bloom_failure Trace_TraceID
                  parquetTraceToTempopbTrace BloomFilter_ReadFrom
                  BloomFilter_Test ShardKeyForTraceID BloomName
                  (blockOf [x00] [x2f] (fun _ => None) (Some seamFile))
                  [x10] [])).
  reflexivity.
Defined.

Lemma FindTraceByID_file_failure_witness :
  findIn (blockOf [x00] [x2f] sidecars None) [x10] []
  = (Error (ErrOpeningParquet (ErrBackend "open")), [],
     [EvRead "bloom-1"] ++ [EvOpenColumnar]).
Proof.
  apply (proj1 (FindTraceByID_file_failure Trace_TraceID
                  parquetTraceToTempopbTrace BloomFilter_ReadFrom
                  BloomFilter_Test ShardKeyForTraceID BloomName
                  (blockOf [x00] [x2f] sidecars None) [x10] [] []
                  [EvRead "bloom-1"] ltac:(reflexivity))).
  reflexivity.
Defined.

Lemma FindTraceByID_empty_row_group_witness :
  findIn (blockOf [x00] [x2f] sidecars (Some hollowFile)) [x10] []
  = (Error (ErrWrap (ErrReadRowGroup [x10] 1)
                    "error binary searching row groups"),
     [[x00]; []; []; [x2f]],
     [EvRead "bloom-1"]
       ++ [EvOpenColumnar; EvIterOpen 1 None; EvIterClose 1]).
Proof.
  apply (FindTraceByID_empty_row_group Trace_TraceID
           parquetTraceToTempopbTrace BloomFilter_ReadFrom
           BloomFilter_Test ShardKeyForTraceID BloomName
           (blockOf [x00] [x2f] sidecars (Some hollowFile)) hollowFile
           [x10] [] [] [EvRead "bloom-1"]).
  - reflexivity.
  - reflexivity.
  - vm_compute. discriminate.
  - vm_compute. reflexivity.
  - vm_compute. reflexivity.
  - reflexivity.
Defined.

Lemma scanRowGroup_first_match_witness :
  scanRowGroup Trace_TraceID parquetTraceToTempopbTrace seamFile [x1a] 1 []
  = (Return (Some 3%nat), [],
     [EvIterOpen 1 (Some [x1a]); EvSeekToRow 3; EvReadRow; EvIterClose 1]).
Proof.
  apply (scanRowGroup_first_match Trace_TraceID parquetTraceToTempopbTrace
           seamFile [x1a] 1 1 [([x10], 2%nat); ([x1a], 3%nat)]
           ([x1a], 3%nat) []).
  - vm_compute. reflexivity.
  - reflexivity.
  - reflexivity.
  - reflexivity.
  - intros k' tr' Hk' Hlook. destruct k' as [|k']; [|lia].
    cbn in Hlook. inversion Hlook; subst tr'. discriminate.
Defined.

Lemma FindTraceByID_ends_witness :
  fst (fst (find [x10] [])) <> Diverge.
Proof.
  apply (FindTraceByID_ends Trace_TraceID parquetTraceToTempopbTrace
           BloomFilter_ReadFrom BloomFilter_Test ShardKeyForTraceID BloomName
           seamBlock [x10] []).
  intros f Hf. inversion Hf; subst f. vm_compute. reflexivity.
Defined.

End vparquet_more.
